(** * Transition-state visualiser: the numerical core, embedded and verified

    The Python sources [app/pes.py], [app/neb.py], [app/sampling.py] and
    [app/__init__.py] are embedded function by function.  Python floats are
    IEEE 754 binary64 numbers, which is what Rocq's primitive [float] is, so
    [+], [-], [*], comparison and (apart from Python's zero-divisor check)
    [/] are the primitive operations.  The functions of the C library and of
    the [random] module that the sources call ([math.hypot], [math.exp],
    [math.log], [float.__pow__], [sum], [Random.gauss], [float(str)],
    [int(str)])
    are not code of the repository: they are the fields of a [Runtime]
    record over which every definition is parametrised. *)

From Stdlib Require Import ZArith Lia Floats.
From stdpp Require Import base list gmap strings.

Set Warnings "-inexact-float".
Open Scope Z_scope.

(** ** The Python run time *)

Module Py.

(** The exceptions the embedded code can raise. *)
Inductive exn :=
  | ZeroDivisionError
  | UnboundLocalError
  | IndexError
  | ValueError
  | TypeError
  | AttributeError
  | KeyError
  | OverflowError
  | NotImplementedError.

(** A computation either returns or raises. *)
Inductive result (A : Type) :=
  | Ok (a : A)
  | Raise (e : exn).
Arguments Ok {A} a.
Arguments Raise {A} e.

Definition bind {A B} (m : result A) (k : A -> result B) : result B :=
  match m with
  | Ok a => k a
  | Raise e => Raise e
  end.

Declare Scope py_scope.
Delimit Scope py_scope with py.
Notation "x <- m ;; k" := (bind m (fun x => k))
  (at level 100, m at next level, right associativity) : py_scope.
Open Scope py_scope.

Definition is_ok {A} (m : result A) : bool :=
  match m with Ok _ => true | Raise _ => false end.

(** [for x in xs: s = body(s, x)], where the body may raise. *)
Fixpoint foldM {S X} (body : S -> X -> result S) (s : S) (xs : list X)
  : result S :=
  match xs with
  | [] => Ok s
  | x :: xs' => s' <- body s x ;; foldM body s' xs'
  end.

(** A list comprehension [[f(x) for x in xs]], where [f] may raise. *)
Fixpoint mapM {X Y} (f : X -> result Y) (xs : list X) : result (list Y) :=
  match xs with
  | [] => Ok []
  | x :: xs' => y <- f x ;; ys <- mapM f xs' ;; Ok (y :: ys)
  end.

(** [range(lo, hi)] and [range(n)]. *)
Definition range2 (lo hi : Z) : list Z :=
  map (fun k => lo + Z.of_nat k) (seq 0 (Z.to_nat (hi - lo))).
Definition range (n : Z) : list Z := range2 0 n.

(** [l[i]]: a negative index counts from the end, an index out of range
    raises [IndexError]. *)
Definition getitem {A} (l : list A) (i : Z) : result A :=
  let j := if i <? 0 then i + Z.of_nat (length l) else i in
  if j <? 0 then Raise IndexError
  else match l !! Z.to_nat j with
       | Some a => Ok a
       | None => Raise IndexError
       end.

(** [l[i] = a] (same indexing rule). *)
Definition setitem {A} (l : list A) (i : Z) (a : A) : result (list A) :=
  let j := if i <? 0 then i + Z.of_nat (length l) else i in
  if (j <? 0) || (Z.of_nat (length l) <=? j) then Raise IndexError
  else Ok (<[Z.to_nat j := a]> l).

(** *** Floats *)

Definition fzero : float := 0%float.
Definition fone : float := 1%float.

(** [x / y] on floats raises on a zero divisor (of either sign). *)
Definition truediv (x y : float) : result float :=
  if (y =? 0)%float then Raise ZeroDivisionError else Ok (x / y)%float.

(** [max(a, b)]: the first argument is kept unless the second compares
    greater. *)
Definition max (a b : float) : float := if (a <? b)%float then b else a.

(** The integer [z] as the pair (sign, magnitude) that [SFdiv] and
    [binary_normalize] read. *)
Definition Z2SF (z : Z) : spec_float :=
  match z with
  | Z0 => S754_zero false
  | Zpos p => S754_finite false p 0
  | Zneg p => S754_finite true p 0
  end.

(** [float(z)]: the nearest binary64 number (ties to even), [OverflowError]
    beyond the range. *)
Definition float_of_int (z : Z) : result float :=
  match binary_normalize prec emax z 0 false with
  | S754_infinity _ => Raise OverflowError
  | f => Ok (SF2Prim f)
  end.

(** [a / b] on integers: the correctly rounded quotient.  [SFdiv] rounds
    the quotient of the two integer mantissas once, whatever their size. *)
Definition int_truediv (a b : Z) : result float :=
  if b =? 0 then Raise ZeroDivisionError
  else match SFdiv prec emax (Z2SF a) (Z2SF b) with
       | S754_infinity _ => Raise OverflowError
       | f => Ok (SF2Prim f)
       end.

(** [math.isfinite]. *)
Definition isfinite (x : float) : bool :=
  match Prim2SF x with
  | S754_zero _ | S754_finite _ _ _ => true
  | _ => false
  end.

(** *** What the sources take from outside the repository *)

Record Runtime := {
  (** [math.hypot(x, y)] (never raises since CPython 3.8) *)
  hypot : float -> float -> float;
  (** [math.exp(x)]: [OverflowError] when the result is out of range *)
  exp : float -> result float;
  (** [math.log(x)]: [ValueError] outside the domain *)
  log : float -> result float;
  (** [x ** y] on floats: [OverflowError] when the result is out of range *)
  pow : float -> float -> result float;
  (** the builtin [sum] on a list of floats (plain left-to-right addition
      up to CPython 3.11, compensated summation from 3.12) *)
  fsum : list float -> float;
  (** the state of a [random.Random] object, [Random(seed)] and
      [Random.gauss(mu, sigma)], which advances the state *)
  rng_state : Type;
  rng_seed : Z -> rng_state;
  rng_gauss : rng_state -> float -> float -> float * rng_state;
  (** [float(s)] and [int(s)] on a string: [ValueError] when [s] is not a
      numeral *)
  float_of_str : string -> result float;
  int_of_str : string -> result Z
}.

End Py.
Export Py.

Definition point : Type := float * float.

(** ** [app/neb.py] *)

Module Neb.

Record NEBResult := {
  path : list point;
  energies : list float;
  gradients : list point;
  iterations : Z;
  max_force : float
}.

Section RunNeb.
Context (rt : Runtime).
(** The two callables: each returns a float, respectively a 2-vector, or
    raises. *)
Variable potential : point -> result float.
Variable gradient : point -> result point.
Variables (start end_ : point) (n_images : Z).
Variables (k_spring step_size : float) (max_iter : Z).
Variable force_tolerance : float.

(** [[start[0] * (1 - t) + end[0] * t, start[1] * (1 - t) + end[1] * t]] *)
Definition interpolate (t : float) : point :=
  (start.1 * (1 - t) + end_.1 * t, start.2 * (1 - t) + end_.2 * t)%float.

(** The first loop: one image per index, [t = index / (n_images - 1)]. *)
Definition initial_images : result (list point) :=
  mapM (fun index => t <- int_truediv index (n_images - 1) ;;
                     Ok (interpolate t))
       (range n_images).

Definition initial_forces : list point :=
  map (fun _ => (0, 0)%float) (range n_images).

(** The body of the force loop for the internal image [idx]. *)
Definition image_force (images : list point) (idx : Z) : result point :=
  prev_image <- getitem images (idx - 1) ;;
  next_image <- getitem images (idx + 1) ;;
  let tangent := (next_image.1 - prev_image.1, next_image.2 - prev_image.2)%float in
  let tangent_norm := hypot rt tangent.1 tangent.2 in
  tangent <- (if (tangent_norm =? 0)%float then Ok (0, 0)%float
              else t0 <- truediv tangent.1 tangent_norm ;;
                   t1 <- truediv tangent.2 tangent_norm ;;
                   Ok (t0, t1)) ;;
  image <- getitem images idx ;;
  grad <- gradient image ;;
  let grad_parallel_scalar := (grad.1 * tangent.1 + grad.2 * tangent.2)%float in
  let grad_parallel :=
    (grad_parallel_scalar * tangent.1, grad_parallel_scalar * tangent.2)%float in
  let grad_perp := (grad.1 - grad_parallel.1, grad.2 - grad_parallel.2)%float in
  let dist_forward :=
    hypot rt (next_image.1 - image.1)%float (next_image.2 - image.2)%float in
  let dist_backward :=
    hypot rt (image.1 - prev_image.1)%float (image.2 - prev_image.2)%float in
  let spring_force_mag := (k_spring * (dist_forward - dist_backward))%float in
  let spring_force :=
    (spring_force_mag * tangent.1, spring_force_mag * tangent.2)%float in
  Ok (- grad_perp.1 + spring_force.1, - grad_perp.2 + spring_force.2)%float.

(** [max_force = 0.0] followed by the loop over the internal images: the
    images are only read, [forces[idx]] and [max_force] are written. *)
Definition force_step (images : list point) (s : list point * float) (idx : Z)
  : result (list point * float) :=
  total_force <- image_force images idx ;;
  forces <- setitem s.1 idx total_force ;;
  Ok (forces, Py.max s.2 (hypot rt total_force.1 total_force.2)).

Definition force_pass (images forces : list point)
  : result (list point * float) :=
  foldM (force_step images) (forces, 0%float) (range2 1 (n_images - 1)).

(** The second inner loop: [images[idx][k] += step_size * forces[idx][k]]. *)
Definition update_step (forces : list point) (images : list point) (idx : Z)
  : result (list point) :=
  image <- getitem images idx ;;
  force <- getitem forces idx ;;
  setitem images idx
    (image.1 + step_size * force.1, image.2 + step_size * force.2)%float.

Definition update_pass (images forces : list point) : result (list point) :=
  foldM (update_step forces) images (range2 1 (n_images - 1)).

(** The local variables the main loop leaves behind.  [iteration] and
    [max_force] are unbound until the body has run once. *)
Record locals := {
  l_images : list point;
  l_forces : list point;
  l_last : option (Z * float)
}.

(** [for iteration in range(max_iter): ...], with its [break]. *)
Fixpoint neb_loop (its : list Z) (images forces : list point)
    (last : option (Z * float)) : result locals :=
  match its with
  | [] => Ok {| l_images := images; l_forces := forces; l_last := last |}
  | iteration :: its' =>
      fm <- force_pass images forces ;;
      if (fm.2 <? force_tolerance)%float
      then Ok {| l_images := images; l_forces := fm.1;
                 l_last := Some (iteration, fm.2) |}
      else images' <- update_pass images fm.1 ;;
           neb_loop its' images' fm.1 (Some (iteration, fm.2))
  end.

Definition run_neb : result NEBResult :=
  images <- initial_images ;;
  l <- neb_loop (range max_iter) images initial_forces None ;;
  energies <- mapM potential (l_images l) ;;
  gradients <- mapM gradient (l_images l) ;;
  match l_last l with
  | None => Raise UnboundLocalError
  | Some (iteration, max_force) =>
      Ok {| path := l_images l;
            energies := energies;
            gradients := gradients;
            iterations := iteration + 1;
            max_force := max_force |}
  end.

(** [moved j im im']: [j] passes of the main loop, none of which met the
    tolerance, take the images [im] to [im']. *)
Inductive moved : nat -> list point -> list point -> Prop :=
  | moved_O im : moved O im im
  | moved_S j im forces fm im1 im2 :
      force_pass im forces = Ok fm ->
      (fm.2 <? force_tolerance)%float = false ->
      update_pass im fm.1 = Ok im1 ->
      moved j im1 im2 ->
      moved (S j) im im2.

(** [p == q] on 2-vectors, componentwise. *)
Definition point_eqb (p q : point) : bool :=
  (p.1 =? q.1)%float && (p.2 =? q.2)%float.

(** The first image is [start] and the last is [end]. *)
Definition pinned (images : list point) : Prop :=
  exists p q, images !! 0%nat = Some p /\
              images !! Z.to_nat (n_images - 1) = Some q /\
              point_eqb p start = true /\ point_eqb q end_ = true.

End RunNeb.

End Neb.

(** ** [app/pes.py] *)

Module Pes.

(** The values a decoded JSON payload is made of.  A [dict] is a list of
    bindings with distinct keys. *)
#[local] Unset Elimination Schemes.
Inductive value :=
  | VNone
  | VBool (b : bool)
  | VInt (z : Z)
  | VFloat (f : float)
  | VStr (s : string)
  | VList (l : list value)
  | VDict (d : list (string * value)).
#[local] Set Elimination Schemes.

Definition dict : Type := list (string * value).

Fixpoint lookup_key (d : dict) (key : string) : option value :=
  match d with
  | [] => None
  | (k, v) :: d' => if String.eqb k key then Some v else lookup_key d' key
  end.

(** [d.get(key, default)] on a dict. *)
Definition get (d : dict) (key : string) (default : value) : value :=
  match lookup_key d key with
  | Some v => v
  | None => default
  end.

(** [mapping.get(key, default)] on any value: only a dict has [get]. *)
Definition value_get (mapping : value) (key : string) (default : value)
  : result value :=
  match mapping with
  | VDict d => Ok (get d key default)
  | _ => Raise AttributeError
  end.

(** [d[key]] *)
Definition subscript (d : dict) (key : string) : result value :=
  match lookup_key d key with
  | Some v => Ok v
  | None => Raise KeyError
  end.

(** Truth value of an object, as [not mapping] tests it. *)
Definition truthy (v : value) : bool :=
  match v with
  | VNone => false
  | VBool b => b
  | VInt z => negb (z =? 0)
  | VFloat f => negb (f =? 0)%float
  | VStr s => negb (String.eqb s EmptyString)
  | VList l => match l with [] => false | _ => true end
  | VDict d => match d with [] => false | _ => true end
  end.

(** [int(f)] on a float: truncation towards zero. *)
Definition int_of_float (f : float) : result Z :=
  match Prim2SF f with
  | S754_nan => Raise ValueError
  | S754_infinity _ => Raise OverflowError
  | S754_zero _ => Ok 0
  | S754_finite s m e =>
      let a := if 0 <=? e then Zpos m * 2 ^ e else Zpos m / 2 ^ (- e) in
      Ok (if s then - a else a)
  end.

(** What iterating over a value yields. *)
Definition iterate (v : value) : result (list value) :=
  match v with
  | VList l => Ok l
  | VDict d => Ok (map (fun kv => VStr kv.1) d)
  | VStr s => Ok (map (fun a => VStr (String a EmptyString)) (String.list_ascii_of_string s))
  | _ => Raise TypeError
  end.

Section Conversions.
Context (rt : Runtime).

(** [float(v)] *)
Definition to_float (v : value) : result float :=
  match v with
  | VBool b => Ok (if b then 1 else 0)%float
  | VInt z => float_of_int z
  | VFloat f => Ok f
  | VStr s => float_of_str rt s
  | _ => Raise TypeError
  end.

(** [int(v)] *)
Definition to_int (v : value) : result Z :=
  match v with
  | VBool b => Ok (if b then 1 else 0)
  | VInt z => Ok z
  | VFloat f => int_of_float f
  | VStr s => int_of_str rt s
  | _ => Raise TypeError
  end.
End Conversions.

Module Gaussian.
Record t := { amplitude : float; sigma : float; x0 : float; y0 : float }.

Definition from_mapping (rt : Runtime) (mapping : value) : result t :=
  a <- value_get mapping "amplitude" (VFloat 0) ;;
  amplitude <- to_float rt a ;;
  s <- value_get mapping "sigma" (VFloat 1) ;;
  sigma <- to_float rt s ;;
  x <- value_get mapping "x0" (VFloat 0) ;;
  x0 <- to_float rt x ;;
  y <- value_get mapping "y0" (VFloat 0) ;;
  y0 <- to_float rt y ;;
  Ok {| amplitude := amplitude; sigma := Py.max sigma 1e-6;
        x0 := x0; y0 := y0 |}.
End Gaussian.

Module CircularState.
Record t := { x0 : float; y0 : float; radius : float }.

Definition from_mapping (rt : Runtime) (mapping : value) : result t :=
  r <- value_get mapping "radius" (VFloat 1) ;;
  radius <- to_float rt r ;;
  if (radius <=? 0)%float then Raise ValueError
  else
    x <- value_get mapping "x0" (VFloat 0) ;;
    x0 <- to_float rt x ;;
    y <- value_get mapping "y0" (VFloat 0) ;;
    y0 <- to_float rt y ;;
    Ok {| x0 := x0; y0 := y0; radius := radius |}.
End CircularState.

Module GridSpec.
Record t := { minimum : float; maximum : float; resolution : Z }.

Definition from_mapping (rt : Runtime) (mapping : value) : result t :=
  if negb (truthy mapping)
  then Ok {| minimum := -4; maximum := 4; resolution := 60 |}
  else
    lo <- value_get mapping "minimum" (VFloat (-4)) ;;
    minimum <- to_float rt lo ;;
    hi <- value_get mapping "maximum" (VFloat 4) ;;
    maximum <- to_float rt hi ;;
    if (maximum <=? minimum)%float then Raise ValueError
    else
      r <- value_get mapping "resolution" (VInt 60) ;;
      resolution <- to_int rt r ;;
      Ok {| minimum := minimum; maximum := maximum;
            resolution := Z.max resolution 10 |}.
End GridSpec.

(** A configuration of the documented shape: the sections are mappings,
    [gaussians] is a list of mappings, every field that is present is a
    number, a float or an integer of any size ([resolution] an
    integer). *)
Definition number (v : value) : bool :=
  match v with
  | VFloat _ | VInt _ => true
  | _ => false
  end.

Definition number_field (d : dict) (key : string) : bool :=
  match lookup_key d key with
  | None => true
  | Some v => number v
  end.

Definition shaped_state (v : value) : bool :=
  match v with
  | VDict d => number_field d "radius" && number_field d "x0"
               && number_field d "y0"
  | _ => false
  end.

Definition shaped_gaussian (v : value) : bool :=
  match v with
  | VDict d => number_field d "amplitude" && number_field d "sigma"
               && number_field d "x0" && number_field d "y0"
  | _ => false
  end.

Definition shaped_grid (v : value) : bool :=
  match v with
  | VNone => true
  | VDict d => number_field d "minimum" && number_field d "maximum"
               && match lookup_key d "resolution" with
                  | None | Some (VInt _) => true
                  | _ => false
                  end
  | _ => false
  end.

Definition shaped_payload (payload : dict) : bool :=
  shaped_grid (get payload "grid" VNone)
  && match get payload "gaussians" (VList []) with
     | VList l => forallb shaped_gaussian l
     | _ => false
     end
  && shaped_state (get payload "stateA" (VDict []))
  && shaped_state (get payload "stateB" (VDict [])).

(** The same shape, with every integer field within the range of the
    floats: [float(z)] does not overflow there. *)
Definition numeric (v : value) : bool :=
  match v with
  | VFloat _ => true
  | VInt z => is_ok (float_of_int z)
  | _ => false
  end.

Definition numeric_field (d : dict) (key : string) : bool :=
  match lookup_key d key with
  | None => true
  | Some v => numeric v
  end.

Definition typed_state (v : value) : bool :=
  match v with
  | VDict d => numeric_field d "radius" && numeric_field d "x0"
               && numeric_field d "y0"
  | _ => false
  end.

Definition typed_gaussian (v : value) : bool :=
  match v with
  | VDict d => numeric_field d "amplitude" && numeric_field d "sigma"
               && numeric_field d "x0" && numeric_field d "y0"
  | _ => false
  end.

Definition typed_grid (v : value) : bool :=
  match v with
  | VNone => true
  | VDict d => numeric_field d "minimum" && numeric_field d "maximum"
               && match lookup_key d "resolution" with
                  | None | Some (VInt _) => true
                  | _ => false
                  end
  | _ => false
  end.

Definition typed_payload (payload : dict) : bool :=
  typed_grid (get payload "grid" VNone)
  && match get payload "gaussians" (VList []) with
     | VList l => forallb typed_gaussian l
     | _ => false
     end
  && typed_state (get payload "stateA" (VDict []))
  && typed_state (get payload "stateB" (VDict [])).

Definition default_configuration : dict :=
  [ ("grid", VDict [("minimum", VFloat (-4)); ("maximum", VFloat 4);
                    ("resolution", VInt 60)]);
    ("gaussians",
     VList [ VDict [("amplitude", VFloat 4); ("sigma", VFloat 1.2);
                    ("x0", VFloat (-1.5)); ("y0", VFloat 0)];
             VDict [("amplitude", VFloat (-6.5)); ("sigma", VFloat 0.8);
                    ("x0", VFloat 0); ("y0", VFloat 0)];
             VDict [("amplitude", VFloat 5); ("sigma", VFloat 1);
                    ("x0", VFloat 1.8); ("y0", VFloat 0.6)] ]);
    ("stateA", VDict [("x0", VFloat (-2.5)); ("y0", VFloat 0);
                      ("radius", VFloat 0.6)]);
    ("stateB", VDict [("x0", VFloat 2.4); ("y0", VFloat 0.4);
                      ("radius", VFloat 0.6)]) ]%float.

Section Pes.
Context (rt : Runtime).

Definition _to_gaussians (items : value) : result (list Gaussian.t) :=
  l <- iterate items ;; mapM (Gaussian.from_mapping rt) l.

Definition parse_configuration (payload : dict)
  : result (GridSpec.t * list Gaussian.t * CircularState.t * CircularState.t) :=
  grid <- GridSpec.from_mapping rt (get payload "grid" VNone) ;;
  gaussians <- _to_gaussians (get payload "gaussians" (VList [])) ;;
  gaussians <- (match gaussians with
                | [] => d <- subscript default_configuration "gaussians" ;;
                        _to_gaussians d
                | _ => Ok gaussians
                end) ;;
  state_a <- CircularState.from_mapping rt (get payload "stateA" (VDict [])) ;;
  state_b <- CircularState.from_mapping rt (get payload "stateB" (VDict [])) ;;
  Ok (grid, gaussians, state_a, state_b).

(** What the two validity checks of the parser look at. *)
Definition radius_not_positive (state : value) : bool :=
  match (r <- value_get state "radius" (VFloat 1) ;; to_float rt r) with
  | Ok radius => (radius <=? 0)%float
  | Raise _ => false
  end.

Definition grid_not_increasing (mapping : value) : bool :=
  truthy mapping &&
  match (lo <- value_get mapping "minimum" (VFloat (-4)) ;;
         minimum <- to_float rt lo ;;
         hi <- value_get mapping "maximum" (VFloat 4) ;;
         maximum <- to_float rt hi ;;
         Ok (maximum <=? minimum)%float) with
  | Ok b => b
  | Raise _ => false
  end.

(** The configuration has a state radius [<= 0] or a grid maximum [<=] the
    minimum. *)
Definition rejected (payload : dict) : bool :=
  grid_not_increasing (get payload "grid" VNone)
  || radius_not_positive (get payload "stateA" (VDict []))
  || radius_not_positive (get payload "stateB" (VDict [])).

(** [step * i] and [x / (num - 1)] with an integer operand: the integer
    is converted first. *)
Definition linspace (start stop : float) (num : Z) : result (list float) :=
  if num =? 1 then Ok [start]
  else
    d <- float_of_int (num - 1) ;;
    step <- truediv (stop - start)%float d ;;
    mapM (fun i => fi <- float_of_int i ;; Ok (start + step * fi)%float)
         (range num).

Definition grid : Type := list (list float).

Definition create_grid (spec : GridSpec.t)
  : result (grid * grid * list float * list float) :=
  let res := GridSpec.resolution spec in
  x_axis <- linspace (GridSpec.minimum spec) (GridSpec.maximum spec) res ;;
  y_axis <- linspace (GridSpec.minimum spec) (GridSpec.maximum spec) res ;;
  grid_x <- mapM (fun _ => mapM (fun col => getitem x_axis col) (range res))
                 (range res) ;;
  grid_y <- mapM (fun row => mapM (fun _ => getitem y_axis row) (range res))
                 (range res) ;;
  Ok (grid_x, grid_y, x_axis, y_axis).

(** [rows] and [cols] as every grid function computes them. *)
Definition rows_of (grid_x : grid) : Z := Z.of_nat (length grid_x).
Definition cols_of (grid_x : grid) : Z :=
  match grid_x with
  | [] => 0
  | row0 :: _ => Z.of_nat (length row0)
  end.

Definition zeros (rows cols : Z) : grid :=
  map (fun _ => map (fun _ => 0%float) (range cols)) (range rows).

(** [m[row][col]] and [m[row][col] = v] *)
Definition getitem2 (m : grid) (row col : Z) : result float :=
  r <- getitem m row ;; getitem r col.
Definition setitem2 (m : grid) (row col : Z) (v : float) : result grid :=
  r <- getitem m row ;; r' <- setitem r col v ;; setitem m row r'.

(** [for row in range(rows): for col in range(cols): s = body(s, row, col)] *)
Definition grid_loop {S} (rows cols : Z) (body : S -> Z -> Z -> result S)
    (s : S) : result S :=
  foldM (fun s row => foldM (fun s col => body s row col) s (range cols))
        s (range rows).

(** The cells [grid_loop] visits, in its order. *)
Definition cells (rows cols : Z) : list (Z * Z) :=
  cprod (range rows) (range cols).

(** The value at a cell, if the cell exists. *)
Definition cell (m : grid) (rc : Z * Z) : option float :=
  match getitem2 m rc.1 rc.2 with
  | Ok v => Some v
  | Raise _ => None
  end.

(** [amplitude * math.exp(-0.5 * r2 / sigma2)] *)
Definition gaussian_term (g : Gaussian.t) (sigma2 r2 : float) : result float :=
  q <- truediv (-0.5 * r2)%float sigma2 ;;
  e <- exp rt q ;;
  Ok (Gaussian.amplitude g * e)%float.

(** The body of the outer loop of [evaluate_potential]: the pass of one
    Gaussian over the grid. *)
Definition potential_pass (grid_x grid_y potential : grid)
    (gaussian : Gaussian.t) : result grid :=
  let sigma2 := (Gaussian.sigma gaussian * Gaussian.sigma gaussian)%float in
  grid_loop (rows_of grid_x) (cols_of grid_x) (fun potential row col =>
    x <- getitem2 grid_x row col ;;
    let dx := (x - Gaussian.x0 gaussian)%float in
    y <- getitem2 grid_y row col ;;
    let dy := (y - Gaussian.y0 gaussian)%float in
    let r2 := (dx * dx + dy * dy)%float in
    old <- getitem2 potential row col ;;
    term <- gaussian_term gaussian sigma2 r2 ;;
    setitem2 potential row col (old + term)%float) potential.

Definition evaluate_potential (grid_x grid_y : grid)
    (gaussians : list Gaussian.t) : result grid :=
  let rows := rows_of grid_x in
  let cols := cols_of grid_x in
  foldM (potential_pass grid_x grid_y) (zeros rows cols) gaussians.

(** The body of the outer loop of [gradient_potential]. *)
Definition gradient_pass (grid_x grid_y : grid) (g : grid * grid)
    (gaussian : Gaussian.t) : result (grid * grid) :=
  let sigma2 := (Gaussian.sigma gaussian * Gaussian.sigma gaussian)%float in
  grid_loop (rows_of grid_x) (cols_of grid_x) (fun (g : grid * grid) row col =>
    x <- getitem2 grid_x row col ;;
    let dx := (x - Gaussian.x0 gaussian)%float in
    y <- getitem2 grid_y row col ;;
    let dy := (y - Gaussian.y0 gaussian)%float in
    let r2 := (dx * dx + dy * dy)%float in
    term <- gaussian_term gaussian sigma2 r2 ;;
    coeff <- truediv term sigma2 ;;
    oldx <- getitem2 g.1 row col ;;
    gx <- setitem2 g.1 row col (oldx + - dx * coeff)%float ;;
    oldy <- getitem2 g.2 row col ;;
    gy <- setitem2 g.2 row col (oldy + - dy * coeff)%float ;;
    Ok (gx, gy)) g.

Definition gradient_potential (grid_x grid_y : grid)
    (gaussians : list Gaussian.t) : result (grid * grid) :=
  let rows := rows_of grid_x in
  let cols := cols_of grid_x in
  foldM (gradient_pass grid_x grid_y)
        (zeros rows cols, zeros rows cols) gaussians.

(** The loop body of [evaluate_potential_at_point]. *)
Definition potential_step (x y value : float) (gaussian : Gaussian.t)
  : result float :=
  let dx := (x - Gaussian.x0 gaussian)%float in
  let dy := (y - Gaussian.y0 gaussian)%float in
  let sigma2 := (Gaussian.sigma gaussian * Gaussian.sigma gaussian)%float in
  let r2 := (dx * dx + dy * dy)%float in
  term <- gaussian_term gaussian sigma2 r2 ;;
  Ok (value + term)%float.

Definition evaluate_potential_at_point (point : point)
    (gaussians : list Gaussian.t) : result float :=
  let '(x, y) := point in
  foldM (potential_step x y) 0%float gaussians.

(** The loop body of [evaluate_gradient_at_point]. *)
Definition gradient_step (x y : float) (g : float * float)
    (gaussian : Gaussian.t) : result (float * float) :=
  let dx := (x - Gaussian.x0 gaussian)%float in
  let dy := (y - Gaussian.y0 gaussian)%float in
  let sigma2 := (Gaussian.sigma gaussian * Gaussian.sigma gaussian)%float in
  let r2 := (dx * dx + dy * dy)%float in
  term <- gaussian_term gaussian sigma2 r2 ;;
  coeff <- truediv term sigma2 ;;
  Ok (g.1 + - dx * coeff, g.2 + - dy * coeff)%float.

Definition evaluate_gradient_at_point (point : point)
    (gaussians : list Gaussian.t) : result (float * float) :=
  let '(x, y) := point in
  foldM (gradient_step x y) (0, 0)%float gaussians.

(** The masks of [state_masks]: lists of lists of booleans. *)
Definition mask : Type := list (list bool).

Definition falses (rows cols : Z) : mask :=
  map (fun _ => map (fun _ => false) (range cols)) (range rows).

(** [m[row][col] = v] on a mask *)
Definition setmask (m : mask) (row col : Z) (v : bool) : result mask :=
  r <- getitem m row ;; r' <- setitem r col v ;; setitem m row r'.

Definition getmask (m : mask) (row col : Z) : result bool :=
  r <- getitem m row ;; getitem r col.

(** [(x - state.x0) ** 2 + (y - state.y0) ** 2 <= state.radius**2] *)
Definition within (state : CircularState.t) (x y : float) : result bool :=
  a <- pow rt (x - CircularState.x0 state)%float 2 ;;
  b <- pow rt (y - CircularState.y0 state)%float 2 ;;
  r <- pow rt (CircularState.radius state) 2 ;;
  Ok (a + b <=? r)%float.

Definition state_masks (grid_x grid_y : grid)
    (state_a state_b : CircularState.t) : result (mask * mask) :=
  let rows := rows_of grid_x in
  let cols := cols_of grid_x in
  grid_loop rows cols (fun (m : mask * mask) row col =>
    x <- getitem2 grid_x row col ;;
    y <- getitem2 grid_y row col ;;
    in_a <- within state_a x y ;;
    mask_a <- setmask m.1 row col in_a ;;
    in_b <- within state_b x y ;;
    mask_b <- setmask m.2 row col in_b ;;
    Ok (mask_a, mask_b)) (falses rows cols, falses rows cols).

Definition transition_state_boundary (grid_x grid_y potential : grid)
    (transition_energy tolerance : float) : result (list point) :=
  grid_loop (rows_of grid_x) (cols_of grid_x) (fun points row col =>
    v <- getitem2 potential row col ;;
    if (abs (v - transition_energy) <=? tolerance)%float
    then x <- getitem2 grid_x row col ;;
         y <- getitem2 grid_y row col ;;
         Ok (points ++ [(x, y)])
    else Ok points) [].

Definition grid_min_max (values : grid) : float * float :=
  let '(min_val, max_val) :=
    fold_left (fun mm row =>
      fold_left (fun (mm : float * float) value =>
        let min_val := if (value <? mm.1)%float then value else mm.1 in
        let max_val := if (mm.2 <? value)%float then value else mm.2 in
        (min_val, max_val)) row mm) values (infinity, neg_infinity) in
  if (min_val =? infinity)%float then (0, 0)%float else (min_val, max_val).

End Pes.

End Pes.

(** ** [app/sampling.py] *)

Module Sampling.

Record Sample := { x : float; y : float; potential : float; bias : float }.

Record UmbrellaWindow := {
  center_index : Z;
  reaction_coordinate : float;
  free_energy : float;
  samples : list Sample
}.

Section Sampling.
Context (rt : Runtime).

(** The [random.Random] objects of the process, by address.  A call
    starts in whatever heap earlier calls have left. *)
Local Notation heap := (gmap nat (rng_state rt)).

#[export] Instance rng_state_inhabited : Inhabited (rng_state rt) :=
  populate (rng_seed rt 0).

(** [random.Random(seed)]: a new object. *)
Definition new_random (seed : Z) (h : heap) : nat * heap :=
  let l := fresh (dom h) in (l, <[l := rng_seed rt seed]> h).

(** [rng.gauss(mu, sigma)]: reads and advances the state of [rng]. *)
Definition gauss (rng : nat) (mu sigma : float) (h : heap) : float * heap :=
  let r := rng_gauss rt (h !!! rng) mu sigma in
  (r.1, <[rng := r.2]> h).

Definition _estimate_tangent (path : list point) (idx : Z) : result point :=
  tangent <-
    (if idx =? 0 then
       p1 <- getitem path 1 ;; p0 <- getitem path 0 ;;
       Ok (p1.1 - p0.1, p1.2 - p0.2)%float
     else if idx =? Z.of_nat (length path) - 1 then
       pl <- getitem path (-1) ;; pk <- getitem path (-2) ;;
       Ok (pl.1 - pk.1, pl.2 - pk.2)%float
     else
       pn <- getitem path (idx + 1) ;; pp <- getitem path (idx - 1) ;;
       Ok (pn.1 - pp.1, pn.2 - pp.2)%float) ;;
  let norm := hypot rt tangent.1 tangent.2 in
  if (norm =? 0)%float then Ok (1, 0)%float
  else t0 <- truediv tangent.1 norm ;; t1 <- truediv tangent.2 norm ;;
       Ok (t0, t1).

Variable potential_fn : point -> result float.
Variables (beta spring_constant window_half_width : float).
Variable samples_per_window : Z.

(** What the sample loop accumulates. *)
Record draws := {
  d_samples : list Sample;
  d_weights : list float;
  d_energies : list float
}.

(** One pass of the sample loop for the window centred at [point]. *)
Definition draw (rng : nat) (point tangent perp : point)
    (s : draws * heap) : result (draws * heap) :=
  half <- truediv window_half_width 2 ;;
  let '(displacement_along, h1) := gauss rng 0 half s.2 in
  let '(displacement_perp, h2) := gauss rng 0 window_half_width h1 in
  let sample_point :=
    (point.1 + displacement_along * tangent.1 + displacement_perp * perp.1,
     point.2 + displacement_along * tangent.2 + displacement_perp * perp.2)%float in
  potential_energy <- potential_fn sample_point ;;
  let dx := (sample_point.1 - point.1)%float in
  let dy := (sample_point.2 - point.2)%float in
  let bias_energy := (0.5 * spring_constant * (dx * dx + dy * dy))%float in
  weight <- exp rt (- beta * (potential_energy + bias_energy))%float ;;
  Ok ({| d_samples := d_samples s.1 ++
           [{| x := sample_point.1; y := sample_point.2;
               potential := potential_energy; bias := bias_energy |}];
         d_weights := d_weights s.1 ++ [weight];
         d_energies := d_energies s.1 ++ [potential_energy] |}, h2).

(** The Boltzmann weight of a reported sample:
    [math.exp(-beta * (potential + bias))]. *)
Definition weight_of (s : Sample) : result float :=
  exp rt (- beta * (potential s + bias s))%float.

(** [sum(weights)]: the integer [0] over an empty list. *)
Definition partition_of (weights : list float) : float :=
  match weights with
  | [] => 0%float
  | _ => fsum rt weights
  end.

(** The free energy of a window from its weights and energies. *)
Definition window_free_energy (weights energies : list float) : result float :=
  let partition := partition_of weights in
  if (partition =? 0)%float then Ok nan
  else
    terms <- mapM (fun we : float * float =>
                     e <- exp rt (- beta * we.2)%float ;; Ok (we.1 * e)%float)
                  (zip weights energies) ;;
    expectation <- truediv (fsum rt terms) partition ;;
    l <- log rt (Py.max expectation 1e-12) ;;
    truediv (- l)%float beta.

(** [idx / (total_images - 1) if total_images > 1 else 0.0] *)
Definition reaction_coordinate_of (idx total_images : Z) : result float :=
  if 1 <? total_images then int_truediv idx (total_images - 1) else Ok 0%float.

(** The body of the loop over [enumerate(path)]. *)
Definition window_step (rng : nat) (path : list point)
    (s : list UmbrellaWindow * heap) (ip : Z * point)
  : result (list UmbrellaWindow * heap) :=
  let '(idx, point) := ip in
  tangent <- _estimate_tangent path idx ;;
  let perp := (- tangent.2, tangent.1)%float in
  let perp_norm := hypot rt perp.1 perp.2 in
  perp <- (if (perp_norm =? 0)%float then Ok (0, 1)%float
           else p0 <- truediv perp.1 perp_norm ;;
                p1 <- truediv perp.2 perp_norm ;; Ok (p0, p1)) ;;
  d <- foldM (fun s _ => draw rng point tangent perp s)
             ({| d_samples := []; d_weights := []; d_energies := [] |}, s.2)
             (range samples_per_window) ;;
  free_energy <- window_free_energy (d_weights d.1) (d_energies d.1) ;;
  reaction_coordinate <- reaction_coordinate_of idx (Z.of_nat (length path)) ;;
  Ok (s.1 ++ [{| center_index := idx;
                 reaction_coordinate := reaction_coordinate;
                 free_energy := free_energy;
                 samples := d_samples d.1 |}], d.2).

Definition enumerate {A} (l : list A) : list (Z * A) :=
  imap (fun i a => (Z.of_nat i, a)) l.

Definition umbrella_sampling (path : list point) (h : heap)
  : result (list UmbrellaWindow * heap) :=
  let '(rng, h0) := new_random 42 h in
  foldM (window_step rng path) ([], h0) (enumerate path).

(** What a call hands back to its caller: the value or the exception,
    without the heap. *)
Definition outcome {A} (r : result (A * heap)) : result A :=
  match r with
  | Ok (a, _) => Ok a
  | Raise e => Raise e
  end.

End Sampling.

End Sampling.

(** ** [app/__init__.py] *)

Module App.
Import Pes.

Record TransitionState := {
  ts_index : Z; ts_x : float; ts_y : float; ts_energy : float
}.

(** The response dictionary, key by key. *)
Record Response := {
  grid_x_axis : list float;
  grid_y_axis : list float;
  grid_z : grid;
  grid_zMin : float;
  grid_zMax : float;
  state_A : CircularState.t;
  state_B : CircularState.t;
  path : list (float * float * float);
  transitionState : TransitionState;
  boundary : list point;
  umbrella : list Sampling.UmbrellaWindow;
  nebIterations : Z;
  nebMaxForce : float
}.

Section App.
Context (rt : Runtime).

(** The membership test of [_state_entry_point]:
    [(x - x0) ** 2 + (y - y0) ** 2 <= radius ** 2]. *)
Definition in_state (state : CircularState.t) (x_val y_val : float)
  : result bool :=
  a <- pow rt (x_val - CircularState.x0 state)%float 2 ;;
  b <- pow rt (y_val - CircularState.y0 state)%float 2 ;;
  r <- pow rt (CircularState.radius state) 2 ;;
  Ok (a + b <=? r)%float.

(** [best_point] and [best_energy] *)
Definition best : Type := point * float.

Definition entry_step (grid_x grid_y potential : grid)
    (state : CircularState.t) (b : best) (row col : Z) : result best :=
  x_val <- getitem2 grid_x row col ;;
  y_val <- getitem2 grid_y row col ;;
  inside <- in_state state x_val y_val ;;
  if inside : bool then
    energy <- getitem2 potential row col ;;
    if (energy <? b.2)%float then Ok ((x_val, y_val), energy) else Ok b
  else Ok b.

Definition _state_entry_point (grid_x grid_y potential : grid)
    (state : CircularState.t) : result point :=
  b <- grid_loop (rows_of grid_x) (cols_of grid_x)
         (entry_step grid_x grid_y potential state)
         ((CircularState.x0 state, CircularState.y0 state), infinity) ;;
  Ok b.1.

(** The cell [rc] lies in the state; [q] are its coordinates and [e] is
    its energy. *)
Definition inside_at (grid_x grid_y potential : grid)
    (state : CircularState.t) (rc : Z * Z) (q : point) (e : float) : Prop :=
  getitem2 grid_x rc.1 rc.2 = Ok q.1 /\
  getitem2 grid_y rc.1 rc.2 = Ok q.2 /\
  in_state state q.1 q.2 = Ok true /\
  getitem2 potential rc.1 rc.2 = Ok e.

(** [max(range(len(energies)), key=lambda i: energies[i])]: the first
    index whose energy no later one exceeds; [ValueError] on an empty
    range. *)
Definition argmax (energies : list float) : result Z :=
  match energies with
  | [] => Raise ValueError
  | e0 :: rest =>
      Ok (fold_left (fun (b : Z * float) (ie : Z * float) =>
                       if (b.2 <? ie.2)%float then ie else b)
                    (imap (fun i e => (Z.of_nat (S i), e)) rest) (0, e0)).1
  end.

Definition compute_visualisation (payload : dict) (h : gmap nat (rng_state rt))
  : result (Response * gmap nat (rng_state rt)) :=
  cfg <- parse_configuration rt payload ;;
  let '(grid_spec, gaussians, state_a, state_b) := cfg in
  g <- create_grid grid_spec ;;
  let '(grid_x, grid_y, x_axis, y_axis) := g in
  potential_values <- evaluate_potential rt grid_x grid_y gaussians ;;
  let potential := fun point => evaluate_potential_at_point rt point gaussians in
  let gradient := fun point => evaluate_gradient_at_point rt point gaussians in
  start <- _state_entry_point grid_x grid_y potential_values state_a ;;
  end_ <- _state_entry_point grid_x grid_y potential_values state_b ;;
  neb_result <- Neb.run_neb rt potential gradient start end_
                  18 2.5 0.03 600 5e-4 ;;
  transition_idx <- argmax (Neb.energies neb_result) ;;
  transition_point <- getitem (Neb.path neb_result) transition_idx ;;
  transition_energy <- getitem (Neb.energies neb_result) transition_idx ;;
  boundary_points <- transition_state_boundary grid_x grid_y potential_values
                       transition_energy 0.15 ;;
  u <- Sampling.umbrella_sampling rt potential 1 5 0.5 120
         (Neb.path neb_result) h ;;
  let '(z_min, z_max) := grid_min_max potential_values in
  Ok ({| grid_x_axis := x_axis;
         grid_y_axis := y_axis;
         grid_z := potential_values;
         grid_zMin := z_min;
         grid_zMax := z_max;
         state_A := state_a;
         state_B := state_b;
         path := map (fun pe : point * float => (pe.1.1, pe.1.2, pe.2))
                     (zip (Neb.path neb_result) (Neb.energies neb_result));
         transitionState :=
           {| ts_index := transition_idx;
              ts_x := transition_point.1;
              ts_y := transition_point.2;
              ts_energy := transition_energy |};
         boundary := boundary_points;
         umbrella := u.1;
         nebIterations := Neb.iterations neb_result;
         nebMaxForce := Neb.max_force neb_result |}, u.2).

End App.

End App.

(** ** A run time to evaluate the definitions with

    The C-library functions of [table_rt] are defined only where the C
    standard (Annex F) or exactness fixes their value; anywhere else they
    raise [NotImplementedError], which no Python run raises here.  An
    evaluation that returns has therefore read nothing but those values.
    [math.hypot] cannot raise: off the table it is the textbook formula.
    [sum] is the left-to-right sum, which the compensated one equals on
    the lists evaluated below. *)

Module Table.

Definition hypot (x y : float) : float :=
  if is_infinity x || is_infinity y then infinity
  else if (y =? 0)%float then abs x
  else if (x =? 0)%float then abs y
  else sqrt (x * x + y * y)%float.

Definition exp (x : float) : result float :=
  if is_nan x then Ok nan
  else if (x =? 0)%float then Ok 1%float
  else if (x =? neg_infinity)%float then Ok 0%float
  else if (x =? infinity)%float then Ok infinity
  else Raise NotImplementedError.

Definition log (x : float) : result float :=
  if is_nan x then Ok nan
  else if (x <=? 0)%float then Raise ValueError
  else if (x =? 1)%float then Ok 0%float
  else if (x =? infinity)%float then Ok infinity
  else Raise NotImplementedError.

(** A number of at most 26 significant bits and moderate exponent: its
    square is a binary64 number. *)
Definition short (x : float) : bool :=
  match Prim2SF x with
  | S754_zero _ => true
  | S754_finite _ m e => (Zpos m mod 2 ^ 27 =? 0) && (-500 <=? e) && (e <=? 400)
  | _ => false
  end.

Definition pow (x y : float) : result float :=
  if (y =? 2)%float then
    if is_nan x then Ok nan
    else if is_infinity x then Ok infinity
    else if short x then Ok (x * x)%float
    else Raise NotImplementedError
  else Raise NotImplementedError.

Definition fsum (l : list float) : float := fold_left PrimFloat.add l 0%float.

(** A generator that walks through -1, 0, 1 (times [sigma], plus [mu]). *)
Definition gauss (s : Z) (mu sigma : float) : float * Z :=
  let z := match s mod 3 with 0 => (-1)%float | 1 => 0%float | _ => 1%float end in
  ((mu + z * sigma)%float, s + 1).

Definition table_rt : Runtime := {|
  Py.hypot := hypot;
  Py.exp := exp;
  Py.log := log;
  Py.pow := pow;
  Py.fsum := fsum;
  rng_state := Z;
  rng_seed := fun seed => seed;
  rng_gauss := gauss;
  float_of_str := fun _ => Raise NotImplementedError;
  int_of_str := fun _ => Raise NotImplementedError
|}.

End Table.

(** ** Inputs for the examples *)

Module Examples.

(** A valley along the first axis: [y * y / 2], gradient [(0, y)]. *)
Definition valley (p : point) : result float := Ok (0.5 * (p.2 * p.2))%float.
Definition valley_gradient (p : point) : result point := Ok (0, p.2)%float.

(** A harmonic well: [x * x], gradient [(2 x, 0)]. *)
Definition well (p : point) : result float := Ok (p.1 * p.1)%float.
Definition well_gradient (p : point) : result point := Ok (2 * p.1, 0)%float.

(** One Gaussian feature centred at the origin. *)
Definition bump : Pes.Gaussian.t :=
  {| Pes.Gaussian.amplitude := 5; Pes.Gaussian.sigma := 0.5;
     Pes.Gaussian.x0 := 0; Pes.Gaussian.y0 := 0 |}%float.

(** A state of radius 1 around [(0.5, 0)], and one around [(1, 0)]. *)
Definition state_half : Pes.CircularState.t :=
  {| Pes.CircularState.x0 := 0.5; Pes.CircularState.y0 := 0;
     Pes.CircularState.radius := 1 |}%float.
Definition state_one : Pes.CircularState.t :=
  {| Pes.CircularState.x0 := 1; Pes.CircularState.y0 := 0;
     Pes.CircularState.radius := 1 |}%float.

(** A payload whose feature and states are centred at NaN: every
    exponential of the run is [exp(NaN)], the potential is NaN everywhere,
    and the band, pinned at the nominal centres, is met as converged in
    its first pass. *)
Definition nan_payload : Pes.dict :=
  [ ("grid"%string, Pes.VDict [("resolution"%string, Pes.VInt 10)]);
    ("gaussians"%string, Pes.VList [Pes.VDict [("x0"%string, Pes.VFloat nan)]]);
    ("stateA"%string,
     Pes.VDict [("x0"%string, Pes.VFloat nan); ("y0"%string, Pes.VFloat nan)]);
    ("stateB"%string,
     Pes.VDict [("x0"%string, Pes.VFloat nan); ("y0"%string, Pes.VFloat nan)]) ].

(** A payload whose band runs from [(2^600, 2^600)] to [(-2^600, 2^600)],
    with two features of amplitude [2^1023] centred at its end.  At the
    end the potential is [2^1023 + 2^1023 = +inf]; at every other image
    the squared distance to the centre overflows, the exponential is
    [exp(-inf) = 0] and the potential 0.  The grid, from [-inf] to [+inf],
    holds only NaN, so that no cell lies inside a state.  The second
    coordinates of the band never differ, so every [hypot] has a zero
    argument, and every sample coincides with the image it is drawn
    around. *)
Definition peak_payload : Pes.dict :=
  [ ("grid"%string,
     Pes.VDict [("minimum"%string, Pes.VFloat neg_infinity);
                ("maximum"%string, Pes.VFloat infinity);
                ("resolution"%string, Pes.VInt 10)]);
    ("gaussians"%string,
     Pes.VList [Pes.VDict [("amplitude"%string, Pes.VFloat 0x1p+1023);
                           ("x0"%string, Pes.VFloat (-0x1p+600));
                           ("y0"%string, Pes.VFloat 0x1p+600)];
                Pes.VDict [("amplitude"%string, Pes.VFloat 0x1p+1023);
                           ("x0"%string, Pes.VFloat (-0x1p+600));
                           ("y0"%string, Pes.VFloat 0x1p+600)]]);
    ("stateA"%string,
     Pes.VDict [("x0"%string, Pes.VFloat 0x1p+600);
                ("y0"%string, Pes.VFloat 0x1p+600)]);
    ("stateB"%string,
     Pes.VDict [("x0"%string, Pes.VFloat (-0x1p+600));
                ("y0"%string, Pes.VFloat 0x1p+600)]) ].

(** A payload with a coarse grid and an integer radius. *)
Definition coarse_payload : Pes.dict :=
  [ ("grid"%string, Pes.VDict [("resolution"%string, Pes.VInt 3)]);
    ("stateA"%string, Pes.VDict [("radius"%string, Pes.VInt 2)]) ].

End Examples.

(** * Part II: proofs *)

(** ** The run time: loops, ranges and indexing *)

Module PyFacts.

Lemma bind_ok {A B} (m : result A) (k : A -> result B) (b : B) :
  bind m k = Ok b -> exists a, m = Ok a /\ k a = Ok b.
Proof. destruct m as [a|e]; simpl; [eauto | discriminate]. Qed.

Lemma bind_raise {A B} (m : result A) (k : A -> result B) (e : exn) :
  m = Raise e -> bind m k = Raise e.
Proof. intros ->. reflexivity. Qed.

(** Splits every hypothesis [x <- m ;; k = Ok b]. *)
Ltac inv_bind :=
  repeat match goal with
  | H : bind _ _ = Ok _ |- _ =>
      let a := fresh "a" in let Ha := fresh "Ha" in
      apply bind_ok in H as (a & Ha & H)
  | H : Ok _ = Ok _ |- _ => injection H as H
  | H : Raise _ = Ok _ |- _ => discriminate H
  end.

(** Unfolds an indexing operation at a non-negative index. *)
Ltac nonneg_index i :=
  cbv zeta; destruct (i <? 0) eqn:?E;
  [apply Z.ltb_lt in E; lia | rewrite ?E].

Lemma length_range2 lo hi : length (range2 lo hi) = Z.to_nat (hi - lo).
Proof. unfold range2. by rewrite length_map, length_seq. Qed.

Lemma lookup_range2 lo hi (k : nat) :
  (k < Z.to_nat (hi - lo))%nat -> range2 lo hi !! k = Some (lo + Z.of_nat k).
Proof.
  intros Hk. unfold range2. rewrite list_lookup_fmap, lookup_seq_lt by done.
  reflexivity.
Qed.

Lemma elem_of_range2 lo hi x : x ∈ range2 lo hi <-> lo <= x < hi.
Proof.
  unfold range2. rewrite list_elem_of_fmap. split.
  - intros (k & -> & Hk). apply elem_of_seq in Hk. lia.
  - intros Hx. exists (Z.to_nat (x - lo)). split; [lia|].
    apply elem_of_seq. lia.
Qed.

Lemma range2_empty lo hi : hi <= lo -> range2 lo hi = [].
Proof.
  intros H. unfold range2. replace (Z.to_nat (hi - lo)) with 0%nat by lia.
  reflexivity.
Qed.

Lemma range2_cons lo hi : lo < hi -> range2 lo hi = lo :: range2 (lo + 1) hi.
Proof.
  intros H. unfold range2.
  replace (Z.to_nat (hi - lo)) with (S (Z.to_nat (hi - (lo + 1)))) by lia.
  simpl. f_equal; [lia|].
  rewrite <- seq_shift, map_map. apply map_ext. intros k. lia.
Qed.

Lemma range2_snoc lo hi : lo < hi -> range2 lo hi = range2 lo (hi - 1) ++ [hi - 1].
Proof.
  intros H. unfold range2.
  replace (Z.to_nat (hi - lo)) with (Z.to_nat (hi - 1 - lo) + 1)%nat by lia.
  rewrite seq_app, map_app. simpl. do 2 f_equal. lia.
Qed.

Lemma getitem_ok {A} (l : list A) (i : Z) (a : A) :
  0 <= i -> l !! Z.to_nat i = Some a -> getitem l i = Ok a.
Proof.
  intros Hi Hl. unfold getitem. nonneg_index i. by rewrite Hl.
Qed.

Lemma getitem_inv {A} (l : list A) (i : Z) (a : A) :
  0 <= i -> getitem l i = Ok a -> l !! Z.to_nat i = Some a.
Proof.
  intros Hi. unfold getitem. nonneg_index i.
  destruct (l !! Z.to_nat i); [congruence | discriminate].
Qed.

Lemma getitem_total {A} (l : list A) (i : Z) :
  0 <= i < Z.of_nat (length l) -> exists a, getitem l i = Ok a.
Proof.
  intros Hi. destruct (lookup_lt_is_Some_2 l (Z.to_nat i)) as [a Ha]; [lia|].
  exists a. apply getitem_ok; [lia | done].
Qed.

Lemma setitem_ok {A} (l : list A) (i : Z) (a : A) :
  0 <= i < Z.of_nat (length l) -> setitem l i a = Ok (<[Z.to_nat i := a]> l).
Proof.
  intros Hi. unfold setitem. nonneg_index i.
  rewrite (proj2 (Z.leb_gt (Z.of_nat (length l)) i)) by lia. reflexivity.
Qed.

Lemma setitem_inv {A} (l l' : list A) (i : Z) (a : A) :
  0 <= i -> setitem l i a = Ok l' ->
  i < Z.of_nat (length l) /\ l' = <[Z.to_nat i := a]> l.
Proof.
  intros Hi. unfold setitem. nonneg_index i.
  destruct (Z.leb_spec (Z.of_nat (length l)) i) as [?|?]; simpl; [discriminate|].
  intros [= <-]. done.
Qed.

Lemma mapM_length {X Y} (f : X -> result Y) xs ys :
  mapM f xs = Ok ys -> length ys = length xs.
Proof.
  revert ys. induction xs as [|x xs IH]; simpl; intros ys H.
  - by injection H as <-.
  - inv_bind. subst ys. simpl. f_equal. eauto.
Qed.

Lemma mapM_lookup {X Y} (f : X -> result Y) xs ys (k : nat) x :
  mapM f xs = Ok ys -> xs !! k = Some x ->
  exists y, ys !! k = Some y /\ f x = Ok y.
Proof.
  revert ys k. induction xs as [|x' xs IH]; simpl; intros ys k H Hk; [done|].
  inv_bind. subst ys. destruct k as [|k]; simpl in *.
  - injection Hk as ->. eauto.
  - eauto.
Qed.

Lemma mapM_total {X Y} (f : X -> result Y) xs :
  (forall x, x ∈ xs -> exists y, f x = Ok y) -> exists ys, mapM f xs = Ok ys.
Proof.
  induction xs as [|x xs IH]; simpl; intros H; [eauto|].
  destruct (H x) as [y Hy]; [left|]. rewrite Hy. simpl.
  destruct IH as [ys Hys]; [intros; apply H; by right|].
  rewrite Hys. simpl. eauto.
Qed.

(** A loop invariant, for a loop that is known to finish. *)
Lemma foldM_inv {S X} (P : S -> Prop) (body : S -> X -> result S) xs s s' :
  P s ->
  (forall s x s', x ∈ xs -> P s -> body s x = Ok s' -> P s') ->
  foldM body s xs = Ok s' -> P s'.
Proof.
  revert s. induction xs as [|x xs IH]; simpl; intros s Hs Hstep H.
  - by injection H as <-.
  - inv_bind. eapply IH; [| |exact H].
    + eapply Hstep; [left | exact Hs | exact Ha].
    + intros. eapply Hstep; eauto. by right.
Qed.

(** A loop whose body cannot raise under the invariant finishes. *)
Lemma foldM_total {S X} (P : S -> Prop) (body : S -> X -> result S) xs s :
  P s ->
  (forall s x, x ∈ xs -> P s -> exists s', body s x = Ok s' /\ P s') ->
  exists s', foldM body s xs = Ok s' /\ P s'.
Proof.
  revert s. induction xs as [|x xs IH]; simpl; intros s Hs Hstep; [eauto|].
  destruct (Hstep s x) as (s1 & H1 & Hs1); [left | done |].
  rewrite H1. simpl. apply IH; [done|].
  intros. apply Hstep; [by right | done].
Qed.

Lemma foldM_app {S X} (body : S -> X -> result S) xs ys s :
  foldM body s (xs ++ ys) = (s' <- foldM body s xs ;; foldM body s' ys).
Proof.
  revert s. induction xs as [|x xs IH]; simpl; intros s; [done|].
  destruct (body s x); simpl; [apply IH | done].
Qed.

End PyFacts.
Import PyFacts.

(** ** Binary64 arithmetic

    The kernel specifies the primitive operations through [Prim2SF] and
    the functions of [SpecFloat]; the facts below are derived from that
    bit-level specification. *)

Module FloatFacts.

(** *** Digits and shifts *)

Lemma digits2_pos_size p : digits2_pos p = Pos.size p.
Proof. induction p; simpl; congruence. Qed.

Lemma Zdigits2_log2 m : 0 < m -> Zdigits2 m = Z.log2 m + 1.
Proof.
  destruct m as [|p|p]; [lia| |lia]. intros _. simpl.
  rewrite digits2_pos_size. destruct p; simpl; lia.
Qed.

Lemma Zdigits2_nonneg m : 0 <= Zdigits2 m.
Proof. destruct m; simpl; lia. Qed.

Lemma Zdigits2_le_pow2 m k : 0 <= m -> 0 <= k -> m <= 2 ^ k -> Zdigits2 m <= k + 1.
Proof.
  intros Hm Hk Hle. destruct (Z.eq_dec m 0) as [->|Hne]; [simpl; lia|].
  rewrite Zdigits2_log2 by lia.
  pose proof (Z.log2_le_mono m (2 ^ k) Hle) as H.
  rewrite Z.log2_pow2 in H by lia. lia.
Qed.

Lemma Zdigits2_succ m : 0 <= m -> Zdigits2 (m + 1) <= Zdigits2 m + 1.
Proof.
  intros Hm. destruct (Z.eq_dec m 0) as [->|Hne]; [simpl; lia|].
  rewrite !Zdigits2_log2 by lia.
  pose proof (Z.log2_succ_le m). unfold Z.succ in *. lia.
Qed.

Lemma iter_pos_nat {A} (f : A -> A) p x :
  SpecFloat.iter_pos f p x = Nat.iter (Pos.to_nat p) f x.
Proof.
  revert x. induction p as [p IH|p IH|]; intros x; cbn [SpecFloat.iter_pos].
  - rewrite !IH, <- Nat.iter_succ_r, <- Nat.iter_add. f_equal. lia.
  - rewrite !IH, <- Nat.iter_add. f_equal. lia.
  - reflexivity.
Qed.

Lemma shr_1_digits mrs :
  0 <= shr_m mrs ->
  0 <= shr_m (shr_1 mrs) /\ Zdigits2 (shr_m (shr_1 mrs)) = Z.max 0 (Zdigits2 (shr_m mrs) - 1).
Proof.
  destruct mrs as [m r s]. simpl. intros Hm.
  destruct m as [|[p|p|]|p]; simpl; try lia.
Qed.

Lemma shr_iter_digits n mrs :
  0 <= shr_m mrs ->
  0 <= shr_m (Nat.iter n shr_1 mrs) /\
  Zdigits2 (shr_m (Nat.iter n shr_1 mrs)) = Z.max 0 (Zdigits2 (shr_m mrs) - Z.of_nat n).
Proof.
  intros Hm. induction n as [|n [IH1 IH2]].
  - simpl. pose proof (Zdigits2_nonneg (shr_m mrs)). lia.
  - rewrite Nat.iter_succ. destruct (shr_1_digits _ IH1) as [H1 H2].
    split; [done|]. rewrite H2, IH2. lia.
Qed.

Lemma shr_m_of_loc m l : shr_m (shr_record_of_loc m l) = m.
Proof. destruct l as [|[]]; reflexivity. Qed.

Lemma fexp64 x : fexp prec emax x = Z.max (x - 53) (-1074).
Proof. reflexivity. Qed.

Lemma shr_fexp_spec m e l mrs e1 :
  0 <= m -> shr_fexp prec emax m e l = (mrs, e1) ->
  0 <= shr_m mrs /\
  e1 = Z.max e (fexp prec emax (Zdigits2 m + e)) /\
  Zdigits2 (shr_m mrs) + e1 <=
    Z.max (Zdigits2 m + e) (fexp prec emax (Zdigits2 m + e)).
Proof.
  intros Hm. unfold shr_fexp, shr.
  set (D := Zdigits2 m + e). set (F := fexp prec emax D).
  destruct (F - e) as [|n|n] eqn:Hn.
  - intros [= <- <-]. rewrite shr_m_of_loc. subst D. lia.
  - intros [= <- <-]. rewrite iter_pos_nat.
    destruct (shr_iter_digits (Pos.to_nat n) (shr_record_of_loc m l)) as [H1 H2].
    { by rewrite shr_m_of_loc. }
    rewrite H2, shr_m_of_loc. split; [done|]. subst D. lia.
  - intros [= <- <-]. rewrite shr_m_of_loc. subst D. lia.
Qed.

Lemma round_nearest_even_cases m l :
  round_nearest_even m l = m \/ round_nearest_even m l = m + 1.
Proof.
  destruct l as [|[]]; simpl; auto. destruct (Z.even m); auto.
Qed.

Lemma binary_round_aux_no_overflow sx m e l s' :
  0 <= m -> e <= 971 -> Zdigits2 m + e <= 1000 ->
  binary_round_aux prec emax sx m e l <> S754_infinity s'.
Proof.
  intros Hm He HD. unfold binary_round_aux.
  destruct (shr_fexp prec emax m e l) as [mrs1 e1] eqn:H1.
  apply shr_fexp_spec in H1 as (Hm1 & He1 & HD1); [|done].
  set (m2 := round_nearest_even (shr_m mrs1) (loc_of_shr_record mrs1)).
  assert (0 <= m2 /\ Zdigits2 m2 <= Zdigits2 (shr_m mrs1) + 1) as [Hm2 Hd2].
  { subst m2. destruct (round_nearest_even_cases (shr_m mrs1) (loc_of_shr_record mrs1)) as [->| ->].
    - lia.
    - split; [lia|]. by apply Zdigits2_succ. }
  destruct (shr_fexp prec emax m2 e1 loc_Exact) as [mrs2 e2] eqn:H2.
  apply shr_fexp_spec in H2 as (Hm3 & He2 & _); [|done].
  rewrite !fexp64 in *.
  destruct (shr_m mrs2); [done| |done].
  destruct (Z.leb_spec e2 (emax - prec)) as [_|Hgt]; [done|].
  change (emax - prec) with 971 in Hgt. lia.
Qed.

(** *** Division of integers *)

Lemma div_eucl_div a b q r : Z.div_eucl a b = (q, r) -> q = a / b /\ r = a mod b.
Proof. intros H. unfold Z.div, Z.modulo. by rewrite H. Qed.

Lemma SFdiv_int_no_overflow (p q : positive) s :
  Zpos p <= Zpos q ->
  SFdiv prec emax (S754_finite false p 0) (S754_finite false q 0) <> S754_infinity s.
Proof.
  intros Hle. unfold SFdiv, SFdiv_core_binary. cbv zeta.
  set (e' := Z.min _ _). set (m' := match 0 - 0 - e' with Z0 => _ | Zpos _ => _ | Zneg _ => _ end).
  assert (e' <= 0) as He' by (subst e'; lia).
  assert (0 <= m' <= Zpos q * 2 ^ (- e')) as Hm'.
  { subst m'. destruct (0 - 0 - e') as [|n|n] eqn:Hs.
    - replace (- e') with 0 by lia. simpl (2 ^ 0). lia.
    - rewrite Z.shiftl_mul_pow2 by lia. replace (- e') with (Zpos n) by lia.
      split; [lia|]. apply Z.mul_le_mono_nonneg_r; lia.
    - lia. }
  destruct (Z.div_eucl m' (Zpos q)) as [qq r] eqn:E.
  apply div_eucl_div in E as [-> _].
  apply binary_round_aux_no_overflow.
  - apply Z.div_pos; lia.
  - lia.
  - assert (m' / Zpos q <= 2 ^ (- e')) as Hq.
    { apply Z.div_le_upper_bound; lia. }
    pose proof (Zdigits2_le_pow2 (m' / Zpos q) (- e')) as Hd.
    assert (0 <= m' / Zpos q) by (apply Z.div_pos; lia). lia.
Qed.

Lemma int_truediv_total a b :
  0 <= a <= b -> 0 < b -> exists t, int_truediv a b = Ok t.
Proof.
  intros Ha Hb. unfold int_truediv.
  destruct (Z.eqb_spec b 0) as [->|_]; [lia|].
  destruct b as [|q|q]; [lia| |lia]. destruct a as [|p|p]; [| |lia].
  - simpl. eauto.
  - pose proof (SFdiv_int_no_overflow p q) as H. cbn [Z2SF].
    destruct (SFdiv prec emax _ _) eqn:E; eauto.
    exfalso. eapply H; [lia | reflexivity].
Qed.

Lemma int_truediv_zero b : 0 < b -> int_truediv 0 b = Ok 0%float.
Proof.
  intros Hb. unfold int_truediv.
  destruct (Z.eqb_spec b 0) as [->|_]; [lia|].
  destruct b as [|q|q]; [lia| |lia]. reflexivity.
Qed.

Lemma new_location_zero n : new_location n 0 = loc_Exact.
Proof.
  unfold new_location, new_location_even, new_location_odd.
  destruct (Z.even n); reflexivity.
Qed.

Lemma int_truediv_self b : 0 < b -> int_truediv b b = Ok 1%float.
Proof.
  intros Hb. unfold int_truediv.
  destruct (Z.eqb_spec b 0) as [->|_]; [lia|].
  destruct b as [|q|q]; [lia| |lia]. cbn [Z2SF].
  unfold SFdiv, SFdiv_core_binary. cbv zeta.
  replace (Zdigits2 (Zpos q) + 0 - (Zdigits2 (Zpos q) + 0)) with 0 by lia.
  change (Z.min (fexp prec emax 0) (0 - 0)) with (-53).
  change (0 - 0 - -53) with 53.
  cbv iota. rewrite Z.shiftl_mul_pow2 by lia.
  rewrite (Z.mul_comm (Zpos q)).
  destruct (Z.div_eucl (2 ^ 53 * Zpos q) (Zpos q)) as [qq r] eqn:E.
  apply div_eucl_div in E as [-> ->].
  rewrite Z.div_mul, Z.mod_mul by lia.
  rewrite new_location_zero. reflexivity.
Qed.

(** *** Multiplying by one, adding zero *)

Lemma bounded_inv m e :
  bounded prec emax m e = true ->
  fexp prec emax (Zdigits2 (Zpos m) + e) = e /\ e <= 971.
Proof.
  unfold bounded, canonical_mantissa. intros H.
  apply andb_prop in H as [H1 H2].
  apply Z.eqb_eq in H1. apply Z.leb_le in H2. split; [exact H1 | exact H2].
Qed.

Lemma shr_iter_exact (k : nat) m :
  Nat.iter k shr_1 (Build_shr_record (Zpos (Nat.iter k xO m)) false false)
  = Build_shr_record (Zpos m) false false.
Proof.
  induction k as [|k IH]; [reflexivity|].
  rewrite Nat.iter_succ_r. simpl. exact IH.
Qed.

Lemma round_tail s m e :
  bounded prec emax m e = true ->
  (let '(mrs, e') := shr_fexp prec emax (Zpos m) e loc_Exact in
   match shr_m mrs with
   | Z0 => S754_zero s
   | Zpos m' => if e' <=? emax - prec then S754_finite s m' e' else S754_infinity s
   | Zneg _ => S754_nan
   end) = S754_finite s m e.
Proof.
  intros Hb. apply bounded_inv in Hb as [Hc He].
  unfold shr_fexp. rewrite Hc, Z.sub_diag.
  cbn [shr shr_record_of_loc shr_m]. change (emax - prec) with 971.
  destruct (Z.leb_spec e 971) as [_|?]; [reflexivity | lia].
Qed.

Lemma binary_round_aux_mul_one s m e :
  bounded prec emax m e = true ->
  binary_round_aux prec emax s (Zpos (m * 4503599627370496)) (e + -52) loc_Exact
  = S754_finite s m e.
Proof.
  intros Hb. pose proof (bounded_inv m e Hb) as [Hc He].
  unfold binary_round_aux. unfold shr_fexp at 1.
  assert (Zdigits2 (Zpos (m * 4503599627370496)) = Zdigits2 (Zpos m) + 52) as ->.
  { rewrite !Zdigits2_log2 by lia. rewrite Pos2Z.inj_mul.
    change (Zpos 4503599627370496) with (2 ^ 52).
    rewrite Z.log2_mul_pow2 by lia. lia. }
  replace (Zdigits2 (Zpos m) + 52 + (e + -52)) with (Zdigits2 (Zpos m) + e) by lia.
  rewrite Hc. replace (e - (e + -52)) with 52 by lia.
  unfold shr. rewrite iter_pos_nat.
  change (Pos.to_nat 52) with 52%nat.
  replace (m * 4503599627370496)%positive with (Nat.iter 52 xO m)
    by (rewrite Pos.mul_comm; reflexivity).
  cbn [shr_record_of_loc]. rewrite shr_iter_exact.
  replace (e + -52 + 52) with e by lia.
  cbn [shr_m loc_of_shr_record round_nearest_even].
  by apply round_tail.
Qed.

Lemma Prim2SF_one : Prim2SF 1 = S754_finite false 4503599627370496 (-52).
Proof. reflexivity. Qed.

Lemma Prim2SF_zero : Prim2SF 0 = S754_zero false.
Proof. reflexivity. Qed.

Lemma mul_one_r x : isfinite x = true -> (x * 1)%float = x.
Proof.
  unfold isfinite. intros Hx. apply Prim2SF_inj.
  rewrite FloatAxioms.mul_spec, Prim2SF_one. pose proof (Prim2SF_valid x) as Hv.
  destruct (Prim2SF x) as [s|s| |s m e]; try discriminate.
  - by destruct s.
  - simpl in Hv. unfold SF64mul, SFmul. rewrite xorb_false_r.
    by apply binary_round_aux_mul_one.
Qed.

Lemma mul_zero_r x :
  isfinite x = true -> exists s, Prim2SF (x * 0)%float = S754_zero s.
Proof.
  unfold isfinite. intros Hx. rewrite FloatAxioms.mul_spec, Prim2SF_zero.
  destruct (Prim2SF x) as [s|s| |s m e]; try discriminate; simpl; eauto.
Qed.

Lemma SFcompare_refl x : x <> S754_nan -> SFcompare x x = Some Eq.
Proof.
  destruct x as [s|s| |s m e]; try done; simpl.
  - by destruct s.
  - intros _. assert (Pos.compare_cont Eq m m = Eq) as Hm by apply Pos.compare_cont_refl.
    destruct s; rewrite Z.compare_refl, Hm; reflexivity.
Qed.

(** [x + (+-0) == x] and [(+-0) + x == x] for a finite [x]. *)
Lemma add_zero_r_eqb x z s :
  isfinite x = true -> Prim2SF z = S754_zero s -> (x + z =? x)%float = true.
Proof.
  unfold isfinite. intros Hx Hz. rewrite FloatAxioms.eqb_spec, FloatAxioms.add_spec, Hz.
  destruct (Prim2SF x) as [sx|sx| |sx m e] eqn:E; try discriminate.
  - by destruct sx, s.
  - unfold SF64add, SFadd, SFeqb. by rewrite SFcompare_refl.
Qed.

Lemma add_zero_l_eqb x z s :
  isfinite x = true -> Prim2SF z = S754_zero s -> (z + x =? x)%float = true.
Proof.
  unfold isfinite. intros Hx Hz. rewrite FloatAxioms.eqb_spec, FloatAxioms.add_spec, Hz.
  destruct (Prim2SF x) as [sx|sx| |sx m e] eqn:E; try discriminate.
  - by destruct sx, s.
  - unfold SF64add, SFadd, SFeqb. by rewrite SFcompare_refl.
Qed.

Lemma lerp_zero s e :
  isfinite s = true -> isfinite e = true ->
  (s * (1 - 0) + e * 0 =? s)%float = true.
Proof.
  intros Hs He. change (1 - 0)%float with 1%float. rewrite mul_one_r by done.
  destruct (mul_zero_r e He) as [sg Hz]. by eapply add_zero_r_eqb.
Qed.

Lemma lerp_one s e :
  isfinite s = true -> isfinite e = true ->
  (s * (1 - 1) + e * 1 =? e)%float = true.
Proof.
  intros Hs He. change (1 - 1)%float with 0%float. rewrite (mul_one_r e) by done.
  destruct (mul_zero_r s Hs) as [sg Hz]. by eapply add_zero_l_eqb.
Qed.

(** *** Comparisons *)

(** The place of a number on the extended real line: a class (the sign,
    infinities apart), then exponent and mantissa, ordered lexicographically. *)
Definition rank (x : spec_float) : Z * Z * Z :=
  match x with
  | S754_zero _ => (0, 0, 0)
  | S754_infinity false => (2, 0, 0)
  | S754_infinity true => (-2, 0, 0)
  | S754_nan => (0, 0, 0)
  | S754_finite false m e => (1, e, Zpos m)
  | S754_finite true m e => (-1, - e, Zneg m)
  end.

Definition lt3 (a b : Z * Z * Z) : Prop :=
  a.1.1 < b.1.1 \/ (a.1.1 = b.1.1 /\ (a.1.2 < b.1.2 \/ (a.1.2 = b.1.2 /\ a.2 < b.2))).

Definition is_nanSF (x : spec_float) : bool :=
  match x with S754_nan => true | _ => false end.

Lemma SFcompare_nan x y :
  SFcompare x y = None <-> is_nanSF x = true \/ is_nanSF y = true.
Proof. destruct x as [[]|[]| |[]], y as [[]|[]| |[]]; simpl; naive_solver. Qed.

Lemma SFcompare_Lt x y :
  SFcompare x y = Some Lt <->
  is_nanSF x = false /\ is_nanSF y = false /\ lt3 (rank x) (rank y).
Proof.
  unfold lt3.
  destruct x as [[]|[]| |[] m1 e1], y as [[]|[]| |[] m2 e2]; simpl;
    try (split; [intros [=] | intros (? & ? & ?)]; try done; lia);
    try (split; [intros _; repeat split; lia | done]).
  - change (PosDef.Pos.compare_cont Eq m1 m2) with (Pos.compare m1 m2).
    destruct (Z.compare_spec e1 e2) as [->|?|?];
      [destruct (Pos.compare_spec m1 m2) | |]; simpl;
      (split; [intros [=] | intros (? & ? & ?)]; try done; try lia;
       repeat split; try done; lia).
  - change (PosDef.Pos.compare_cont Eq m1 m2) with (Pos.compare m1 m2).
    destruct (Z.compare_spec e1 e2) as [->|?|?];
      [destruct (Pos.compare_spec m1 m2) | |]; simpl;
      (split; [intros [=] | intros (? & ? & ?)]; try done; try lia;
       repeat split; try done; lia).
Qed.

Lemma SFcompare_Eq x y :
  SFcompare x y = Some Eq <->
  is_nanSF x = false /\ is_nanSF y = false /\ rank x = rank y.
Proof.
  destruct x as [[]|[]| |[] m1 e1], y as [[]|[]| |[] m2 e2]; simpl;
    try (split; [intros [=] | intros (? & ? & [=])]; done);
    try (split; [intros _; done | done]).
  - change (PosDef.Pos.compare_cont Eq m1 m2) with (Pos.compare m1 m2).
    destruct (Z.compare_spec e1 e2) as [->|?|?];
      [destruct (Pos.compare_spec m1 m2) | |]; simpl;
      (split; [intros [=] | intros (? & ? & [=])]; try done; try lia;
       repeat split; try done; f_equal; lia).
  - change (PosDef.Pos.compare_cont Eq m1 m2) with (Pos.compare m1 m2).
    destruct (Z.compare_spec e1 e2) as [->|?|?];
      [destruct (Pos.compare_spec m1 m2) | |]; simpl;
      (split; [intros [=] | intros (? & ? & [=])]; try done; try lia;
       repeat split; try done; f_equal; lia).
Qed.

Lemma SFcompare_Gt x y :
  SFcompare x y = Some Gt <->
  is_nanSF x = false /\ is_nanSF y = false /\ lt3 (rank y) (rank x).
Proof.
  unfold lt3.
  destruct x as [[]|[]| |[] m1 e1], y as [[]|[]| |[] m2 e2]; simpl;
    try (split; [intros [=] | intros (? & ? & ?)]; try done; lia);
    try (split; [intros _; repeat split; lia | done]).
  - change (PosDef.Pos.compare_cont Eq m1 m2) with (Pos.compare m1 m2).
    destruct (Z.compare_spec e1 e2) as [->|?|?];
      [destruct (Pos.compare_spec m1 m2) | |]; simpl;
      (split; [intros [=] | intros (? & ? & ?)]; try done; try lia;
       repeat split; try done; lia).
  - change (PosDef.Pos.compare_cont Eq m1 m2) with (Pos.compare m1 m2).
    destruct (Z.compare_spec e1 e2) as [->|?|?];
      [destruct (Pos.compare_spec m1 m2) | |]; simpl;
      (split; [intros [=] | intros (? & ? & ?)]; try done; try lia;
       repeat split; try done; lia).
Qed.

Definition key (x : float) : Z * Z * Z := rank (Prim2SF x).
Definition le3 (a b : Z * Z * Z) : Prop := lt3 a b \/ a = b.

Lemma is_nan_spec x : is_nan x = is_nanSF (Prim2SF x).
Proof.
  unfold is_nan. rewrite FloatAxioms.eqb_spec. unfold SFeqb.
  destruct (Prim2SF x) eqn:E; try reflexivity;
    rewrite SFcompare_refl by done; reflexivity.
Qed.

Lemma ltb_true x y :
  (x <? y)%float = true <->
  is_nan x = false /\ is_nan y = false /\ lt3 (key x) (key y).
Proof.
  rewrite FloatAxioms.ltb_spec, !is_nan_spec, <- SFcompare_Lt. unfold SFltb.
  destruct (SFcompare _ _) as [[]|]; naive_solver.
Qed.

Lemma leb_true x y :
  (x <=? y)%float = true <->
  is_nan x = false /\ is_nan y = false /\ le3 (key x) (key y).
Proof.
  rewrite FloatAxioms.leb_spec, !is_nan_spec. unfold SFleb, le3, key.
  destruct (SFcompare _ _) as [[]|] eqn:E.
  - apply SFcompare_Eq in E. naive_solver.
  - apply SFcompare_Lt in E. naive_solver.
  - apply SFcompare_Gt in E as (? & ? & Hgt). split; [done|].
    intros (_ & _ & [Hlt | Heq]).
    + unfold lt3 in *. lia.
    + rewrite Heq in Hgt. unfold lt3 in Hgt. lia.
  - apply SFcompare_nan in E. split; [done|]. intros (? & ? & _).
    destruct E; congruence.
Qed.

Lemma eqb_true x y :
  (x =? y)%float = true <->
  is_nan x = false /\ is_nan y = false /\ key x = key y.
Proof.
  rewrite FloatAxioms.eqb_spec, !is_nan_spec, <- SFcompare_Eq. unfold SFeqb.
  destruct (SFcompare _ _) as [[]|]; naive_solver.
Qed.

Lemma ltb_false x y :
  (x <? y)%float = false <->
  is_nan x = true \/ is_nan y = true \/ le3 (key y) (key x).
Proof.
  rewrite <- not_true_iff_false, ltb_true. unfold le3, lt3.
  destruct (is_nan x), (is_nan y); try naive_solver.
  destruct (key x) as [[a b] c], (key y) as [[a' b'] c']. simpl.
  split.
  - intros H. do 2 right.
    destruct (decide (a' = a /\ b' = b /\ c' = c)) as [(-> & -> & ->)|?];
      [by right | left; lia].
  - intros [?|[?|[H|[= -> -> ->]]]]; try done; lia.
Qed.

Lemma leb_false x y :
  (x <=? y)%float = false <->
  is_nan x = true \/ is_nan y = true \/ lt3 (key y) (key x).
Proof.
  rewrite <- not_true_iff_false, leb_true. unfold le3, lt3.
  destruct (is_nan x), (is_nan y); try naive_solver.
  destruct (key x) as [[a b] c], (key y) as [[a' b'] c']. simpl.
  split.
  - intros H. do 2 right.
    destruct (decide (a = a' /\ b = b' /\ c = c')) as [(-> & -> & ->)|?].
    + exfalso. apply H. repeat split. by right.
    + destruct (decide (a' < a \/ a' = a /\ (b' < b \/ b' = b /\ c' < c)));
        [done|]. exfalso. apply H. repeat split. left. lia.
  - intros [?|[?|H]]; try done. intros (_ & _ & [H'|[= -> -> ->]]); lia.
Qed.

(** Turns comparisons of floats into comparisons of their keys. *)
Ltac float_order :=
  repeat match goal with
  | H : (_ <? _)%float = true |- _ => apply ltb_true in H as (? & ? & ?)
  | H : (_ <=? _)%float = true |- _ => apply leb_true in H as (? & ? & ?)
  | H : (_ =? _)%float = true |- _ => apply eqb_true in H as (? & ? & ?)
  | H : (_ <? _)%float = false |- _ => apply ltb_false in H
  | H : (_ <=? _)%float = false |- _ => apply leb_false in H
  end.

Lemma lt3_trans a b c : lt3 a b -> lt3 b c -> lt3 a c.
Proof. unfold lt3. lia. Qed.

Lemma le3_lt3_trans a b c : le3 a b -> lt3 b c -> lt3 a c.
Proof. intros [H| ->] H'; [by eapply lt3_trans | done]. Qed.

Lemma lt3_le3_trans a b c : lt3 a b -> le3 b c -> lt3 a c.
Proof. intros H [H'| <-]; [by eapply lt3_trans | done]. Qed.

Lemma lt3_irrefl a : ~ lt3 a a.
Proof. unfold lt3. lia. Qed.

Lemma ltb_trans x y z :
  (x <? y)%float = true -> (y <? z)%float = true -> (x <? z)%float = true.
Proof.
  intros H1 H2. float_order. apply ltb_true. repeat split; try done.
  by eapply lt3_trans.
Qed.

Lemma leb_ltb_trans x y z :
  (x <=? y)%float = true -> (y <? z)%float = true -> (x <? z)%float = true.
Proof.
  intros H1 H2. float_order. apply ltb_true. repeat split; try done.
  by eapply le3_lt3_trans.
Qed.

Lemma not_leb_ltb x y :
  (x <=? y)%float = false -> is_nan x = false -> is_nan y = false ->
  (y <? x)%float = true.
Proof.
  intros H Hx Hy. float_order. apply ltb_true.
  destruct H as [?|[?|?]]; [congruence.. | done].
Qed.

Lemma not_ltb_leb x y :
  (x <? y)%float = false -> is_nan x = false -> is_nan y = false ->
  (y <=? x)%float = true.
Proof.
  intros H Hx Hy. float_order. apply leb_true.
  destruct H as [?|[?|?]]; [congruence.. | done].
Qed.

End FloatFacts.
Import FloatFacts.

(** ** [run_neb] *)

Module NebFacts.
Import Neb.

Section RunNeb.
Context (rt : Runtime).
Variable potential : point -> result float.
Variable gradient : point -> result point.
Variables (start end_ : point) (n_images : Z).
Variables (k_spring step_size : float) (max_iter : Z).
Variable force_tolerance : float.

Local Notation force_pass := (force_pass rt gradient n_images k_spring).
Local Notation update_pass := (update_pass n_images step_size).
Local Notation neb_loop :=
  (neb_loop rt gradient n_images k_spring step_size force_tolerance).
Local Notation moved :=
  (moved rt gradient n_images k_spring step_size force_tolerance).
Local Notation run_neb :=
  (run_neb rt potential gradient start end_ n_images k_spring step_size
     max_iter force_tolerance).
Local Notation initial_images := (initial_images start end_ n_images).

(** What the main loop leaves behind: either some pass met the tolerance
    and the images are those that pass found, or every pass moved them. *)
Lemma neb_loop_spec its im forces last l :
  neb_loop its im forces last = Ok l ->
  (exists (j : nat) it forces' fm,
      its !! j = Some it /\ moved j im (l_images l) /\
      force_pass (l_images l) forces' = Ok fm /\
      (fm.2 <? force_tolerance)%float = true /\
      l_last l = Some (it, fm.2))
  \/ (moved (length its) im (l_images l) /\
      ((its = [] /\ l_last l = last) \/
       (exists it mf, list.last its = Some it /\ l_last l = Some (it, mf) /\
                      (mf <? force_tolerance)%float = false))).
Proof.
  revert im forces last l.
  induction its as [|it its IH]; simpl; intros im forces last l H.
  - injection H as <-. right. split; [constructor | by left].
  - apply bind_ok in H as (fm & Hfm & H).
    destruct (fm.2 <? force_tolerance)%float eqn:Htol.
    + injection H as <-. left. exists 0%nat, it, forces, fm. simpl.
      repeat split; [constructor | done..].
    + apply bind_ok in H as (im' & Hup & H).
      apply IH in H as [(j & it' & f' & fm' & Hj & Hm & Hf & Ht & Hl)
                       |(Hm & Hl)].
      * left. exists (S j), it', f', fm'. simpl.
        repeat split; [done | econstructor; eauto | done..].
      * right. split; [econstructor; eauto|]. right.
        destruct Hl as [[-> Hl] | (it' & mf & Hlast & Hl & Hmf)].
        -- exists it, fm.2. done.
        -- exists it', mf. split; [|done].
           destruct its; [done | exact Hlast].
Qed.

Lemma last_range n : 0 < n -> list.last (range n) = Some (n - 1).
Proof.
  intros Hn. unfold range. rewrite range2_snoc by lia. apply last_snoc.
Qed.

Lemma lookup_range n (j : nat) it : range n !! j = Some it -> it = Z.of_nat j /\ it < n.
Proof.
  intros H. pose proof (lookup_lt_Some _ _ _ H) as Hlt.
  unfold range in *. rewrite length_range2 in Hlt.
  rewrite lookup_range2 in H by done. injection H as <-. lia.
Qed.

(** The update pass keeps the length and writes internal images only. *)
Lemma update_pass_spec im forces im' :
  update_pass im forces = Ok im' ->
  length im' = length im /\
  forall k : nat, ~ (1 <= Z.of_nat k < n_images - 1) -> im' !! k = im !! k.
Proof.
  unfold Neb.update_pass.
  apply (foldM_inv (fun s => length s = length im /\
    forall k : nat, ~ (1 <= Z.of_nat k < n_images - 1) -> s !! k = im !! k)).
  - done.
  - intros s idx s' Hidx [Hlen Hk] Hstep. apply elem_of_range2 in Hidx.
    unfold update_step in Hstep. inv_bind.
    apply setitem_inv in Hstep as [_ ->]; [|lia]. split.
    + by rewrite length_insert.
    + intros k Hk'. rewrite list_lookup_insert_ne by lia. auto.
Qed.

Lemma update_pass_total im forces :
  length im = Z.to_nat n_images -> length forces = Z.to_nat n_images ->
  exists im', update_pass im forces = Ok im'.
Proof.
  intros Him Hf. unfold Neb.update_pass.
  destruct (foldM_total (fun s => length s = Z.to_nat n_images)
              (update_step step_size forces) (range2 1 (n_images - 1)) im)
    as (im' & H & _); [done | | eauto].
  intros s idx Hidx Hs. apply elem_of_range2 in Hidx. unfold update_step.
  destruct (getitem_total s idx) as [a ->]; [lia|].
  destruct (getitem_total forces idx) as [f ->]; [lia|]. simpl.
  rewrite setitem_ok by lia. eexists. split; [done|].
  by rewrite length_insert.
Qed.

Hypothesis gradient_total : forall p, exists g, gradient p = Ok g.

Lemma image_force_total im idx :
  length im = Z.to_nat n_images -> 1 <= idx < n_images - 1 ->
  exists f, image_force rt gradient k_spring im idx = Ok f.
Proof.
  intros Him Hidx. unfold image_force.
  destruct (getitem_total im (idx - 1)) as [prev ->]; [lia|].
  destruct (getitem_total im (idx + 1)) as [next ->]; [lia|]. simpl.
  set (tn := Py.hypot rt _ _).
  assert (exists t, (if (tn =? 0)%float then Ok (0, 0)%float
                     else t0 <- truediv (next.1 - prev.1)%float tn ;;
                          t1 <- truediv (next.2 - prev.2)%float tn ;;
                          Ok (t0, t1)) = Ok t) as [t ->].
  { unfold truediv. destruct (tn =? 0)%float; simpl; eauto. }
  simpl. destruct (getitem_total im idx) as [image ->]; [lia|]. simpl.
  destruct (gradient_total image) as [g ->]. simpl. eauto.
Qed.

Lemma force_pass_total im forces :
  length im = Z.to_nat n_images -> length forces = Z.to_nat n_images ->
  exists fm, force_pass im forces = Ok fm /\ length fm.1 = Z.to_nat n_images.
Proof.
  intros Him Hf. unfold Neb.force_pass.
  apply (foldM_total (fun s : list point * float => length s.1 = Z.to_nat n_images));
    [done|].
  intros s idx Hidx Hs. apply elem_of_range2 in Hidx. unfold force_step.
  destruct (image_force_total im idx) as [f ->]; [done..|]. simpl.
  rewrite setitem_ok by lia. simpl. eexists. split; [done|]. simpl.
  by rewrite length_insert.
Qed.

Lemma neb_loop_total its im forces last :
  length im = Z.to_nat n_images -> length forces = Z.to_nat n_images ->
  exists l, neb_loop its im forces last = Ok l /\
            length (l_images l) = Z.to_nat n_images.
Proof.
  revert im forces last.
  induction its as [|it its IH]; simpl; intros im forces last Him Hf; [eauto|].
  destruct (force_pass_total im forces) as (fm & -> & Hfm); [done..|]. simpl.
  destruct (fm.2 <? force_tolerance)%float; [eauto|].
  destruct (update_pass_total im fm.1) as [im' Hup]; [done..|].
  rewrite Hup. simpl. apply IH; [|done].
  apply update_pass_spec in Hup as [-> _]. done.
Qed.

Lemma initial_images_total :
  2 <= n_images ->
  exists im0, initial_images = Ok im0 /\ length im0 = Z.to_nat n_images.
Proof.
  intros HN. unfold Neb.initial_images.
  destruct (mapM_total
    (fun index => t <- int_truediv index (n_images - 1) ;;
                  Ok (interpolate start end_ t)) (range n_images)) as [im0 H].
  { intros idx Hidx. apply elem_of_range2 in Hidx.
    destruct (int_truediv_total idx (n_images - 1)) as [t ->]; [lia..|].
    simpl. eauto. }
  exists im0. split; [done|]. apply mapM_length in H. rewrite H.
  unfold range. rewrite length_range2. f_equal. lia.
Qed.

Lemma length_initial_forces : length (initial_forces n_images) = Z.to_nat n_images.
Proof.
  unfold initial_forces, range. rewrite length_map, length_range2. f_equal. lia.
Qed.

(** The loop variable after the main loop. *)
Lemma neb_loop_iteration im forces l :
  neb_loop (range max_iter) im forces None = Ok l -> 1 <= max_iter ->
  exists it mf, l_last l = Some (it, mf) /\ 0 <= it < max_iter.
Proof.
  intros H HM. apply neb_loop_spec in H
    as [(j & it & f' & fm & Hj & _ & _ & _ & Hlast)
       |(_ & [[Hnil _] | (it & mf & Hit & Hlast & _)])].
  - apply lookup_range in Hj as [-> Hlt]. exists (Z.of_nat j), fm.2.
    split; [done | lia].
  - unfold range in Hnil. rewrite range2_cons in Hnil by lia. done.
  - rewrite last_range in Hit by lia. injection Hit as <-.
    exists (max_iter - 1), mf. split; [done | lia].
Qed.

(** C1: the convergence check precedes the position update.  A run
    that returns either met the tolerance in its [(j+1)]-th pass, after
    [j] passes that moved the images: the forces of that pass were
    computed on the returned path and their largest norm is below the
    tolerance, so the pass moved nothing, and the count is [j + 1]; or
    every one of the [max_iter] passes moved the images and the count is
    [max_iter]. *)
Theorem run_neb_checks_before_moving r :
  run_neb = Ok r ->
  exists im0, initial_images = Ok im0 /\
    ((exists (j : nat) forces fm,
         moved j im0 (path r) /\
         force_pass (path r) forces = Ok fm /\
         (fm.2 <? force_tolerance)%float = true /\
         max_force r = fm.2 /\
         iterations r = Z.of_nat j + 1 /\ iterations r <= max_iter)
     \/ (moved (Z.to_nat max_iter) im0 (path r) /\
         iterations r = max_iter)).
Proof.
  unfold Neb.run_neb. intros H.
  apply bind_ok in H as (im0 & Him0 & H).
  apply bind_ok in H as (l & Hl & H).
  apply bind_ok in H as (en & _ & H).
  apply bind_ok in H as (gr & _ & H).
  exists im0. split; [done|].
  apply neb_loop_spec in Hl
    as [(j & it & f' & fm & Hj & Hm & Hf & Ht & Hlast) | (Hm & Hlast)].
  - rewrite Hlast in H. injection H as <-. simpl.
    apply lookup_range in Hj as [-> Hlt].
    left. exists j, f', fm. repeat split; [done..|lia].
  - right. unfold range in Hm. rewrite length_range2, Z.sub_0_r in Hm.
    destruct Hlast as [[_ Hlast] | (it & mf & Hit & Hlast & _)];
      rewrite Hlast in H; [discriminate|].
    injection H as <-. simpl. split; [done|].
    destruct (Z.ltb_spec 0 max_iter) as [Hpos|Hneg].
    + rewrite last_range in Hit by done. injection Hit as <-. lia.
    + unfold range in Hit. rewrite range2_empty in Hit by lia. done.
Qed.

(** Without a pass the loop binds neither [iteration] nor [max_force], and
    the [return] statement raises: a run that returns has made one. *)
Lemma run_neb_needs_a_pass r : run_neb = Ok r -> 1 <= max_iter.
Proof.
  unfold Neb.run_neb. intros H.
  destruct (Z.ltb_spec 0 max_iter) as [Hpos|Hneg]; [lia|].
  unfold range in H. rewrite (range2_empty 0 max_iter) in H by lia.
  apply bind_ok in H as (im0 & _ & H). simpl in H.
  apply bind_ok in H as (en & _ & H).
  apply bind_ok in H as (gr & _ & H). discriminate.
Qed.

(** C10: a run that returns before the budget is spent has met the
    tolerance; otherwise the count is the budget. *)
Theorem run_neb_stops_early_only_converged r :
  run_neb = Ok r ->
  (iterations r < max_iter ->
   (max_force r <? force_tolerance)%float = true) /\
  (~ iterations r < max_iter -> iterations r = max_iter).
Proof.
  unfold Neb.run_neb. intros H.
  apply bind_ok in H as (im0 & Him0 & H).
  apply bind_ok in H as (l & Hl & H).
  apply bind_ok in H as (en & _ & H).
  apply bind_ok in H as (gr & _ & H).
  apply neb_loop_spec in Hl
    as [(j & it & f' & fm & Hj & Hm & Hf & Ht & Hlast) | (Hm & Hlast)].
  - rewrite Hlast in H. injection H as <-. simpl.
    apply lookup_range in Hj as [-> Hlt]. split; [done | lia].
  - destruct Hlast as [[_ Hlast] | (it & mf & Hit & Hlast & _)];
      rewrite Hlast in H; [discriminate|].
    injection H as <-. simpl.
    destruct (Z.ltb_spec 0 max_iter) as [Hpos|Hneg].
    + rewrite last_range in Hit by done. injection Hit as <-. lia.
    + unfold range in Hit. rewrite range2_empty in Hit by lia. done.
Qed.

Lemma moved_endpoints j im im' :
  moved j im im' ->
  length im' = length im /\
  forall k : nat, ~ (1 <= Z.of_nat k < n_images - 1) -> im' !! k = im !! k.
Proof.
  induction 1 as [im | j im forces fm im1 im2 _ _ Hup _ [IHl IHk]]; [done|].
  apply update_pass_spec in Hup as [Hl Hk]. split; [congruence|].
  intros k Hk'. rewrite IHk, Hk by done. done.
Qed.

Lemma neb_loop_endpoints its im forces last l :
  neb_loop its im forces last = Ok l ->
  length (l_images l) = length im /\
  forall k : nat, ~ (1 <= Z.of_nat k < n_images - 1) -> l_images l !! k = im !! k.
Proof.
  intros H. apply neb_loop_spec in H
    as [(j & _ & _ & _ & _ & Hm & _) | (Hm & _)]; eapply moved_endpoints; eauto.
Qed.

(** The initial path starts at [start] and ends at [end]. *)
Lemma initial_images_pinned im0 :
  2 <= n_images ->
  isfinite start.1 = true -> isfinite start.2 = true ->
  isfinite end_.1 = true -> isfinite end_.2 = true ->
  initial_images = Ok im0 -> pinned start end_ n_images im0.
Proof.
  intros HN Hs1 Hs2 He1 He2 H. unfold Neb.initial_images in H.
  assert (range n_images !! 0%nat = Some 0) as H0.
  { unfold range. rewrite lookup_range2 by lia. done. }
  assert (range n_images !! Z.to_nat (n_images - 1) = Some (n_images - 1)) as H1.
  { unfold range. rewrite lookup_range2 by lia. f_equal. lia. }
  destruct (mapM_lookup _ _ _ _ _ H H0) as (p & Hp & Hp').
  destruct (mapM_lookup _ _ _ _ _ H H1) as (q & Hq & Hq').
  rewrite int_truediv_zero in Hp' by lia.
  rewrite int_truediv_self in Hq' by lia.
  simpl in Hp', Hq'. injection Hp' as <-. injection Hq' as <-.
  exists (interpolate start end_ 0), (interpolate start end_ 1).
  repeat split; [done..| |]; unfold point_eqb, interpolate; cbn [fst snd];
    apply andb_true_intro; split; auto using lerp_zero, lerp_one.
Qed.

Lemma pinned_transport im im' :
  (forall k : nat, ~ (1 <= Z.of_nat k < n_images - 1) -> im' !! k = im !! k) ->
  2 <= n_images ->
  pinned start end_ n_images im -> pinned start end_ n_images im'.
Proof.
  intros Hk HN (p & q & Hp & Hq & Hps & Hqe). exists p, q.
  rewrite !Hk by lia. done.
Qed.

(** C2, as the code has it: with at least two images, a budget of at least
    one pass and callables that return, [run_neb] returns; the path has
    exactly [n_images] points, the count lies between 1 and [max_iter], and
    there is one energy per image, the value of the potential there. *)
Theorem run_neb_returns_path :
  2 <= n_images -> 1 <= max_iter ->
  (forall p, exists v, potential p = Ok v) ->
  exists r, run_neb = Ok r /\
    Z.of_nat (length (path r)) = n_images /\
    1 <= iterations r <= max_iter /\
    mapM potential (path r) = Ok (energies r) /\
    Z.of_nat (length (energies r)) = n_images.
Proof.
  intros HN HM Hpot. unfold Neb.run_neb.
  destruct (initial_images_total HN) as (im0 & -> & Hlen0). simpl.
  destruct (neb_loop_total (range max_iter) im0 (initial_forces n_images) None)
    as (l & Hl & Hlen); [done | apply length_initial_forces |].
  rewrite Hl. simpl.
  destruct (mapM_total potential (l_images l)) as [en Hen]; [auto|].
  destruct (mapM_total gradient (l_images l)) as [gr Hgr]; [auto|].
  rewrite Hen, Hgr. simpl.
  destruct (neb_loop_iteration _ _ _ Hl HM) as (it & mf & -> & Hit).
  eexists. split; [reflexivity|]. simpl.
  apply mapM_length in Hen as Hlen'. repeat split; try done; lia.
Qed.

(** C3, as the code has it: for finite [start] and [end] and at least two
    images, the first and the last image compare equal to [start] and [end]
    after the initialisation, after every pass that moves the images and in
    the result; a pass writes neither of the two. *)
Theorem run_neb_endpoints_pinned :
  2 <= n_images ->
  isfinite start.1 = true -> isfinite start.2 = true ->
  isfinite end_.1 = true -> isfinite end_.2 = true ->
  exists im0, initial_images = Ok im0 /\
    pinned start end_ n_images im0 /\
    (forall j im, moved j im0 im -> pinned start end_ n_images im) /\
    (forall im forces im', update_pass im forces = Ok im' ->
       im' !! 0%nat = im !! 0%nat /\
       im' !! Z.to_nat (n_images - 1) = im !! Z.to_nat (n_images - 1)) /\
    (forall r, run_neb = Ok r -> pinned start end_ n_images (path r)).
Proof.
  intros HN Hs1 Hs2 He1 He2.
  destruct (initial_images_total HN) as (im0 & Him0 & _).
  pose proof (initial_images_pinned im0 HN Hs1 Hs2 He1 He2 Him0) as Hpin.
  exists im0. repeat split; [done..| | | |].
  - intros j im Hm. apply moved_endpoints in Hm as [_ Hk].
    by apply (pinned_transport im0).
  - apply update_pass_spec in H as [_ Hk]. apply Hk. lia.
  - apply update_pass_spec in H as [_ Hk]. apply Hk. lia.
  - intros r Hr. unfold Neb.run_neb in Hr. rewrite Him0 in Hr. simpl in Hr.
    apply bind_ok in Hr as (l & Hl & Hr).
    apply bind_ok in Hr as (en & _ & Hr).
    apply bind_ok in Hr as (gr & _ & Hr).
    destruct (l_last l) as [[it mf]|]; [|discriminate].
    injection Hr as <-. simpl.
    apply neb_loop_endpoints in Hl as [_ Hk]. by apply (pinned_transport im0).
Qed.

End RunNeb.

(** A run that moves the middle image three times and stops in its fourth
    pass. *)
Lemma run_neb_checks_before_moving_witness :
  exists r,
    run_neb Table.table_rt Examples.valley Examples.valley_gradient
      (-1, 1)%float (1, 1)%float 3 2 0.5 10 0.2 = Ok r /\
    iterations r = 4 /\
    exists im0, initial_images (-1, 1)%float (1, 1)%float 3 = Ok im0 /\
      ((exists (j : nat) forces fm,
           moved Table.table_rt Examples.valley_gradient 3 2 0.5 0.2 j im0 (path r) /\
           force_pass Table.table_rt Examples.valley_gradient 3 2 (path r) forces = Ok fm /\
           (fm.2 <? 0.2)%float = true /\
           max_force r = fm.2 /\
           iterations r = Z.of_nat j + 1 /\ iterations r <= 10)
       \/ (moved Table.table_rt Examples.valley_gradient 3 2 0.5 0.2 (Z.to_nat 10) im0 (path r) /\
           iterations r = 10)).
Proof.
  eexists. split; [vm_compute; reflexivity|]. split; [reflexivity|].
  apply (run_neb_checks_before_moving Table.table_rt Examples.valley
           Examples.valley_gradient (-1, 1)%float (1, 1)%float 3 2 0.5 10 0.2).
  vm_compute. reflexivity.
Defined.

Lemma run_neb_stops_early_only_converged_witness :
  exists r,
    run_neb Table.table_rt Examples.valley Examples.valley_gradient
      (-1, 1)%float (1, 1)%float 3 2 0.5 10 0.2 = Ok r /\
    (iterations r < 10 -> (max_force r <? 0.2)%float = true) /\
    (~ iterations r < 10 -> iterations r = 10).
Proof.
  eexists. split; [vm_compute; reflexivity|].
  apply (run_neb_stops_early_only_converged Table.table_rt Examples.valley
           Examples.valley_gradient (-1, 1)%float (1, 1)%float 3 2 0.5 10 0.2).
  vm_compute. reflexivity.
Defined.

Lemma valley_total p : exists v, Examples.valley p = Ok v.
Proof. unfold Examples.valley. eauto. Qed.

Lemma valley_gradient_total p : exists g, Examples.valley_gradient p = Ok g.
Proof. unfold Examples.valley_gradient. eauto. Qed.

Lemma run_neb_returns_path_witness :
  exists r,
    run_neb Table.table_rt Examples.valley Examples.valley_gradient
      (-1, 1)%float (1, 1)%float 3 2 0.5 10 0.2 = Ok r /\
    Z.of_nat (length (path r)) = 3 /\
    1 <= iterations r <= 10 /\
    mapM Examples.valley (path r) = Ok (energies r) /\
    Z.of_nat (length (energies r)) = 3.
Proof.
  apply (run_neb_returns_path Table.table_rt Examples.valley
           Examples.valley_gradient (-1, 1)%float (1, 1)%float 3 2 0.5 10 0.2
           valley_gradient_total);
    [lia | lia | apply valley_total].
Defined.

(** C2 as stated fails: finite end points in a harmonic well, two images,
    and both reported energies are infinite. *)
Lemma run_neb_energy_overflows :
  exists r,
    run_neb Table.table_rt Examples.well Examples.well_gradient
      (-1e200, 0)%float (1e200, 0)%float 2 2 0.02 1 1e-3 = Ok r /\
    energies r = [infinity; infinity] /\
    forallb isfinite (energies r) = false.
Proof. eexists. split; [vm_compute; reflexivity|]. split; reflexivity. Qed.

(** With [max_iter = 0] the same call raises. *)
Lemma run_neb_without_passes :
  run_neb Table.table_rt Examples.valley Examples.valley_gradient
    (-1, 1)%float (1, 1)%float 3 2 0.5 0 0.2 = Raise UnboundLocalError.
Proof. vm_compute. reflexivity. Qed.

Lemma run_neb_endpoints_pinned_witness :
  exists im0, initial_images (-1, 1)%float (1, 1)%float 3 = Ok im0 /\
    pinned (-1, 1)%float (1, 1)%float 3 im0 /\
    (forall j im, moved Table.table_rt Examples.valley_gradient 3 2 0.5 0.2 j im0 im ->
       pinned (-1, 1)%float (1, 1)%float 3 im) /\
    (forall im forces im', update_pass 3 0.5 im forces = Ok im' ->
       im' !! 0%nat = im !! 0%nat /\
       im' !! Z.to_nat (3 - 1) = im !! Z.to_nat (3 - 1)) /\
    (forall r,
       run_neb Table.table_rt Examples.valley Examples.valley_gradient
         (-1, 1)%float (1, 1)%float 3 2 0.5 10 0.2 = Ok r ->
       pinned (-1, 1)%float (1, 1)%float 3 (path r)).
Proof.
  apply (run_neb_endpoints_pinned Table.table_rt Examples.valley
           Examples.valley_gradient (-1, 1)%float (1, 1)%float 3 2 0.5 10 0.2);
    [lia | reflexivity..].
Defined.

(** C3 as stated fails: with an infinite coordinate in [start] the last
    image is not [end]. *)
Lemma run_neb_endpoint_not_end :
  exists r q,
    run_neb Table.table_rt Examples.well Examples.well_gradient
      (infinity, 0)%float (2, 0)%float 2 2 0.02 1 1e-3 = Ok r /\
    path r !! 1%nat = Some q /\
    point_eqb q (2, 0)%float = false.
Proof. do 2 eexists. split; [vm_compute; reflexivity|]. split; reflexivity. Qed.

End NebFacts.

(** ** [app/pes.py]: the grid and the point evaluators *)

Module PesFacts.
Import Pes.

Lemma foldM_fmap {S X Y} (body : S -> Y -> result S) (f : X -> Y) xs s :
  foldM body s (f <$> xs) = foldM (fun s x => body s (f x)) s xs.
Proof.
  revert s. induction xs as [|x xs IH]; intros s; simpl; [done|].
  destruct (body s (f x)); simpl; [apply IH | done].
Qed.

Lemma grid_loop_cells {S} rows cols (body : S -> Z -> Z -> result S) s :
  grid_loop rows cols body s
  = foldM (fun s (rc : Z * Z) => body s rc.1 rc.2) s (cells rows cols).
Proof.
  unfold grid_loop, cells, cprod, list_cprod.
  generalize (range rows) as rs. intros rs. revert s.
  induction rs as [|r rs IH]; intros s; simpl; [done|].
  rewrite foldM_app, foldM_fmap. simpl.
  destruct (foldM _ s (range cols)); simpl; [apply IH | done].
Qed.

Lemma NoDup_range2 lo hi : NoDup (range2 lo hi).
Proof.
  unfold range2. apply NoDup_fmap_2; [|apply NoDup_seq].
  intros a b H. lia.
Qed.

Lemma NoDup_cells rows cols : NoDup (cells rows cols).
Proof.
  unfold cells, cprod, list_cprod. apply NoDup_bind.
  - intros r1 r2 [r c] _ _ H1 H2.
    apply list_elem_of_fmap in H1 as (? & [= -> ->] & _).
    apply list_elem_of_fmap in H2 as (? & [= -> _] & _). done.
  - intros r _. apply NoDup_fmap_2; [|apply NoDup_range2].
    intros a b [= ->]. done.
  - apply NoDup_range2.
Qed.

Lemma elem_of_cells rows cols r c :
  (r, c) ∈ cells rows cols <-> (0 <= r < rows) /\ (0 <= c < cols).
Proof.
  unfold cells. rewrite list_elem_of_cprod. unfold range.
  rewrite !elem_of_range2. done.
Qed.

(** A loop that rewrites one cell per pass rewrites each cell of its range
    once and leaves the others. *)
Section Cellwise.
Context {S X V : Type}.
Variable D : X -> Prop.
Variable get : S -> X -> option V.
Variable upd : X -> V -> result V.
Variable body : S -> X -> result S.
Hypothesis body_spec : forall s x s',
  D x -> body s x = Ok s' ->
  exists v v', get s x = Some v /\ upd x v = Ok v' /\ get s' x = Some v' /\
               forall x', D x' -> x' <> x -> get s' x' = get s x'.

Lemma foldM_cellwise xs s s' :
  NoDup xs -> (forall x, x ∈ xs -> D x) -> foldM body s xs = Ok s' ->
  (forall x, x ∈ xs ->
     exists v v', get s x = Some v /\ upd x v = Ok v' /\ get s' x = Some v') /\
  (forall x, D x -> x ∉ xs -> get s' x = get s x).
Proof.
  revert s. induction xs as [|x xs IH]; simpl; intros s Hnd HD H.
  - injection H as <-. split; [|done]. intros x Hx. by apply elem_of_nil in Hx.
  - apply bind_ok in H as (s1 & H1 & H).
    apply NoDup_cons in Hnd as [Hx Hnd].
    destruct (body_spec s x s1) as (v & v' & Hv & Hu & Hv' & Hframe);
      [apply HD; left | done |].
    destruct (IH s1 Hnd) as [IHin IHout]; [intros; apply HD; by right | done |].
    split.
    + intros y Hy. apply elem_of_cons in Hy as [->|Hy].
      * exists v, v'. rewrite IHout; [done | apply HD; left | done].
      * destruct (IHin y Hy) as (w & w' & Hw & Hu' & Hw').
        exists w, w'. rewrite <- Hframe; [done | apply HD; by right |].
        intros ->. done.
    + intros y Dy Hy. apply not_elem_of_cons in Hy as [Hne Hy].
      rewrite IHout, Hframe; done.
Qed.
End Cellwise.

Lemma getitem_lookup {A} (l : list A) (i : Z) :
  0 <= i ->
  getitem l i = match l !! Z.to_nat i with
                | Some a => Ok a
                | None => Raise IndexError
                end.
Proof. intros Hi. unfold getitem. nonneg_index i. done. Qed.

Lemma getitem2_setitem2 (m m' : grid) r c v :
  0 <= r -> 0 <= c -> setitem2 m r c v = Ok m' ->
  getitem2 m' r c = Ok v /\
  forall r' c', 0 <= r' -> 0 <= c' -> (r', c') <> (r, c) ->
                getitem2 m' r' c' = getitem2 m r' c'.
Proof.
  intros Hr Hc H. unfold setitem2 in H.
  apply bind_ok in H as (row & Hrow & H). apply bind_ok in H as (row' & Hrow' & H).
  apply getitem_inv in Hrow; [|done].
  apply setitem_inv in Hrow' as [Hlc ->]; [|done].
  apply setitem_inv in H as [Hlr ->]; [|done].
  unfold getitem2. split.
  - rewrite getitem_lookup, list_lookup_insert_eq by lia. simpl.
    rewrite getitem_lookup, list_lookup_insert_eq by lia. done.
  - intros r' c' Hr' Hc' Hne. rewrite !(getitem_lookup _ r') by done.
    destruct (decide (r' = r)) as [->|Hr'r].
    + rewrite list_lookup_insert_eq, Hrow by lia. simpl.
      rewrite !getitem_lookup by done.
      rewrite list_lookup_insert_ne; [done|]. intros Heq.
      apply Hne. f_equal. lia.
    + rewrite list_lookup_insert_ne by lia. done.
Qed.

Lemma getitem2_zeros rows cols r c :
  0 <= r < rows -> 0 <= c < cols -> getitem2 (zeros rows cols) r c = Ok 0%float.
Proof.
  intros Hr Hc. unfold getitem2, zeros, range.
  rewrite getitem_lookup, list_lookup_fmap, lookup_range2 by lia. simpl.
  rewrite getitem_lookup, list_lookup_fmap, lookup_range2 by lia. done.
Qed.

Definition nonneg (rc : Z * Z) : Prop := 0 <= rc.1 /\ 0 <= rc.2.

Lemma cell_Some m rc v : cell m rc = Some v <-> getitem2 m rc.1 rc.2 = Ok v.
Proof.
  unfold cell. destruct (getitem2 m rc.1 rc.2); split; intros H; congruence.
Qed.

Section Evaluators.
Context (rt : Runtime).
Variables grid_x grid_y : grid.

Local Notation potential_pass := (potential_pass rt grid_x grid_y).
Local Notation gradient_pass := (gradient_pass rt grid_x grid_y).
Local Notation potential_step := (potential_step rt).
Local Notation gradient_step := (gradient_step rt).

Variables (row col : Z) (x y : float).
Hypothesis row_range : 0 <= row < rows_of grid_x.
Hypothesis col_range : 0 <= col < cols_of grid_x.
Hypothesis x_at : getitem2 grid_x row col = Ok x.
Hypothesis y_at : getitem2 grid_y row col = Ok y.

Lemma potential_pass_cell gaussian potential potential' v :
  potential_pass potential gaussian = Ok potential' ->
  getitem2 potential row col = Ok v ->
  exists v', potential_step x y v gaussian = Ok v' /\
             getitem2 potential' row col = Ok v'.
Proof.
  unfold potential_pass. rewrite grid_loop_cells. intros H Hv.
  eapply (foldM_cellwise nonneg cell
            (fun rc v => x <- getitem2 grid_x rc.1 rc.2 ;;
                         y <- getitem2 grid_y rc.1 rc.2 ;;
                         potential_step x y v gaussian)) in H
    as [Hin _].
  - destruct (Hin (row, col)) as (w & w' & Hw & Hu & Hw').
    { by apply elem_of_cells. }
    apply cell_Some in Hw, Hw'. simpl in *.
    rewrite x_at, y_at in Hu. simpl in Hu.
    assert (w = v) as -> by congruence. eauto.
  - intros s [r c] s' [Hr Hc] Hbody. simpl in *.
    apply bind_ok in Hbody as (x' & Hx' & Hbody).
    apply bind_ok in Hbody as (y' & Hy' & Hbody).
    apply bind_ok in Hbody as (old & Hold & Hbody).
    apply bind_ok in Hbody as (term & Hterm & Hbody).
    apply getitem2_setitem2 in Hbody as [Hnew Hframe]; [|done..].
    exists old, (old + term)%float. repeat split.
    + by apply cell_Some.
    + rewrite Hx', Hy'. simpl. unfold potential_step. by rewrite Hterm.
    + by apply cell_Some.
    + intros [r' c'] [Hr' Hc'] Hne. unfold cell. simpl in *.
      by rewrite Hframe.
  - apply NoDup_cells.
  - intros [r c] Hrc. apply elem_of_cells in Hrc. split; simpl; lia.
Qed.

Lemma potential_fold_cell gaussians potential potential' v :
  foldM potential_pass potential gaussians = Ok potential' ->
  getitem2 potential row col = Ok v ->
  exists v', foldM (potential_step x y) v gaussians = Ok v' /\
             getitem2 potential' row col = Ok v'.
Proof.
  revert potential v.
  induction gaussians as [|g gs IH]; simpl; intros potential v H Hv.
  - injection H as <-. eauto.
  - apply bind_ok in H as (p1 & H1 & H).
    destruct (potential_pass_cell _ _ _ _ H1 Hv) as (v1 & -> & Hv1). simpl.
    eauto.
Qed.

Definition cell2 (g : grid * grid) (rc : Z * Z) : option (float * float) :=
  match cell g.1 rc, cell g.2 rc with
  | Some a, Some b => Some (a, b)
  | _, _ => None
  end.

Lemma cell2_Some g rc a b :
  cell2 g rc = Some (a, b) <->
  getitem2 g.1 rc.1 rc.2 = Ok a /\ getitem2 g.2 rc.1 rc.2 = Ok b.
Proof.
  unfold cell2. rewrite <- !cell_Some.
  destruct (cell g.1 rc), (cell g.2 rc); naive_solver.
Qed.

Lemma gradient_pass_cell gaussian g g' v :
  gradient_pass g gaussian = Ok g' ->
  getitem2 g.1 row col = Ok v.1 -> getitem2 g.2 row col = Ok v.2 ->
  exists v', gradient_step x y v gaussian = Ok v' /\
             getitem2 g'.1 row col = Ok v'.1 /\ getitem2 g'.2 row col = Ok v'.2.
Proof.
  unfold gradient_pass. rewrite grid_loop_cells. intros H Hv1 Hv2.
  eapply (foldM_cellwise nonneg cell2
            (fun rc v => x <- getitem2 grid_x rc.1 rc.2 ;;
                         y <- getitem2 grid_y rc.1 rc.2 ;;
                         gradient_step x y v gaussian)) in H
    as [Hin _].
  - destruct (Hin (row, col)) as ([w1 w2] & [w1' w2'] & Hw & Hu & Hw').
    { by apply elem_of_cells. }
    apply cell2_Some in Hw as [Hw1 Hw2]. apply cell2_Some in Hw' as [Hw1' Hw2'].
    simpl in *. rewrite x_at, y_at in Hu. simpl in Hu.
    assert (v = (w1, w2)) as -> by (destruct v; simpl in *; congruence).
    eauto.
  - intros s [r c] s' [Hr Hc] Hbody. simpl in *.
    apply bind_ok in Hbody as (x' & Hx' & Hbody).
    apply bind_ok in Hbody as (y' & Hy' & Hbody).
    apply bind_ok in Hbody as (term & Hterm & Hbody).
    apply bind_ok in Hbody as (coeff & Hcoeff & Hbody).
    apply bind_ok in Hbody as (oldx & Holdx & Hbody).
    apply bind_ok in Hbody as (gx & Hgx & Hbody).
    apply bind_ok in Hbody as (oldy & Holdy & Hbody).
    apply bind_ok in Hbody as (gy & Hgy & Hbody).
    injection Hbody as <-.
    apply getitem2_setitem2 in Hgx as [Hnewx Hframex]; [|done..].
    apply getitem2_setitem2 in Hgy as [Hnewy Hframey]; [|done..].
    eexists (oldx, oldy), (_, _). repeat split.
    + by apply cell2_Some.
    + rewrite Hx', Hy'. simpl. unfold gradient_step.
      rewrite Hterm. simpl. rewrite Hcoeff. simpl. reflexivity.
    + by apply cell2_Some.
    + intros [r' c'] [Hr' Hc'] Hne. unfold cell2, cell. simpl in *.
      by rewrite Hframex, Hframey.
  - apply NoDup_cells.
  - intros [r c] Hrc. apply elem_of_cells in Hrc. split; simpl; lia.
Qed.

Lemma gradient_fold_cell gaussians g g' v :
  foldM gradient_pass g gaussians = Ok g' ->
  getitem2 g.1 row col = Ok v.1 -> getitem2 g.2 row col = Ok v.2 ->
  exists v', foldM (gradient_step x y) v gaussians = Ok v' /\
             getitem2 g'.1 row col = Ok v'.1 /\ getitem2 g'.2 row col = Ok v'.2.
Proof.
  revert g v.
  induction gaussians as [|ga gs IH]; simpl; intros g v H Hv1 Hv2.
  - injection H as <-. eauto.
  - apply bind_ok in H as (g1 & H1 & H).
    destruct (gradient_pass_cell _ _ _ _ H1 Hv1 Hv2) as (v1 & -> & Hv1' & Hv2').
    simpl. eauto.
Qed.

(** What the grid-wide evaluators return holds, at the cell, what the
    point evaluators return at the coordinates of that cell; over an empty
    feature set all of them are [0.0]. *)
Lemma evaluators_agree_at_cell gaussians :
  (forall potential,
     evaluate_potential rt grid_x grid_y gaussians = Ok potential ->
     exists v, getitem2 potential row col = Ok v /\
               evaluate_potential_at_point rt (x, y) gaussians = Ok v) /\
  (forall gx gy,
     gradient_potential rt grid_x grid_y gaussians = Ok (gx, gy) ->
     exists a b, getitem2 gx row col = Ok a /\ getitem2 gy row col = Ok b /\
                 evaluate_gradient_at_point rt (x, y) gaussians = Ok (a, b)) /\
  (exists zero_grid,
     evaluate_potential rt grid_x grid_y [] = Ok zero_grid /\
     gradient_potential rt grid_x grid_y [] = Ok (zero_grid, zero_grid) /\
     getitem2 zero_grid row col = Ok 0%float) /\
  (forall p, evaluate_potential_at_point rt p [] = Ok 0%float /\
             evaluate_gradient_at_point rt p [] = Ok (0, 0)%float).
Proof.
  pose proof (getitem2_zeros _ _ _ _ row_range col_range) as Hz.
  repeat split.
  - intros potential H. unfold evaluate_potential in H.
    destruct (potential_fold_cell _ _ _ _ H Hz) as (v & Hv & Hcell). eauto.
  - intros gx gy H. unfold gradient_potential in H.
    destruct (gradient_fold_cell gaussians _ (gx, gy) (0, 0)%float H Hz Hz)
      as ([a b] & Hv & Ha & Hb). eauto.
  - exists (zeros (rows_of grid_x) (cols_of grid_x)). done.
  - by destruct p.
  - by destruct p.
Qed.

End Evaluators.

(** *** The grid-wide evaluators return

    The loops of [evaluate_potential] and [gradient_potential] index
    [grid_x], [grid_y] and their own result at every cell, and call the
    Gaussian term there; they return as soon as all of these do. *)

Lemma setitem2_total (m : grid) r c old v :
  0 <= r -> 0 <= c -> getitem2 m r c = Ok old ->
  exists m', setitem2 m r c v = Ok m'.
Proof.
  intros Hr Hc H. unfold getitem2 in H. apply bind_ok in H as (row & Hrow & H).
  unfold setitem2. rewrite Hrow. simpl.
  apply getitem_inv in Hrow, H; [|done..].
  apply lookup_lt_Some in Hrow, H.
  rewrite setitem_ok by lia. simpl. rewrite setitem_ok by lia. eauto.
Qed.

Section Returns.
Context (rt : Runtime).
Variables grid_x grid_y : grid.

Local Notation all_cells := (cells (rows_of grid_x) (cols_of grid_x)).

(** Every cell of the range can be read. *)
Definition readable (m : grid) : Prop :=
  forall rc, rc ∈ all_cells -> exists v, getitem2 m rc.1 rc.2 = Ok v.

Lemma readable_zeros : readable (zeros (rows_of grid_x) (cols_of grid_x)).
Proof.
  intros [r c] Hrc. apply elem_of_cells in Hrc as [Hr Hc].
  exists 0%float. by apply getitem2_zeros.
Qed.

Lemma readable_setitem2 m m' r c v :
  0 <= r -> 0 <= c -> readable m -> setitem2 m r c v = Ok m' -> readable m'.
Proof.
  intros Hr Hc Hm Hset [r' c'] Hrc. simpl.
  apply getitem2_setitem2 in Hset as [Heq Hframe]; [|done..].
  destruct (decide ((r', c') = (r, c))) as [[= -> ->]|Hne]; [eauto|].
  apply elem_of_cells in Hrc as Hrange.
  rewrite Hframe by (done || lia). by apply (Hm (r', c')).
Qed.

Lemma potential_steps_return x y gaussians v0 v :
  foldM (potential_step rt x y) v0 gaussians = Ok v ->
  forall g w, g ∈ gaussians -> exists w', potential_step rt x y w g = Ok w'.
Proof.
  revert v0. induction gaussians as [|g0 gs IH]; simpl; intros v0 H g w Hg.
  - by apply elem_of_nil in Hg.
  - apply bind_ok in H as (v1 & H1 & H).
    apply elem_of_cons in Hg as [->|Hg]; [|eauto].
    unfold potential_step in *. apply bind_ok in H1 as (t & -> & _).
    simpl. eauto.
Qed.

Lemma gradient_steps_return x y gaussians v0 v :
  foldM (gradient_step rt x y) v0 gaussians = Ok v ->
  forall g w, g ∈ gaussians -> exists w', gradient_step rt x y w g = Ok w'.
Proof.
  revert v0. induction gaussians as [|g0 gs IH]; simpl; intros v0 H g w Hg.
  - by apply elem_of_nil in Hg.
  - apply bind_ok in H as (v1 & H1 & H).
    apply elem_of_cons in Hg as [->|Hg]; [|eauto].
    unfold gradient_step in *. apply bind_ok in H1 as (t & Ht & H1).
    apply bind_ok in H1 as (cf & Hcf & _).
    rewrite Ht. simpl. rewrite Hcf. simpl. eauto.
Qed.

Lemma potential_pass_total gaussian potential :
  readable potential ->
  (forall rc, rc ∈ all_cells -> exists x y w,
      getitem2 grid_x rc.1 rc.2 = Ok x /\ getitem2 grid_y rc.1 rc.2 = Ok y /\
      potential_step rt x y 0 gaussian = Ok w) ->
  exists potential',
    potential_pass rt grid_x grid_y potential gaussian = Ok potential' /\
    readable potential'.
Proof.
  intros Hread Hcells. unfold potential_pass. rewrite grid_loop_cells.
  apply (foldM_total readable); [done|].
  intros s [r c] Hrc Hs. simpl.
  destruct (Hcells _ Hrc) as (x & y & w & Hx & Hy & Hw). simpl in Hx, Hy.
  rewrite Hx. simpl. rewrite Hy. simpl.
  destruct (Hs _ Hrc) as [old Hold]. simpl in Hold. rewrite Hold. simpl.
  unfold potential_step in Hw. apply bind_ok in Hw as (t & Ht & _).
  rewrite Ht. simpl.
  apply elem_of_cells in Hrc as [Hr Hc].
  destruct (setitem2_total s r c old (old + t)%float) as [s' Hs']; [lia..|done|].
  exists s'. split; [done|]. eapply readable_setitem2; [| | |exact Hs']; done || lia.
Qed.

Lemma gradient_pass_total gaussian (g : grid * grid) :
  readable g.1 -> readable g.2 ->
  (forall rc, rc ∈ all_cells -> exists x y w,
      getitem2 grid_x rc.1 rc.2 = Ok x /\ getitem2 grid_y rc.1 rc.2 = Ok y /\
      gradient_step rt x y (0, 0)%float gaussian = Ok w) ->
  exists g',
    gradient_pass rt grid_x grid_y g gaussian = Ok g' /\
    readable g'.1 /\ readable g'.2.
Proof.
  intros Hr1 Hr2 Hcells. unfold gradient_pass. rewrite grid_loop_cells.
  apply (foldM_total (fun g : grid * grid => readable g.1 /\ readable g.2));
    [done|].
  intros s [r c] Hrc [Hs1 Hs2]. simpl.
  destruct (Hcells _ Hrc) as (x & y & w & Hx & Hy & Hw). simpl in Hx, Hy.
  rewrite Hx. simpl. rewrite Hy. simpl.
  unfold gradient_step in Hw. apply bind_ok in Hw as (t & Ht & Hw).
  apply bind_ok in Hw as (cf & Hcf & _). rewrite Ht. simpl. rewrite Hcf. simpl.
  destruct (Hs1 _ Hrc) as [oldx Holdx]. destruct (Hs2 _ Hrc) as [oldy Holdy].
  simpl in Holdx, Holdy. rewrite Holdx. simpl.
  apply elem_of_cells in Hrc as [Hr Hc].
  destruct (setitem2_total s.1 r c oldx (oldx + - (x - Gaussian.x0 gaussian) * cf)%float)
    as [gx Hgx]; [lia..|done|].
  destruct (setitem2_total s.2 r c oldy (oldy + - (y - Gaussian.y0 gaussian) * cf)%float)
    as [gy Hgy]; [lia..|done|].
  rewrite Hgx. simpl. rewrite Holdy. simpl. rewrite Hgy. simpl.
  eexists. split; [done|]. simpl.
  split.
  - eapply (readable_setitem2 s.1 gx r c); [lia | lia | done | exact Hgx].
  - eapply (readable_setitem2 s.2 gy r c); [lia | lia | done | exact Hgy].
Qed.

Lemma evaluate_potential_total gaussians :
  (forall rc, rc ∈ all_cells -> exists x y v,
      getitem2 grid_x rc.1 rc.2 = Ok x /\ getitem2 grid_y rc.1 rc.2 = Ok y /\
      evaluate_potential_at_point rt (x, y) gaussians = Ok v) ->
  exists potential, evaluate_potential rt grid_x grid_y gaussians = Ok potential.
Proof.
  intros H. unfold evaluate_potential.
  destruct (foldM_total readable (potential_pass rt grid_x grid_y) gaussians
              (zeros (rows_of grid_x) (cols_of grid_x)))
    as (p & Hp & _); [apply readable_zeros | | eauto].
  intros s g Hg Hs. apply potential_pass_total; [done|].
  intros rc Hrc. destruct (H rc Hrc) as (x & y & v & Hx & Hy & Hv).
  destruct (potential_steps_return _ _ _ _ _ Hv g 0%float Hg) as [w Hw]. eauto 6.
Qed.

Lemma gradient_potential_total gaussians :
  (forall rc, rc ∈ all_cells -> exists x y v,
      getitem2 grid_x rc.1 rc.2 = Ok x /\ getitem2 grid_y rc.1 rc.2 = Ok y /\
      evaluate_gradient_at_point rt (x, y) gaussians = Ok v) ->
  exists g, gradient_potential rt grid_x grid_y gaussians = Ok g.
Proof.
  intros H. unfold gradient_potential.
  destruct (foldM_total (fun g : grid * grid => readable g.1 /\ readable g.2)
              (gradient_pass rt grid_x grid_y) gaussians
              (zeros (rows_of grid_x) (cols_of grid_x),
               zeros (rows_of grid_x) (cols_of grid_x)))
    as (p & Hp & _); [split; apply readable_zeros | | eauto].
  intros s g Hg [Hs1 Hs2]. apply gradient_pass_total; [done..|].
  intros rc Hrc. destruct (H rc Hrc) as (x & y & v & Hx & Hy & Hv).
  destruct (gradient_steps_return _ _ _ _ _ Hv g (0, 0)%float Hg) as [w Hw].
  eauto 6.
Qed.

End Returns.

(** C4: at every cell of the grid the grid-wide evaluators hold what the
    point evaluators return at the coordinates of that cell, for the
    potential and for both components of the gradient; over an empty
    feature set all of them are [0.0]; and the grid-wide evaluators return
    whenever both grids can be read and the point evaluators return at
    every cell. *)
Theorem grid_and_point_evaluators_agree (rt : Runtime) (grid_x grid_y : grid)
    (row col : Z) (x y : float) gaussians :
  0 <= row < rows_of grid_x -> 0 <= col < cols_of grid_x ->
  getitem2 grid_x row col = Ok x -> getitem2 grid_y row col = Ok y ->
  (forall potential,
     evaluate_potential rt grid_x grid_y gaussians = Ok potential ->
     exists v, getitem2 potential row col = Ok v /\
               evaluate_potential_at_point rt (x, y) gaussians = Ok v) /\
  (forall gx gy,
     gradient_potential rt grid_x grid_y gaussians = Ok (gx, gy) ->
     exists a b, getitem2 gx row col = Ok a /\ getitem2 gy row col = Ok b /\
                 evaluate_gradient_at_point rt (x, y) gaussians = Ok (a, b)) /\
  (exists zero_grid,
     evaluate_potential rt grid_x grid_y [] = Ok zero_grid /\
     gradient_potential rt grid_x grid_y [] = Ok (zero_grid, zero_grid) /\
     getitem2 zero_grid row col = Ok 0%float) /\
  (forall p, evaluate_potential_at_point rt p [] = Ok 0%float /\
             evaluate_gradient_at_point rt p [] = Ok (0, 0)%float) /\
  ((forall rc, rc ∈ cells (rows_of grid_x) (cols_of grid_x) -> exists x y v,
      getitem2 grid_x rc.1 rc.2 = Ok x /\ getitem2 grid_y rc.1 rc.2 = Ok y /\
      evaluate_potential_at_point rt (x, y) gaussians = Ok v) ->
   exists potential,
     evaluate_potential rt grid_x grid_y gaussians = Ok potential) /\
  ((forall rc, rc ∈ cells (rows_of grid_x) (cols_of grid_x) -> exists x y v,
      getitem2 grid_x rc.1 rc.2 = Ok x /\ getitem2 grid_y rc.1 rc.2 = Ok y /\
      evaluate_gradient_at_point rt (x, y) gaussians = Ok v) ->
   exists gx gy,
     gradient_potential rt grid_x grid_y gaussians = Ok (gx, gy)).
Proof.
  intros Hrow Hcol Hx Hy.
  destruct (evaluators_agree_at_cell rt grid_x grid_y row col x y
              Hrow Hcol Hx Hy gaussians) as (Hp & Hg & Hz & Hempty).
  do 4 (split; [done|]). split.
  - apply evaluate_potential_total.
  - intros H. destruct (gradient_potential_total rt grid_x grid_y gaussians H)
      as [[gx gy] Hgrad]. eauto.
Qed.

(** One cell at the centre of one Gaussian. *)
Lemma grid_and_point_evaluators_agree_witness :
  evaluate_potential Table.table_rt [[0%float]] [[0%float]] [Examples.bump] = Ok [[5%float]] /\
  (exists gx gy,
     gradient_potential Table.table_rt [[0%float]] [[0%float]] [Examples.bump] = Ok (gx, gy)) /\
  exists v a b,
    getitem2 [[5%float]] 0 0 = Ok v /\
    evaluate_potential_at_point Table.table_rt (0, 0)%float [Examples.bump] = Ok v /\
    evaluate_gradient_at_point Table.table_rt (0, 0)%float [Examples.bump] = Ok (a, b).
Proof.
  destruct (grid_and_point_evaluators_agree Table.table_rt
              [[0%float]] [[0%float]] 0 0 0%float 0%float [Examples.bump])
    as (Hp & Hg & _ & _ & _ & Hret);
    [unfold rows_of; simpl; lia | unfold cols_of; simpl; lia | reflexivity..|].
  assert (evaluate_potential Table.table_rt [[0%float]] [[0%float]]
            [Examples.bump] = Ok [[5%float]]) as Hpot
    by (vm_compute; reflexivity).
  destruct Hret as (gx & gy & Hgrad).
  { intros [r c] Hrc. apply elem_of_cells in Hrc as [Hr Hc].
    unfold rows_of, cols_of in Hr, Hc. simpl in Hr, Hc.
    assert (r = 0) as -> by lia. assert (c = 0) as -> by lia.
    exists 0%float, 0%float. eexists.
    do 2 (split; [reflexivity|]). vm_compute. reflexivity. }
  destruct (Hp _ Hpot) as (v & Hv & Hpoint).
  destruct (Hg _ _ Hgrad) as (a & b & _ & _ & Hpg).
  split; [exact Hpot|]. split; [eauto|]. exists v, a, b. done.
Defined.

End PesFacts.

(** ** [parse_configuration] *)

Module ParseFacts.
Import Pes.

Section Parse.
Context (rt : Runtime).

Lemma to_float_numeric v : numeric v = true -> exists f, to_float rt v = Ok f.
Proof.
  destruct v; simpl; try discriminate; eauto.
  destruct (float_of_int z); simpl; [eauto | discriminate].
Qed.

Lemma numeric_field_get d key default :
  numeric_field d key = true -> numeric default = true ->
  exists f, to_float rt (get d key default) = Ok f.
Proof.
  unfold numeric_field, get. intros Hd Hdef.
  destruct (lookup_key d key); by apply to_float_numeric.
Qed.

(** *** States *)

Lemma state_rejected mapping :
  radius_not_positive rt mapping = true ->
  CircularState.from_mapping rt mapping = Raise ValueError.
Proof.
  unfold radius_not_positive, CircularState.from_mapping.
  destruct (value_get mapping "radius" (VFloat 1)) as [r|]; simpl; [|done].
  destruct (to_float rt r) as [radius|]; simpl; [|done]. by intros ->.
Qed.

Lemma state_accepted mapping state :
  CircularState.from_mapping rt mapping = Ok state ->
  (CircularState.radius state <=? 0)%float = false /\
  radius_not_positive rt mapping = false.
Proof.
  unfold radius_not_positive, CircularState.from_mapping. intros H.
  apply bind_ok in H as (r & Hr & H). apply bind_ok in H as (radius & Hrad & H).
  rewrite Hr. simpl. rewrite Hrad. simpl.
  destruct (radius <=? 0)%float eqn:E; [discriminate|].
  inv_bind. subst state. done.
Qed.

Lemma state_typed mapping :
  typed_state mapping = true ->
  (CircularState.from_mapping rt mapping = Raise ValueError /\
   radius_not_positive rt mapping = true) \/
  exists state, CircularState.from_mapping rt mapping = Ok state.
Proof.
  destruct mapping as [| | | | | |d]; try discriminate. simpl.
  intros H. apply andb_prop in H as [H Hy]. apply andb_prop in H as [Hr Hx].
  unfold CircularState.from_mapping, radius_not_positive. simpl.
  destruct (numeric_field_get d "radius" (VFloat 1) Hr) as [radius ->]; [done|].
  simpl. destruct (radius <=? 0)%float; [by left | right].
  destruct (numeric_field_get d "x0" (VFloat 0) Hx) as [x ->]; [done|].
  destruct (numeric_field_get d "y0" (VFloat 0) Hy) as [y ->]; [done|].
  simpl. eauto.
Qed.

(** *** The grid *)

Lemma grid_rejected mapping :
  grid_not_increasing rt mapping = true ->
  GridSpec.from_mapping rt mapping = Raise ValueError.
Proof.
  unfold grid_not_increasing, GridSpec.from_mapping. intros H.
  apply andb_prop in H as [-> H]. simpl.
  destruct (value_get mapping "minimum" _) as [lo|]; simpl in *; [|done].
  destruct (to_float rt lo) as [minimum|]; simpl in *; [|done].
  destruct (value_get mapping "maximum" _) as [hi|]; simpl in *; [|done].
  destruct (to_float rt hi) as [maximum|]; simpl in *; [|done].
  by rewrite H.
Qed.

Lemma grid_accepted mapping spec :
  GridSpec.from_mapping rt mapping = Ok spec ->
  10 <= GridSpec.resolution spec /\
  (GridSpec.maximum spec <=? GridSpec.minimum spec)%float = false /\
  grid_not_increasing rt mapping = false.
Proof.
  unfold grid_not_increasing, GridSpec.from_mapping.
  destruct (truthy mapping); simpl.
  - intros H. apply bind_ok in H as (lo & Hlo & H).
    apply bind_ok in H as (minimum & Hmin & H).
    apply bind_ok in H as (hi & Hhi & H).
    apply bind_ok in H as (maximum & Hmax & H).
    rewrite Hlo. simpl. rewrite Hmin. simpl. rewrite Hhi. simpl.
    rewrite Hmax. simpl.
    destruct (maximum <=? minimum)%float eqn:E; [discriminate|].
    inv_bind. subst spec. simpl. repeat split; try done; lia.
  - intros [= <-]. simpl. repeat split; try done; lia.
Qed.

Lemma grid_typed mapping :
  typed_grid mapping = true ->
  (GridSpec.from_mapping rt mapping = Raise ValueError /\
   grid_not_increasing rt mapping = true) \/
  exists spec, GridSpec.from_mapping rt mapping = Ok spec.
Proof.
  destruct mapping as [| | | | | |d]; try discriminate.
  - intros _. right. eexists. reflexivity.
  - simpl. intros H. apply andb_prop in H as [H Hres].
    apply andb_prop in H as [Hlo Hhi].
    unfold GridSpec.from_mapping, grid_not_increasing.
    destruct (truthy (VDict d)); simpl; [|right; eauto].
    destruct (numeric_field_get d "minimum" (VFloat (-4)) Hlo) as [lo ->]; [done|].
    destruct (numeric_field_get d "maximum" (VFloat 4) Hhi) as [hi ->]; [done|].
    simpl. destruct (hi <=? lo)%float; [by left | right].
    unfold get. destruct (lookup_key d "resolution") as [[]|]; try discriminate;
      simpl; eauto.
Qed.

(** *** The features *)

Lemma max_floor s c : (Py.max s c <? c)%float = false.
Proof.
  unfold Py.max. destruct (s <? c)%float eqn:E; [|done].
  apply ltb_false. float_order. right. right. by right.
Qed.

Lemma gaussian_accepted mapping g :
  Gaussian.from_mapping rt mapping = Ok g ->
  (Gaussian.sigma g <? 1e-6)%float = false.
Proof.
  unfold Gaussian.from_mapping. intros H. inv_bind. subst g. simpl.
  apply max_floor.
Qed.

Lemma gaussian_typed mapping :
  typed_gaussian mapping = true ->
  exists g, Gaussian.from_mapping rt mapping = Ok g.
Proof.
  destruct mapping as [| | | | | |d]; try discriminate. simpl.
  intros H. apply andb_prop in H as [H Hy]. apply andb_prop in H as [H Hx].
  apply andb_prop in H as [Ha Hs].
  unfold Gaussian.from_mapping. simpl.
  destruct (numeric_field_get d "amplitude" (VFloat 0) Ha) as [a ->]; [done|].
  destruct (numeric_field_get d "sigma" (VFloat 1) Hs) as [s ->]; [done|].
  destruct (numeric_field_get d "x0" (VFloat 0) Hx) as [x ->]; [done|].
  destruct (numeric_field_get d "y0" (VFloat 0) Hy) as [y ->]; [done|].
  simpl. eauto.
Qed.

Lemma to_gaussians_accepted items gaussians g :
  _to_gaussians rt items = Ok gaussians -> g ∈ gaussians ->
  (Gaussian.sigma g <? 1e-6)%float = false.
Proof.
  unfold _to_gaussians. intros H Hg. apply bind_ok in H as (l & _ & H).
  revert gaussians H Hg. induction l as [|m l IH]; simpl; intros gs H Hg.
  - injection H as <-. by apply elem_of_nil in Hg.
  - apply bind_ok in H as (g0 & Hg0 & H). apply bind_ok in H as (gs' & Hgs' & H).
    injection H as <-. apply elem_of_cons in Hg as [->|Hg].
    + by eapply gaussian_accepted.
    + eauto.
Qed.

Lemma to_gaussians_typed l :
  forallb typed_gaussian l = true ->
  exists gaussians, _to_gaussians rt (VList l) = Ok gaussians.
Proof.
  unfold _to_gaussians. simpl. intros H. apply mapM_total.
  intros m Hm. apply gaussian_typed.
  rewrite forallb_forall in H. apply H. by apply list_elem_of_In.
Qed.

Lemma default_gaussians :
  exists d gaussians, subscript default_configuration "gaussians" = Ok d /\
                      _to_gaussians rt d = Ok gaussians.
Proof. do 2 eexists. split; reflexivity. Qed.

Lemma positive_of_floor s :
  (s <? 1e-6)%float = false -> is_nan s = false -> (0 <? s)%float = true.
Proof.
  intros H Hs. apply ltb_true. split; [done|]. split; [done|].
  float_order. destruct H as [?|[H|H]]; [congruence | discriminate H |].
  eapply lt3_le3_trans; [|exact H]. vm_compute. left. reflexivity.
Qed.

(** *** Integers beyond the range of the floats *)

Lemma float_of_int_raises z e : float_of_int z = Raise e -> e = OverflowError.
Proof.
  unfold float_of_int.
  destruct (binary_normalize prec emax z 0 false); congruence.
Qed.

Lemma number_field_get d key default :
  number_field d key = true -> numeric default = true ->
  (exists f, to_float rt (get d key default) = Ok f /\
             numeric_field d key = true) \/
  (to_float rt (get d key default) = Raise OverflowError /\
   numeric_field d key = false).
Proof.
  unfold number_field, numeric_field, get. intros Hd Hdef.
  destruct (lookup_key d key) as [v|].
  - destruct v; try discriminate Hd; simpl.
    + destruct (float_of_int z) as [f|e] eqn:E; simpl; [left; eauto | right].
      by apply float_of_int_raises in E as ->.
    + left. eauto.
  - left. destruct (to_float_numeric default Hdef) as [f ->]. eauto.
Qed.

Lemma state_shaped mapping :
  shaped_state mapping = true ->
  (CircularState.from_mapping rt mapping = Raise ValueError /\
   radius_not_positive rt mapping = true) \/
  (CircularState.from_mapping rt mapping = Raise OverflowError /\
   typed_state mapping = false) \/
  (exists state, CircularState.from_mapping rt mapping = Ok state /\
                 typed_state mapping = true).
Proof.
  destruct mapping as [| | | | | |d]; try discriminate.
  cbn [shaped_state typed_state].
  intros H. apply andb_prop in H as [H Hy]. apply andb_prop in H as [Hr Hx].
  unfold CircularState.from_mapping, radius_not_positive.
  cbn [value_get bind].
  destruct (number_field_get d "radius" (VFloat 1) Hr)
    as [(radius & -> & ->)|[-> ->]]; [done| |by right; left].
  cbn [bind]. destruct (radius <=? 0)%float; [by left | right].
  destruct (number_field_get d "x0" (VFloat 0) Hx)
    as [(x & -> & ->)|[-> ->]]; [done| |by left].
  destruct (number_field_get d "y0" (VFloat 0) Hy)
    as [(y & -> & ->)|[-> ->]]; [done| |by left].
  cbn [bind]. right. eauto.
Qed.

Lemma grid_shaped mapping :
  shaped_grid mapping = true ->
  (GridSpec.from_mapping rt mapping = Raise ValueError /\
   grid_not_increasing rt mapping = true) \/
  (GridSpec.from_mapping rt mapping = Raise OverflowError /\
   typed_grid mapping = false) \/
  (exists spec, GridSpec.from_mapping rt mapping = Ok spec /\
                typed_grid mapping = true).
Proof.
  destruct mapping as [| | | | | |d]; try discriminate.
  - intros _. right. right. eexists. split; reflexivity.
  - destruct d as [|kv d']; [intros _; right; right; eexists; split; reflexivity|].
    set (d := kv :: d'). cbn [shaped_grid typed_grid].
    intros H. apply andb_prop in H as [H Hres].
    apply andb_prop in H as [Hlo Hhi].
    unfold GridSpec.from_mapping, grid_not_increasing.
    cbn [truthy d negb value_get bind andb].
    destruct (number_field_get d "minimum" (VFloat (-4)) Hlo)
      as [(lo & -> & ->)|[-> ->]]; [done| |by right; left].
    destruct (number_field_get d "maximum" (VFloat 4) Hhi)
      as [(hi & -> & ->)|[-> ->]]; [done| |by right; left].
    cbn [bind]. destruct (hi <=? lo)%float; [by left | right; right].
    rewrite Hres. unfold get.
    destruct (lookup_key d "resolution") as [[]|]; try discriminate Hres;
      cbn [to_int bind]; eauto.
Qed.

Lemma gaussian_shaped mapping :
  shaped_gaussian mapping = true ->
  (Gaussian.from_mapping rt mapping = Raise OverflowError /\
   typed_gaussian mapping = false) \/
  (exists g, Gaussian.from_mapping rt mapping = Ok g /\
             typed_gaussian mapping = true).
Proof.
  destruct mapping as [| | | | | |d]; try discriminate.
  cbn [shaped_gaussian typed_gaussian].
  intros H. apply andb_prop in H as [H Hy]. apply andb_prop in H as [H Hx].
  apply andb_prop in H as [Ha Hs].
  unfold Gaussian.from_mapping. cbn [value_get bind].
  destruct (number_field_get d "amplitude" (VFloat 0) Ha)
    as [(a & -> & ->)|[-> ->]]; [done| |by left].
  destruct (number_field_get d "sigma" (VFloat 1) Hs)
    as [(sg & -> & ->)|[-> ->]]; [done| |by left].
  destruct (number_field_get d "x0" (VFloat 0) Hx)
    as [(x & -> & ->)|[-> ->]]; [done| |by left].
  destruct (number_field_get d "y0" (VFloat 0) Hy)
    as [(y & -> & ->)|[-> ->]]; [done| |by left].
  cbn [bind]. right. eauto.
Qed.

Lemma to_gaussians_shaped l :
  forallb shaped_gaussian l = true ->
  (_to_gaussians rt (VList l) = Raise OverflowError /\
   forallb typed_gaussian l = false) \/
  (exists gaussians, _to_gaussians rt (VList l) = Ok gaussians /\
                     forallb typed_gaussian l = true).
Proof.
  unfold _to_gaussians. cbn [iterate bind].
  induction l as [|m l IH]; cbn [forallb mapM]; intros H; [right; eauto|].
  apply andb_prop in H as [Hm Hl].
  destruct (gaussian_shaped m Hm) as [[-> ->]|(g & -> & ->)]; [by left|].
  cbn [bind andb].
  destruct (IH Hl) as [[-> ->]|(gs & -> & ->)]; [by left|].
  cbn [bind]. right. eauto.
Qed.

Lemma typed_is_shaped payload :
  typed_payload payload = true -> shaped_payload payload = true.
Proof.
  assert (forall v, numeric v = true -> number v = true) as Hnum
    by (by intros []).
  assert (forall d key, numeric_field d key = true -> number_field d key = true)
    as Hfield.
  { intros d key. unfold numeric_field, number_field.
    destruct (lookup_key d key); [apply Hnum | done]. }
  assert (forall v, typed_state v = true -> shaped_state v = true) as Hstate.
  { intros []; try done. cbn [typed_state shaped_state]. intros H.
    apply andb_prop in H as [H Hy]. apply andb_prop in H as [Hr Hx].
    by rewrite !Hfield. }
  assert (forall v, typed_gaussian v = true -> shaped_gaussian v = true) as Hg.
  { intros []; try done. cbn [typed_gaussian shaped_gaussian]. intros H.
    apply andb_prop in H as [H Hy]. apply andb_prop in H as [H Hx].
    apply andb_prop in H as [Ha Hs]. by rewrite !Hfield. }
  unfold typed_payload, shaped_payload. intros H.
  apply andb_prop in H as [H HB]. apply andb_prop in H as [H HA].
  apply andb_prop in H as [HG HL].
  rewrite (Hstate _ HA), (Hstate _ HB), !andb_true_r.
  apply andb_true_intro. split.
  - destruct (get payload "grid" VNone); try done.
    cbn [typed_grid shaped_grid] in *.
    apply andb_prop in HG as [HG ->]. apply andb_prop in HG as [Hlo Hhi].
    by rewrite !Hfield.
  - destruct (get payload "gaussians" (VList [])); try done.
    rewrite forallb_forall in HL. apply forallb_forall. auto.
Qed.

(** A configuration of the documented shape is refused for a radius or a
    bound ([ValueError]) or for an integer that [float] cannot hold
    ([OverflowError]); it is accepted only with every integer within
    range. *)
Lemma parse_shaped payload :
  shaped_payload payload = true ->
  (exists e, parse_configuration rt payload = Raise e /\
             ((e = ValueError /\ rejected rt payload = true) \/
              (e = OverflowError /\ typed_payload payload = false))) \/
  (exists r, parse_configuration rt payload = Ok r /\
             typed_payload payload = true).
Proof.
  unfold shaped_payload, typed_payload, rejected, parse_configuration.
  intros H. apply andb_prop in H as [H HB]. apply andb_prop in H as [H HA].
  apply andb_prop in H as [HG HL].
  destruct (grid_shaped _ HG) as [[-> ->]|[[-> ->]|(spec & -> & ->)]];
    cbn [bind andb orb].
  { left. eexists. split; [done|]. by left. }
  { left. eexists. split; [done|]. by right. }
  destruct (get payload "gaussians" (VList [])) as [| | | | |l|];
    try discriminate.
  destruct (to_gaussians_shaped l HL) as [[-> ->]|(gaussians & -> & ->)];
    cbn [bind andb].
  { left. eexists. split; [done|]. by right. }
  assert (exists gs, match gaussians with
                     | [] => d <- subscript default_configuration "gaussians" ;;
                             _to_gaussians rt d
                     | _ :: _ => Ok gaussians
                     end = Ok gs) as [gs ->].
  { destruct gaussians; [|eauto].
    destruct default_gaussians as (d & dg & -> & Hdg). cbn [bind]. eauto. }
  cbn [bind].
  destruct (state_shaped _ HA) as [[-> ->]|[[-> ->]|(a & -> & ->)]];
    cbn [bind andb].
  { left. eexists. split; [done|]. left. by rewrite orb_true_r. }
  { left. eexists. split; [done|]. by right. }
  destruct (state_shaped _ HB) as [[-> ->]|[[-> ->]|(b & -> & ->)]];
    cbn [bind andb].
  { left. eexists. split; [done|]. left. by rewrite orb_true_r. }
  { left. eexists. split; [done|]. by right. }
  right. eauto.
Qed.

(** *** The resolution *)

Lemma grid_resolution mapping spec :
  GridSpec.from_mapping rt mapping = Ok spec ->
  (truthy mapping = false ->
   spec = {| GridSpec.minimum := -4; GridSpec.maximum := 4;
             GridSpec.resolution := 60 |}) /\
  (forall d, mapping = VDict d ->
     match lookup_key d "resolution" with
     | Some v => exists r, to_int rt v = Ok r /\
                           GridSpec.resolution spec = Z.max r 10
     | None => GridSpec.resolution spec = 60
     end).
Proof.
  unfold GridSpec.from_mapping. destruct (truthy mapping) eqn:Ht; cbn [negb].
  - intros H. split; [done|]. intros d ->.
    apply bind_ok in H as (lo & Hlo & H).
    apply bind_ok in H as (minimum & Hmin & H).
    apply bind_ok in H as (hi & Hhi & H).
    apply bind_ok in H as (maximum & Hmax & H).
    destruct (maximum <=? minimum)%float; [discriminate|].
    apply bind_ok in H as (r & Hr & H). apply bind_ok in H as (res & Hres & H).
    injection H as <-. cbn [GridSpec.resolution].
    cbn [value_get] in Hr. injection Hr as <-. unfold get in Hres.
    destruct (lookup_key d "resolution") as [v|]; [eauto|].
    cbn [to_int] in Hres. by injection Hres as <-.
  - intros [= <-]. split; [done|]. intros d ->.
    destruct d; [reflexivity | discriminate Ht].
Qed.

Lemma parse_rejects payload :
  rejected rt payload = true ->
  exists e, parse_configuration rt payload = Raise e.
Proof.
  unfold rejected, parse_configuration. intros H.
  apply orb_prop in H as [H|HB]; [apply orb_prop in H as [HG|HA]|].
  - rewrite (grid_rejected _ HG). cbn [bind]. eauto.
  - destruct (GridSpec.from_mapping _ _); cbn [bind]; [|eauto].
    destruct (_to_gaussians _ _) as [[|g gs]|]; cbn [bind]; [| |eauto].
    + destruct default_gaussians as (d & dg & -> & Hdg). cbn [bind].
      rewrite Hdg. cbn [bind].
      rewrite (state_rejected _ HA). cbn [bind]. eauto.
    + rewrite (state_rejected _ HA). cbn [bind]. eauto.
  - destruct (GridSpec.from_mapping _ _); cbn [bind]; [|eauto].
    destruct (_to_gaussians _ _) as [[|g gs]|]; cbn [bind]; [| |eauto].
    + destruct default_gaussians as (d & dg & -> & Hdg). cbn [bind].
      rewrite Hdg. cbn [bind].
      destruct (CircularState.from_mapping _ _); cbn [bind]; [|eauto].
      rewrite (state_rejected _ HB). cbn [bind]. eauto.
    + destruct (CircularState.from_mapping _ _); cbn [bind]; [|eauto].
      rewrite (state_rejected _ HB). cbn [bind]. eauto.
Qed.

Lemma parse_rejects_only payload e :
  typed_payload payload = true ->
  parse_configuration rt payload = Raise e ->
  e = ValueError /\ rejected rt payload = true.
Proof.
  unfold typed_payload, rejected, parse_configuration. intros H.
  apply andb_prop in H as [H HB]. apply andb_prop in H as [H HA].
  apply andb_prop in H as [HG HL].
  destruct (grid_typed _ HG) as [[-> ->]|[spec ->]]; cbn [bind].
  { intros [= <-]. done. }
  destruct (get payload "gaussians" (VList [])) as [| | | | |l|]; try discriminate.
  destruct (to_gaussians_typed l HL) as [gaussians ->]. cbn [bind].
  assert (exists gs, match gaussians with
                     | [] => d <- subscript default_configuration "gaussians" ;;
                             _to_gaussians rt d
                     | _ :: _ => Ok gaussians
                     end = Ok gs) as [gs ->].
  { destruct gaussians; [|eauto].
    destruct default_gaussians as (d & dg & -> & Hdg). cbn [bind]. eauto. }
  cbn [bind]. destruct (state_typed _ HA) as [[-> ->]|[a Ha]]; cbn [bind].
  { intros [= <-]. split; [done|]. by rewrite orb_true_r. }
  rewrite Ha. cbn [bind].
  destruct (state_typed _ HB) as [[-> ->]|[b ->]]; cbn [bind].
  { intros [= <-]. split; [done|]. by rewrite orb_true_r. }
  discriminate.
Qed.

Lemma parse_grid payload spec gaussians state_a state_b :
  parse_configuration rt payload = Ok (spec, gaussians, state_a, state_b) ->
  (truthy (get payload "grid" VNone) = false ->
   spec = {| GridSpec.minimum := -4; GridSpec.maximum := 4;
             GridSpec.resolution := 60 |}) /\
  (forall d, get payload "grid" VNone = VDict d ->
     match lookup_key d "resolution" with
     | Some v => exists r, to_int rt v = Ok r /\
                           GridSpec.resolution spec = Z.max r 10
     | None => GridSpec.resolution spec = 60
     end).
Proof.
  unfold parse_configuration. intros H.
  apply bind_ok in H as (spec' & Hspec & H).
  apply bind_ok in H as (gs0 & Hgs0 & H).
  apply bind_ok in H as (gs & Hgs & H).
  apply bind_ok in H as (a & Ha & H).
  apply bind_ok in H as (b & Hb & H).
  injection H as -> -> -> ->. by apply grid_resolution.
Qed.

Lemma parse_accepts payload spec gaussians state_a state_b :
  parse_configuration rt payload = Ok (spec, gaussians, state_a, state_b) ->
  rejected rt payload = false /\
  10 <= GridSpec.resolution spec /\
  (GridSpec.maximum spec <=? GridSpec.minimum spec)%float = false /\
  (CircularState.radius state_a <=? 0)%float = false /\
  (CircularState.radius state_b <=? 0)%float = false /\
  forall g, g ∈ gaussians -> (Gaussian.sigma g <? 1e-6)%float = false.
Proof.
  unfold parse_configuration, rejected. intros H.
  apply bind_ok in H as (spec' & Hspec & H).
  apply bind_ok in H as (gs0 & Hgs0 & H).
  apply bind_ok in H as (gs & Hgs & H).
  apply bind_ok in H as (a & Ha & H).
  apply bind_ok in H as (b & Hb & H).
  injection H as -> -> -> ->.
  apply grid_accepted in Hspec as (Hres & Hgrid & ->).
  apply state_accepted in Ha as [Hra ->].
  apply state_accepted in Hb as [Hrb ->].
  repeat split; try done.
  intros g Hg. destruct gs0 as [|g0 gs0].
  - apply bind_ok in Hgs as (d & _ & Hgs). by eapply to_gaussians_accepted.
  - injection Hgs as <-. by eapply to_gaussians_accepted.
Qed.

(** C9, as the code has it.  A configuration with a state radius [<= 0]
    or a grid maximum [<=] the minimum is refused.  A configuration of the
    documented shape (its numbers floats or integers of any size) is
    refused exactly when it has such a radius or bound, or an integer that
    [float] cannot hold: the error is [ValueError] and a radius or bound
    is out of order, or it is [OverflowError] and an integer is out of
    range; with every integer within range it is refused only for a radius
    or bound, with [ValueError].  Whatever the parser raises is what
    [compute_visualisation] raises, with no result.  In an accepted
    configuration the grid is [(-4, 4, 60)] if none (or an empty one) was
    supplied, and otherwise its resolution is that supplied, as an integer,
    or 10 if that is greater, 60 if none was supplied; so [resolution >= 10];
    and, where the values are numbers (not NaN), [maximum > minimum],
    [radius > 0], [sigma > 0]. *)
Theorem parse_configuration_validates payload :
  (rejected rt payload = true ->
   exists e, parse_configuration rt payload = Raise e) /\
  (typed_payload payload = true ->
   forall e, parse_configuration rt payload = Raise e ->
             e = ValueError /\ rejected rt payload = true) /\
  (shaped_payload payload = true ->
   (forall e, parse_configuration rt payload = Raise e ->
              (e = ValueError /\ rejected rt payload = true) \/
              (e = OverflowError /\ typed_payload payload = false)) /\
   (typed_payload payload = false ->
    exists e, parse_configuration rt payload = Raise e)) /\
  (forall e h, parse_configuration rt payload = Raise e ->
               App.compute_visualisation rt payload h = Raise e) /\
  (forall spec gaussians state_a state_b,
     parse_configuration rt payload = Ok (spec, gaussians, state_a, state_b) ->
     rejected rt payload = false /\
     (truthy (get payload "grid" VNone) = false ->
      spec = {| GridSpec.minimum := -4; GridSpec.maximum := 4;
                GridSpec.resolution := 60 |}) /\
     (forall d, get payload "grid" VNone = VDict d ->
        match lookup_key d "resolution" with
        | Some v => exists r, to_int rt v = Ok r /\
                              GridSpec.resolution spec = Z.max r 10
        | None => GridSpec.resolution spec = 60
        end) /\
     10 <= GridSpec.resolution spec /\
     (is_nan (GridSpec.minimum spec) = false ->
      is_nan (GridSpec.maximum spec) = false ->
      (GridSpec.minimum spec <? GridSpec.maximum spec)%float = true) /\
     (is_nan (CircularState.radius state_a) = false ->
      (0 <? CircularState.radius state_a)%float = true) /\
     (is_nan (CircularState.radius state_b) = false ->
      (0 <? CircularState.radius state_b)%float = true) /\
     (forall g, g ∈ gaussians -> is_nan (Gaussian.sigma g) = false ->
                (0 <? Gaussian.sigma g)%float = true)).
Proof.
  split; [apply parse_rejects|]. split; [intros; by apply parse_rejects_only|].
  split; [|split].
  - intros Hshape. split.
    + intros e He.
      destruct (parse_shaped payload Hshape) as [(e' & He' & H)|(r & Hr & _)];
        congruence.
    + intros Ht.
      destruct (parse_shaped payload Hshape) as [(e' & He' & _)|(r & _ & Hr)];
        [eauto | congruence].
  - intros e h H. unfold App.compute_visualisation. by rewrite H.
  - intros spec gaussians a b H.
    pose proof (parse_grid _ _ _ _ _ H) as [Hdef Hsup].
    apply parse_accepts in H as (Hrej & Hres & Hgrid & Ha & Hb & Hs).
    split; [done|]. split; [done|]. split; [done|].
    repeat split; try done.
    + intros Hmin Hmax. by apply not_leb_ltb.
    + intros Hnan. by apply not_leb_ltb.
    + intros Hnan. by apply not_leb_ltb.
    + intros g Hg Hnan. apply positive_of_floor; auto.
Qed.

End Parse.

(** A grid of resolution 3 is accepted with resolution 10, an integer
    radius as a float. *)
Lemma parse_configuration_validates_witness :
  exists spec gaussians state_a state_b,
    parse_configuration Table.table_rt Examples.coarse_payload
    = Ok (spec, gaussians, state_a, state_b) /\
    shaped_payload Examples.coarse_payload = true /\
    rejected Table.table_rt Examples.coarse_payload = false /\
    GridSpec.resolution spec = 10 /\
    (GridSpec.minimum spec <? GridSpec.maximum spec)%float = true /\
    (0 <? CircularState.radius state_a)%float = true /\
    (0 <? CircularState.radius state_b)%float = true.
Proof.
  destruct (parse_configuration Table.table_rt Examples.coarse_payload)
    as [[[[spec gaussians] a] b]|] eqn:E; [|vm_compute in E; discriminate E].
  destruct (parse_configuration_validates Table.table_rt Examples.coarse_payload)
    as (_ & _ & _ & _ & H).
  destruct (H spec gaussians a b E) as (Hrej & _ & Hres & _ & Hgrid & Ha & Hb & _).
  specialize (Hres _ eq_refl). cbn in Hres. destruct Hres as (r & Hr & Hres).
  injection Hr as <-.
  exists spec, gaussians, a, b. split; [reflexivity|]. split; [reflexivity|].
  vm_compute in E. injection E as <- <- <- <-.
  split; [exact Hrej|]. split; [exact Hres|].
  split; [apply Hgrid; reflexivity|].
  split; [apply Ha; reflexivity | apply Hb; reflexivity].
Defined.

(** An integer radius that [float] cannot hold: the payload has the
    documented shape, no radius or bound is out of order, and the parser
    raises [OverflowError]. *)
Lemma parse_configuration_overflows_on_huge_radius :
  parse_configuration Table.table_rt
    [("stateA"%string, VDict [("radius"%string, VInt (10 ^ 400))])]
  = Raise OverflowError /\
  shaped_payload [("stateA"%string, VDict [("radius"%string, VInt (10 ^ 400))])]
  = true /\
  typed_payload [("stateA"%string, VDict [("radius"%string, VInt (10 ^ 400))])]
  = false /\
  rejected Table.table_rt
    [("stateA"%string, VDict [("radius"%string, VInt (10 ^ 400))])] = false.
Proof. repeat split; vm_compute; reflexivity. Qed.

(** A resolution below 10 is raised to 10, one above is kept. *)
Lemma parse_configuration_floors_resolution :
  (forall z,
     GridSpec.from_mapping Table.table_rt (VDict [("resolution"%string, VInt z)])
     = Ok {| GridSpec.minimum := -4; GridSpec.maximum := 4;
             GridSpec.resolution := Z.max z 10 |}) /\
  Z.max 3 10 = 10 /\ Z.max 25 10 = 25.
Proof. repeat split. Qed.

(** C9 as stated fails: a null state makes the parser raise although no
    radius and no grid bound is out of order. *)
Lemma parse_configuration_raises_on_null_state :
  parse_configuration Table.table_rt [("stateA"%string, VNone)]
  = Raise AttributeError /\
  rejected Table.table_rt [("stateA"%string, VNone)] = false.
Proof. split; reflexivity. Qed.

(** A radius that is not a number passes the guard [radius <= 0]. *)
Lemma parse_configuration_accepts_nan_radius :
  exists spec gaussians state_a state_b,
    parse_configuration Table.table_rt
      [("stateA"%string, VDict [("radius"%string, VFloat nan)])]
    = Ok (spec, gaussians, state_a, state_b) /\
    (0 <? CircularState.radius state_a)%float = false.
Proof. do 4 eexists. split; [vm_compute; reflexivity | reflexivity]. Qed.

End ParseFacts.

(** ** [_state_entry_point] *)

Module AppFacts.
Import Pes PesFacts App.

Lemma ltb_irrefl x : (x <? x)%float = false.
Proof.
  apply ltb_false. destruct (is_nan x) eqn:E; [by left|]. right. right. by right.
Qed.

Lemma ltb_asym x y : (x <? y)%float = true -> (y <? x)%float = false.
Proof.
  intros H. apply ltb_false. float_order. right. right. by left.
Qed.

Lemma ltb_not_leb x y : (x <? y)%float = true -> (y <=? x)%float = false.
Proof.
  intros H. apply leb_false. float_order. right. by right.
Qed.

Lemma ltb_false_trans x y z :
  (x <? y)%float = false -> (z <? y)%float = true -> (x <? z)%float = false.
Proof.
  intros H1 H2. destruct (x <? z)%float eqn:E; [|done].
  by rewrite (ltb_trans _ _ _ E H2) in H1.
Qed.

Lemma leb_false_trans x y z :
  (x <? y)%float = false -> (z <? y)%float = true -> (x <=? z)%float = false.
Proof.
  intros H1 H2. destruct (x <=? z)%float eqn:E; [|done].
  by rewrite (leb_ltb_trans _ _ _ E H2) in H1.
Qed.

Section EntryPoint.
Context (rt : Runtime).
Variables grid_x grid_y potential : grid.
Variable state : CircularState.t.

Local Notation inside_at := (inside_at rt grid_x grid_y potential state).
Local Notation step :=
  (fun b (rc : Z * Z) => entry_step rt grid_x grid_y potential state b rc.1 rc.2).

Lemma entry_step_cases b rc b' :
  step b rc = Ok b' ->
  (b' = b /\ forall q e, inside_at rc q e -> (e <? b.2)%float = false) \/
  (exists q e, inside_at rc q e /\ (e <? b.2)%float = true /\ b' = (q, e)).
Proof.
  unfold entry_step, App.inside_at. intros H.
  apply bind_ok in H as (x & Hx & H). apply bind_ok in H as (y & Hy & H).
  apply bind_ok in H as (inside & Hin & H). destruct inside.
  - apply bind_ok in H as (e & He & H).
    destruct (e <? b.2)%float eqn:Hlt; injection H as <-.
    + right. exists (x, y), e. done.
    + left. split; [done|]. intros [qx qy] e' (Hx' & Hy' & _ & He'). simpl in *.
      congruence.
  - injection H as <-. left. split; [done|].
    intros [qx qy] e' (Hx' & Hy' & Hin' & _). simpl in *.
    rewrite Hx in Hx'. rewrite Hy in Hy'. injection Hx' as <-. injection Hy' as <-.
    congruence.
Qed.

Lemma inside_at_fun rc q e q' e' :
  inside_at rc q e -> inside_at rc q' e' -> q = q' /\ e = e'.
Proof.
  intros (Hx & Hy & _ & He) (Hx' & Hy' & _ & He').
  destruct q, q'. simpl in *. split; congruence.
Qed.

(** The loop keeps the first cell with the lowest energy below the one it
    started with. *)
Lemma entry_fold cs b0 b :
  foldM step b0 cs = Ok b ->
  (forall rc q e, rc ∈ cs -> inside_at rc q e -> (e <? b.2)%float = false) /\
  ((b = b0) \/
   (exists (i : nat) rc,
       cs !! i = Some rc /\ inside_at rc b.1 b.2 /\
       (b.2 <? b0.2)%float = true /\
       forall (j : nat) rc' q' e',
         (j < i)%nat -> cs !! j = Some rc' -> inside_at rc' q' e' ->
         (e' <=? b.2)%float = false)).
Proof.
  revert b0. induction cs as [|c cs IH]; simpl; intros b0 H.
  - injection H as <-. split; [|by left]. intros rc q e Hrc.
    by apply elem_of_nil in Hrc.
  - apply bind_ok in H as (b1 & H1 & H).
    destruct (IH _ H) as [IHall IHbest]. clear IH.
    apply entry_step_cases in H1 as [[-> Hskip] | (q0 & e0 & Hin0 & Hlt0 & ->)].
    + split.
      * intros rc q e Hrc Hin. apply elem_of_cons in Hrc as [->|Hrc]; [|eauto].
        destruct IHbest as [->|(i & rc & _ & _ & Hlt & _)]; [eauto|].
        eapply ltb_false_trans; eauto.
      * destruct IHbest as [->|(i & rc & Hi & Hin & Hlt & Hfirst)]; [by left|].
        right. exists (S i), rc. do 3 (split; [done|]).
        intros [|j] rc' q' e' Hj Hrc' Hin'; simpl in Hrc'.
        -- injection Hrc' as <-. eapply leb_false_trans; eauto.
        -- eapply Hfirst; eauto. lia.
    + simpl in *. split.
      * intros rc q e Hrc Hin. apply elem_of_cons in Hrc as [->|Hrc]; [|eauto].
        destruct (inside_at_fun _ _ _ _ _ Hin Hin0) as [-> ->].
        destruct IHbest as [->|(i & rc & _ & _ & Hlt & _)].
        -- apply ltb_irrefl.
        -- by apply ltb_asym.
      * right. destruct IHbest as [->|(i & rc & Hi & Hin & Hlt & Hfirst)].
        -- exists 0%nat, c. simpl. do 3 (split; [done|]). intros; lia.
        -- exists (S i), rc. simpl in *. do 2 (split; [done|]).
           split; [by eapply ltb_trans|].
           intros [|j] rc' q' e' Hj Hrc' Hin'; simpl in Hrc'.
           ++ injection Hrc' as <-.
              destruct (inside_at_fun _ _ _ _ _ Hin' Hin0) as [-> ->].
              by apply ltb_not_leb.
           ++ eapply Hfirst; eauto. lia.
Qed.

Lemma entry_total cs b0 :
  (forall rc, rc ∈ cs -> exists q e inside,
      getitem2 grid_x rc.1 rc.2 = Ok q.1 /\ getitem2 grid_y rc.1 rc.2 = Ok q.2 /\
      in_state rt state q.1 q.2 = Ok inside /\
      getitem2 potential rc.1 rc.2 = Ok e) ->
  exists b, foldM step b0 cs = Ok b.
Proof.
  intros H. destruct (foldM_total (fun _ => True) step cs b0) as (b & Hb & _);
    [done | | eauto].
  intros b rc Hrc _. destruct (H rc Hrc) as ([x y] & e & inside & Hx & Hy & Hin & He).
  simpl in *. unfold entry_step. rewrite Hx, Hy. simpl. rewrite Hin. simpl.
  destruct inside; [|eauto]. rewrite He. simpl.
  destruct (e <? b.2)%float; eauto.
Qed.

(** The [i]-th cell, row by row, lies inside the circle at [p]; its
    energy is below [+inf] (so neither [+inf] nor NaN); no cell inside the
    circle has a lower energy; every earlier cell inside the circle has a
    greater energy, or NaN. *)
Definition lowest_inside (i : nat) (p : point) : Prop :=
  exists rc e,
    cells (rows_of grid_x) (cols_of grid_x) !! i = Some rc /\
    inside_at rc p e /\
    (e <? infinity)%float = true /\
    (forall rc' q' e', rc' ∈ cells (rows_of grid_x) (cols_of grid_x) ->
       inside_at rc' q' e' -> (e' <? e)%float = false) /\
    (forall (j : nat) rc' q' e',
       (j < i)%nat ->
       cells (rows_of grid_x) (cols_of grid_x) !! j = Some rc' ->
       inside_at rc' q' e' -> (e' <=? e)%float = false).

(** There is at most one such cell. *)
Lemma lowest_inside_unique i1 p1 i2 p2 :
  lowest_inside i1 p1 -> lowest_inside i2 p2 -> i1 = i2 /\ p1 = p2.
Proof.
  assert (forall i1 p1 i2 p2, lowest_inside i1 p1 -> lowest_inside i2 p2 ->
            ~ (i1 < i2)%nat) as Hlt.
  { clear. intros i1 p1 i2 p2 (rc1 & e1 & Hi1 & Hin1 & Hb1 & Hmin1 & _)
      (rc2 & e2 & Hi2 & Hin2 & Hb2 & _ & Hfirst2) Hlt.
    pose proof (Hfirst2 i1 rc1 p1 e1 Hlt Hi1 Hin1) as Hgt.
    apply list_elem_of_lookup_2 in Hi2.
    pose proof (Hmin1 rc2 p2 e2 Hi2 Hin2) as Hge.
    apply not_leb_ltb in Hgt; [congruence| |].
    - by apply ltb_true in Hb1 as (? & _).
    - by apply ltb_true in Hb2 as (? & _). }
  intros H1 H2.
  assert (i1 = i2) as ->.
  { pose proof (Hlt _ _ _ _ H1 H2). pose proof (Hlt _ _ _ _ H2 H1). lia. }
  split; [done|].
  destruct H1 as (rc1 & e1 & Hi1 & Hin1 & _), H2 as (rc2 & e2 & Hi2 & Hin2 & _).
  assert (rc2 = rc1) as -> by congruence.
  by destruct (inside_at_fun _ _ _ _ _ Hin1 Hin2).
Qed.

(** C8, as the code has it.  On grids where every cell can be read and
    tested the function returns.  What it returns is the centre of the
    state when no cell inside the circle has an energy below [+inf], and
    otherwise the coordinates of a cell inside the circle whose energy is
    below [+inf] (so neither [+inf] nor NaN) and which no cell inside the
    circle undercuts, the first such cell row by row: every earlier cell
    inside the circle has a greater energy, or NaN.  No other cell, and no
    other point, meets these conditions. *)
Theorem state_entry_point_lowest :
  ((forall rc, rc ∈ cells (rows_of grid_x) (cols_of grid_x) ->
      exists q e inside,
        getitem2 grid_x rc.1 rc.2 = Ok q.1 /\
        getitem2 grid_y rc.1 rc.2 = Ok q.2 /\
        in_state rt state q.1 q.2 = Ok inside /\
        getitem2 potential rc.1 rc.2 = Ok e) ->
   exists p, _state_entry_point rt grid_x grid_y potential state = Ok p) /\
  (forall p, _state_entry_point rt grid_x grid_y potential state = Ok p ->
    ((forall rc q e, rc ∈ cells (rows_of grid_x) (cols_of grid_x) ->
        inside_at rc q e -> (e <? infinity)%float = false) ->
     p = (CircularState.x0 state, CircularState.y0 state)) /\
    ((exists rc q e, rc ∈ cells (rows_of grid_x) (cols_of grid_x) /\
        inside_at rc q e /\ (e <? infinity)%float = true) ->
     exists (i : nat) rc e,
       cells (rows_of grid_x) (cols_of grid_x) !! i = Some rc /\
       inside_at rc p e /\
       (e <? infinity)%float = true /\
       (forall rc' q' e', rc' ∈ cells (rows_of grid_x) (cols_of grid_x) ->
          inside_at rc' q' e' -> (e' <? e)%float = false) /\
       (forall (j : nat) rc' q' e',
          (j < i)%nat ->
          cells (rows_of grid_x) (cols_of grid_x) !! j = Some rc' ->
          inside_at rc' q' e' -> (e' <=? e)%float = false) /\
       (forall i' p', lowest_inside i' p' -> i' = i /\ p' = p))).
Proof.
  unfold _state_entry_point. rewrite grid_loop_cells. split.
  - intros H. destruct (entry_total _ (CircularState.x0 state,
      CircularState.y0 state, infinity) H) as [b ->]. simpl. eauto.
  - intros p H. apply bind_ok in H as (b & Hb & H). injection H as <-.
    apply entry_fold in Hb as [Hall Hbest]. split.
    + intros Hnone. destruct Hbest as [->|(i & rc & Hi & Hin & Hlt & _)]; [done|].
      apply list_elem_of_lookup_2 in Hi. simpl in Hlt.
      by rewrite (Hnone _ _ _ Hi Hin) in Hlt.
    + intros (rc & q & e & Hrc & Hin & Hlt).
      destruct Hbest as [->|(i & rc' & Hi & Hin' & Hbelow & Hfirst)].
      * simpl in Hall. by rewrite (Hall _ _ _ Hrc Hin) in Hlt.
      * assert (lowest_inside i b.1) as Hlow by (exists rc', b.2; done).
        exists i, rc', b.2. do 5 (split; [done|]).
        intros i' p' Hlow'. by apply (lowest_inside_unique _ _ _ _ Hlow' Hlow).
Qed.

End EntryPoint.

(** Two cells inside the state: the second has the lower energy. *)
Lemma state_entry_point_lowest_witness :
  _state_entry_point Table.table_rt [[0; 1]]%float [[0; 0]]%float
    [[3; 1]]%float Examples.state_half = Ok (1, 0)%float /\
  exists (i : nat) rc e,
    cells 1 2 !! i = Some rc /\
    inside_at Table.table_rt [[0; 1]]%float [[0; 0]]%float [[3; 1]]%float
      Examples.state_half rc (1, 0)%float e /\
    (e <? infinity)%float = true /\
    (forall rc' q' e', rc' ∈ cells 1 2 ->
       inside_at Table.table_rt [[0; 1]]%float [[0; 0]]%float [[3; 1]]%float
         Examples.state_half rc' q' e' -> (e' <? e)%float = false) /\
    (forall (j : nat) rc' q' e', (j < i)%nat -> cells 1 2 !! j = Some rc' ->
       inside_at Table.table_rt [[0; 1]]%float [[0; 0]]%float [[3; 1]]%float
         Examples.state_half rc' q' e' -> (e' <=? e)%float = false) /\
    (forall i' p',
       lowest_inside Table.table_rt [[0; 1]]%float [[0; 0]]%float [[3; 1]]%float
         Examples.state_half i' p' -> i' = i /\ p' = (1, 0)%float).
Proof.
  split; [reflexivity|].
  apply (proj2 (state_entry_point_lowest Table.table_rt [[0; 1]]%float
                  [[0; 0]]%float [[3; 1]]%float Examples.state_half)
               (1, 0)%float eq_refl).
  exists (0, 0), (0, 0)%float, 3%float.
  split; [left | split; [repeat split | reflexivity]].
Defined.

(** A cell whose energy is NaN is passed over, whatever its place: of two
    cells inside the circle the first holds NaN and the second is
    returned. *)
Lemma state_entry_point_passes_nan_cell :
  _state_entry_point Table.table_rt [[0; 1]]%float [[0; 0]]%float
    [[nan; 1]]%float Examples.state_half = Ok (1, 0)%float.
Proof. reflexivity. Qed.

(** C8 as stated fails: the only cell lies inside the circle, its energy
    is [+inf], and the centre is returned instead of the cell. *)
Lemma state_entry_point_skips_infinite_cell :
  _state_entry_point Table.table_rt [[0%float]] [[0%float]] [[infinity]]
    Examples.state_one = Ok (1, 0)%float /\
  cells 1 1 = [(0, 0)] /\
  inside_at Table.table_rt [[0%float]] [[0%float]] [[infinity]]
    Examples.state_one (0, 0) (0, 0)%float infinity.
Proof. split; [reflexivity|]. split; [reflexivity|]. repeat split. Qed.

End AppFacts.

(** ** [umbrella_sampling] *)

Module SamplingFacts.
Import Sampling.

Lemma mapM_app {X Y} (f : X -> result Y) xs ys :
  mapM f (xs ++ ys)
  = (a <- mapM f xs ;; b <- mapM f ys ;; Ok (a ++ b)).
Proof.
  induction xs as [|x xs IH]; simpl.
  - destruct (mapM f ys); reflexivity.
  - destruct (f x); simpl; [|done]. rewrite IH.
    destruct (mapM f xs); simpl; [|done]. destruct (mapM f ys); reflexivity.
Qed.

(** A loop that appends one item per pass. *)
Lemma foldM_appends {A St X} (Q : X -> A -> Prop)
    (body : list A * St -> X -> result (list A * St)) xs s s' :
  (forall s x s', body s x = Ok s' -> exists a, s'.1 = s.1 ++ [a] /\ Q x a) ->
  foldM body s xs = Ok s' ->
  exists new, s'.1 = s.1 ++ new /\ Forall2 Q xs new.
Proof.
  intros Hbody. revert s. induction xs as [|x xs IH]; simpl; intros s H.
  - injection H as <-. exists []. by rewrite app_nil_r.
  - apply bind_ok in H as (s1 & H1 & H).
    destruct (Hbody _ _ _ H1) as (a & Ha & HQ).
    destruct (IH _ H) as (new & Hnew & HF).
    exists (a :: new). split; [|by constructor].
    rewrite Hnew, Ha, <- app_assoc. done.
Qed.

Section Sampling.
Context (rt : Runtime).
Variable potential_fn : point -> result float.
Variables (beta spring_constant window_half_width : float).
Variable samples_per_window : Z.

Local Notation draw :=
  (draw rt potential_fn beta spring_constant window_half_width).
Local Notation weight_of := (weight_of rt beta).
Local Notation window_free_energy := (window_free_energy rt beta).
Local Notation window_step :=
  (window_step rt potential_fn beta spring_constant window_half_width
     samples_per_window).
Local Notation umbrella_sampling :=
  (umbrella_sampling rt potential_fn beta spring_constant window_half_width
     samples_per_window).

(** The weights and energies the sample loop keeps are those of the
    samples it reports. *)
Definition draws_consistent (d : draws) : Prop :=
  mapM weight_of (d_samples d) = Ok (d_weights d) /\
  d_energies d = map Sampling.potential (d_samples d).

Lemma draw_consistent rng point tangent perp s s' :
  draw rng point tangent perp s = Ok s' ->
  draws_consistent s.1 -> draws_consistent s'.1.
Proof.
  unfold Sampling.draw. intros H [Hw He].
  apply bind_ok in H as (half & _ & H).
  destruct (gauss rt rng 0 half s.2) as [da h1].
  destruct (gauss rt rng 0 window_half_width h1) as [dp h2].
  apply bind_ok in H as (pe & _ & H). apply bind_ok in H as (w & Hwt & H).
  injection H as <-. split; simpl.
  - rewrite mapM_app, Hw. unfold Sampling.weight_of at 1. simpl in *.
    rewrite Hwt. reflexivity.
  - rewrite He, map_app. reflexivity.
Qed.

(** What the window loop records for the image [ip]. *)
Definition window_of (path : list point) (ip : Z * point)
    (w : UmbrellaWindow) : Prop :=
  center_index w = ip.1 /\
  reaction_coordinate_of ip.1 (Z.of_nat (length path))
    = Ok (reaction_coordinate w) /\
  exists weights,
    mapM weight_of (samples w) = Ok weights /\
    window_free_energy weights (map Sampling.potential (samples w))
      = Ok (free_energy w).

Lemma window_step_appends rng path s ip s' :
  window_step rng path s ip = Ok s' ->
  exists w, s'.1 = s.1 ++ [w] /\ window_of path ip w.
Proof.
  unfold Sampling.window_step. destruct ip as [idx point]. intros H.
  apply bind_ok in H as (tangent & _ & H).
  apply bind_ok in H as (perp & _ & H).
  apply bind_ok in H as (d & Hd & H).
  apply bind_ok in H as (fe & Hfe & H).
  apply bind_ok in H as (rc & Hrc & H). injection H as <-.
  eexists. split; [reflexivity|]. split; [reflexivity|]. split; [exact Hrc|].
  simpl. apply (foldM_inv (fun s => draws_consistent s.1)) in Hd as [Hw He].
  - exists (d_weights d.1). split; [done|]. by rewrite <- He.
  - split; reflexivity.
  - intros s0 ? s0' _ Hs0 Hstep. by eapply draw_consistent.
Qed.

Lemma umbrella_sampling_windows path h windows h' :
  umbrella_sampling path h = Ok (windows, h') ->
  Forall2 (window_of path) (enumerate path) windows.
Proof.
  unfold Sampling.umbrella_sampling. simpl. intros H.
  eapply foldM_appends in H as (new & Hnew & HF);
    [|apply window_step_appends].
  simpl in Hnew. by subst new.
Qed.

(** C7, as the code has it: the free energy a window reports is NaN, and
    no error, when the sum of the weights of its samples compares equal to
    zero (the computation of the free energy returns NaN there, whatever
    the weights and energies), and otherwise it is
    [-log(max(expectation, 1e-12)) / beta] for the reweighted expectation
    of those samples. *)
Theorem free_energy_of_window path h windows h' w :
  umbrella_sampling path h = Ok (windows, h') -> w ∈ windows ->
  (forall weights energies,
     (partition_of rt weights =? 0)%float = true ->
     window_free_energy weights energies = Ok nan) /\
  exists weights,
    mapM weight_of (samples w) = Ok weights /\
    ((partition_of rt weights =? 0)%float = true -> free_energy w = nan) /\
    ((partition_of rt weights =? 0)%float = false ->
     exists terms expectation l,
       mapM (fun we : float * float =>
               e <- exp rt (- beta * we.2)%float ;; Ok (we.1 * e)%float)
            (zip weights (map Sampling.potential (samples w))) = Ok terms /\
       truediv (fsum rt terms) (partition_of rt weights) = Ok expectation /\
       log rt (Py.max expectation 1e-12) = Ok l /\
       truediv (- l)%float beta = Ok (free_energy w)).
Proof.
  intros H Hw. split.
  { intros weights energies Hz. unfold Sampling.window_free_energy.
    by rewrite Hz. }
  apply umbrella_sampling_windows in H.
  apply list_elem_of_lookup in Hw as [i Hi].
  destruct (Forall2_lookup_r _ _ _ _ _ H Hi) as (ip & _ & _ & _ & weights & Hws & Hfe).
  exists weights. split; [done|]. unfold Sampling.window_free_energy in Hfe.
  split; intros Hz; rewrite Hz in Hfe.
  - by injection Hfe as <-.
  - apply bind_ok in Hfe as (terms & Hterms & Hfe).
    apply bind_ok in Hfe as (expectation & Hexp & Hfe).
    apply bind_ok in Hfe as (l & Hl & Hfe). eauto 10.
Qed.

(** X13: a run of [umbrella_sampling] that returns has built one window
    per image, in order: window [i] has index [i] and reaction coordinate
    [i / (N - 1)], which is [0.0] for the first and [1.0] for the last. *)
Lemma umbrella_sampling_coordinates path h windows h' :
  umbrella_sampling path h = Ok (windows, h') ->
  length windows = length path /\
  forall (i : nat) w, windows !! i = Some w ->
    center_index w = Z.of_nat i /\
    int_truediv (Z.of_nat i) (Z.of_nat (length path) - 1)
      = Ok (reaction_coordinate w) /\
    (i = 0%nat -> reaction_coordinate w = 0%float) /\
    (i = (length path - 1)%nat -> reaction_coordinate w = 1%float).
Proof.
  intros H. pose proof H as Hrun. apply umbrella_sampling_windows in H.
  assert (length path <> 1%nat) as Hne.
  { intros Hlen. destruct path as [|p [|]]; discriminate. }
  split.
  - apply Forall2_length in H. unfold enumerate in H.
    by rewrite length_imap in H.
  - intros i w Hi.
    destruct (Forall2_lookup_r _ _ _ _ _ H Hi) as (ip & Hip & Hc & Hrc & _).
    unfold enumerate in Hip. rewrite list_lookup_imap in Hip.
    destruct (path !! i) as [p|] eqn:Hp; [|discriminate].
    injection Hip as <-. simpl in *.
    apply lookup_lt_Some in Hp. unfold reaction_coordinate_of in Hrc.
    destruct (Z.ltb_spec 1 (Z.of_nat (length path))) as [Hlt|Hge]; [|lia].
    repeat split; try done.
    + intros ->. rewrite int_truediv_zero in Hrc by lia. congruence.
    + intros ->. replace (Z.of_nat (length path - 1)) with (Z.of_nat (length path) - 1) in Hrc by lia.
      rewrite int_truediv_self in Hrc by lia. congruence.
Qed.

(** C6 at a path of one image: the tangent estimate reads [path[1]] before
    any window is built. *)
Theorem umbrella_sampling_single_image p h :
  umbrella_sampling [p] h = Raise IndexError.
Proof. reflexivity. Qed.

End Sampling.

(** Three windows in a flat potential without bias: every weight is 1. *)
Lemma free_energy_of_window_witness :
  exists windows h' w weights,
    umbrella_sampling Table.table_rt (fun _ => Ok 0%float) 1 0 0.5 3
      [(0, 0); (1, 0); (2, 0)]%float ∅ = Ok (windows, h') /\
    windows !! 0%nat = Some w /\
    mapM (weight_of Table.table_rt 1) (samples w) = Ok weights /\
    weights = [1; 1; 1]%float /\
    ((partition_of Table.table_rt weights =? 0)%float = true ->
     free_energy w = nan) /\
    ((partition_of Table.table_rt weights =? 0)%float = false ->
     exists terms expectation l,
       mapM (fun we : float * float =>
               e <- exp Table.table_rt (- (1) * we.2)%float ;; Ok (we.1 * e)%float)
            (zip weights (map Sampling.potential (samples w))) = Ok terms /\
       truediv (fsum Table.table_rt terms) (partition_of Table.table_rt weights)
         = Ok expectation /\
       log Table.table_rt (Py.max expectation 1e-12) = Ok l /\
       truediv (- l)%float 1 = Ok (free_energy w)).
Proof.
  pose proof (free_energy_of_window Table.table_rt (fun _ => Ok 0%float)
                1 0 0.5 3 [(0, 0); (1, 0); (2, 0)]%float ∅) as H.
  destruct (umbrella_sampling Table.table_rt (fun _ => Ok 0%float) 1 0 0.5 3
              [(0, 0); (1, 0); (2, 0)]%float ∅) as [[windows h']|] eqn:E;
    [|vm_compute in E; discriminate E].
  destruct (windows !! 0%nat) as [w|] eqn:Ew;
    [|vm_compute in E; injection E as <- _; discriminate Ew].
  destruct (H windows h' w eq_refl) as (_ & weights & Hws & Hz & Hnz).
  { by eapply list_elem_of_lookup_2. }
  exists windows, h', w, weights.
  split; [reflexivity|]. split; [exact Ew|]. split; [exact Hws|].
  split; [|split; assumption].
  vm_compute in E. injection E as <- _. injection Ew as <-.
  vm_compute in Hws. by injection Hws as <-.
Defined.

(** An infinite potential: every weight is zero, so is their sum, and the
    free energy of the window is NaN. *)
Lemma free_energy_nan_at_zero_partition :
  exists windows h' w weights,
    umbrella_sampling Table.table_rt (fun _ => Ok infinity) 1 5 0.5 2
      [(0, 0); (1, 0)]%float ∅ = Ok (windows, h') /\
    windows !! 0%nat = Some w /\
    mapM (weight_of Table.table_rt 1) (samples w) = Ok weights /\
    weights = [0; 0]%float /\
    (partition_of Table.table_rt weights =? 0)%float = true /\
    is_nan (free_energy w) = true.
Proof.
  do 4 eexists. split; [vm_compute; reflexivity|].
  split; [reflexivity|]. split; [vm_compute; reflexivity|].
  split; [reflexivity|]. split; reflexivity.
Qed.

(** C7 as stated fails: a potential that is not a number gives a window
    whose partition function is not zero and whose free energy is NaN. *)
Lemma free_energy_nan_with_nonzero_partition :
  exists windows h' w weights,
    umbrella_sampling Table.table_rt (fun _ => Ok nan) 1 5 0.5 1
      [(0, 0); (1, 0)]%float ∅ = Ok (windows, h') /\
    windows !! 0%nat = Some w /\
    mapM (weight_of Table.table_rt 1) (samples w) = Ok weights /\
    (partition_of Table.table_rt weights =? 0)%float = false /\
    isfinite (free_energy w) = false.
Proof.
  do 4 eexists. split; [vm_compute; reflexivity|].
  split; [reflexivity|]. split; [vm_compute; reflexivity|].
  split; reflexivity.
Qed.

(** Two computations end alike: both return, with related values, or both
    raise the same exception. *)
Definition agree {A B} (R : A -> B -> Prop) (r1 : result A) (r2 : result B)
  : Prop :=
  match r1, r2 with
  | Ok a, Ok b => R a b
  | Raise e1, Raise e2 => e1 = e2
  | _, _ => False
  end.

Lemma agree_bind {A1 A2 B1 B2} (R : A1 -> A2 -> Prop) (Q : B1 -> B2 -> Prop)
    m1 m2 (k1 : A1 -> result B1) (k2 : A2 -> result B2) :
  agree R m1 m2 -> (forall a1 a2, R a1 a2 -> agree Q (k1 a1) (k2 a2)) ->
  agree Q (bind m1 k1) (bind m2 k2).
Proof. destruct m1, m2; simpl; try done. auto. Qed.

Lemma agree_same {A B} (Q : B -> B -> Prop) (m : result A)
    (k1 k2 : A -> result B) :
  (forall a, agree Q (k1 a) (k2 a)) -> agree Q (bind m k1) (bind m k2).
Proof. destruct m; simpl; auto. Qed.

Lemma agree_foldM {S1 S2 X} (R : S1 -> S2 -> Prop)
    (body1 : S1 -> X -> result S1) (body2 : S2 -> X -> result S2) xs s1 s2 :
  R s1 s2 ->
  (forall s1 s2 x, R s1 s2 -> agree R (body1 s1 x) (body2 s2 x)) ->
  agree R (foldM body1 s1 xs) (foldM body2 s2 xs).
Proof.
  intros Hs Hbody. revert s1 s2 Hs.
  induction xs as [|x xs IH]; simpl; intros s1 s2 Hs; [done|].
  eapply agree_bind; [by apply Hbody | auto].
Qed.

Section Determinism.
Context (rt : Runtime).
Variable potential_fn : point -> result float.
Variables (beta spring_constant window_half_width : float).
Variable samples_per_window : Z.

(** Two runs, each with its own generator, hold the same value and their
    generators are in the same state. *)
Definition same_rng {A} (l1 l2 : nat) (s1 s2 : A * gmap nat (rng_state rt)) : Prop :=
  s1.1 = s2.1 /\ s1.2 !!! l1 = s2.2 !!! l2.

Lemma gauss_same l1 l2 mu sigma (h1 h2 : gmap nat (rng_state rt)) :
  h1 !!! l1 = h2 !!! l2 ->
  same_rng l1 l2 (gauss rt l1 mu sigma h1) (gauss rt l2 mu sigma h2).
Proof.
  intros H. unfold gauss, same_rng. rewrite H. simpl.
  by rewrite !lookup_total_insert_eq.
Qed.

Lemma draw_same l1 l2 point tangent perp s1 s2 :
  same_rng l1 l2 s1 s2 ->
  agree (same_rng l1 l2)
    (draw rt potential_fn beta spring_constant window_half_width l1
       point tangent perp s1)
    (draw rt potential_fn beta spring_constant window_half_width l2
       point tangent perp s2).
Proof.
  intros [Hd Hh]. unfold draw. apply agree_same. intros half.
  pose proof (gauss_same l1 l2 0 half _ _ Hh) as [Ha Hh1].
  destruct (gauss rt l1 0 half s1.2) as [da h1].
  destruct (gauss rt l2 0 half s2.2) as [da' h1']. simpl in Ha, Hh1. subst da'.
  pose proof (gauss_same l1 l2 0 window_half_width _ _ Hh1) as [Hp Hh2].
  destruct (gauss rt l1 0 window_half_width h1) as [dp h2].
  destruct (gauss rt l2 0 window_half_width h1') as [dp' h2']. simpl in Hp, Hh2.
  subst dp'. apply agree_same. intros pe. apply agree_same. intros w.
  simpl. rewrite Hd. split; done.
Qed.

Lemma window_step_same l1 l2 path s1 s2 ip :
  same_rng l1 l2 s1 s2 ->
  agree (same_rng l1 l2)
    (window_step rt potential_fn beta spring_constant window_half_width
       samples_per_window l1 path s1 ip)
    (window_step rt potential_fn beta spring_constant window_half_width
       samples_per_window l2 path s2 ip).
Proof.
  intros [Hw Hh]. unfold window_step. destruct ip as [idx point].
  apply agree_same. intros tangent. apply agree_same. intros perp.
  eapply agree_bind.
  - apply (agree_foldM (same_rng l1 l2)); [done|].
    intros d1 d2 _ Hd. by apply draw_same.
  - intros d1 d2 [Hd Hh']. rewrite Hd. apply agree_same. intros fe.
    apply agree_same. intros rc. simpl. rewrite Hw. split; done.
Qed.

Lemma umbrella_sampling_same path (h1 h2 : gmap nat (rng_state rt)) :
  agree (fun s1 s2 => s1.1 = s2.1)
    (umbrella_sampling rt potential_fn beta spring_constant window_half_width
       samples_per_window path h1)
    (umbrella_sampling rt potential_fn beta spring_constant window_half_width
       samples_per_window path h2).
Proof.
  unfold umbrella_sampling, new_random.
  set (l1 := fresh (dom h1)). set (l2 := fresh (dom h2)).
  pose proof (agree_foldM (same_rng l1 l2)
    (window_step rt potential_fn beta spring_constant window_half_width
       samples_per_window l1 path)
    (window_step rt potential_fn beta spring_constant window_half_width
       samples_per_window l2 path)
    (enumerate path)
    ([], <[l1 := rng_seed rt 42]> h1) ([], <[l2 := rng_seed rt 42]> h2)) as H.
  destruct (foldM _ _ _), (foldM _ _ _); simpl in *.
  - apply H.
    + split; [done|]. simpl. by rewrite !lookup_total_insert_eq.
    + intros. by apply window_step_same.
  - apply H.
    + split; [done|]. simpl. by rewrite !lookup_total_insert_eq.
    + intros. by apply window_step_same.
  - apply H.
    + split; [done|]. simpl. by rewrite !lookup_total_insert_eq.
    + intros. by apply window_step_same.
  - apply H.
    + split; [done|]. simpl. by rewrite !lookup_total_insert_eq.
    + intros. by apply window_step_same.
Qed.

Lemma outcome_agree {A} (r1 r2 : result (A * gmap nat (rng_state rt))) :
  agree (fun s1 s2 => s1.1 = s2.1) r1 r2 -> outcome rt r1 = outcome rt r2.
Proof.
  destruct r1 as [[a1 h1]|e1], r2 as [[a2 h2]|e2]; simpl; try done;
    congruence.
Qed.

End Determinism.

(** C5: what a call returns or raises does not depend on the heap it is
    started in, for [umbrella_sampling] and for [compute_visualisation]:
    the only randomness comes from a generator seeded with 42 in the call
    itself.  Two calls on equal inputs give equal results. *)
Theorem sampling_is_deterministic (rt : Runtime)
    (h1 h2 : gmap nat (rng_state rt)) :
  (forall potential_fn beta spring_constant window_half_width
          samples_per_window path,
     outcome rt (umbrella_sampling rt potential_fn beta spring_constant
                   window_half_width samples_per_window path h1)
     = outcome rt (umbrella_sampling rt potential_fn beta spring_constant
                     window_half_width samples_per_window path h2)) /\
  (forall payload,
     outcome rt (App.compute_visualisation rt payload h1)
     = outcome rt (App.compute_visualisation rt payload h2)).
Proof.
  split.
  - intros. apply outcome_agree, umbrella_sampling_same.
  - intros payload. apply outcome_agree. unfold App.compute_visualisation.
    apply agree_same. intros [[[spec gaussians] state_a] state_b].
    apply agree_same. intros [[[grid_x grid_y] x_axis] y_axis].
    do 8 (apply agree_same; intros ?).
    eapply agree_bind; [apply umbrella_sampling_same|].
    intros u1 u2 Hu. simpl in Hu.
    destruct (Pes.grid_min_max _) as [z_min z_max]. simpl. by rewrite Hu.
Qed.

End SamplingFacts.

(** ** [app/pes.py]: axes, meshes, masks, contours and ranges *)

Module GridFacts.
Import Pes PesFacts AppFacts ParseFacts.

Lemma shr_fexp_digits m e l mrs e1 :
  0 <= m -> -1074 <= e -> shr_fexp prec emax m e l = (mrs, e1) ->
  0 <= shr_m mrs /\ Zdigits2 (shr_m mrs) = Z.min (Zdigits2 m) 53.
Proof.
  intros Hm He. unfold shr_fexp, shr. rewrite fexp64.
  pose proof (Zdigits2_nonneg m) as Hd.
  destruct (Z.max (Zdigits2 m + e - 53) (-1074) - e) as [|n|n] eqn:Hn.
  - intros [= <- <-]. rewrite shr_m_of_loc. lia.
  - intros [= <- <-]. rewrite iter_pos_nat.
    destruct (shr_iter_digits (Pos.to_nat n) (shr_record_of_loc m l)) as [H1 H2].
    { by rewrite shr_m_of_loc. }
    rewrite H2, shr_m_of_loc. lia.
  - intros [= <- <-]. rewrite shr_m_of_loc. lia.
Qed.

Lemma Zdigits2_pos m : 0 <= m -> 1 <= Zdigits2 m -> 1 <= m.
Proof. destruct m; simpl; lia. Qed.

Lemma Zdigits2_ge1 m : 1 <= m -> 1 <= Zdigits2 m.
Proof. intros H. rewrite Zdigits2_log2 by lia. pose proof (Z.log2_nonneg m). lia. Qed.

Lemma shr_fexp_exp m e l mrs e1 :
  shr_fexp prec emax m e l = (mrs, e1) -> e <= e1.
Proof.
  unfold shr_fexp, shr.
  destruct (fexp prec emax (Zdigits2 m + e) - e) as [|n|n];
    intros [= <- <-]; lia.
Qed.

(** Rounding a positive mantissa above the subnormal range never gives
    zero. *)
Lemma binary_round_aux_positive sx m e l :
  1 <= m -> -1074 <= e ->
  exists m' e', (binary_round_aux prec emax sx m e l = S754_finite sx m' e' \/
                 binary_round_aux prec emax sx m e l = S754_infinity sx).
Proof.
  intros Hm He. unfold binary_round_aux.
  destruct (shr_fexp prec emax m e l) as [mrs1 e1] eqn:H1.
  pose proof (shr_fexp_exp _ _ _ _ _ H1) as He1.
  apply shr_fexp_digits in H1 as [Hm1 Hd1]; [|lia..].
  pose proof (Zdigits2_ge1 m Hm) as Hdm.
  assert (1 <= shr_m mrs1) as Hp1 by (apply Zdigits2_pos; lia).
  set (m2 := round_nearest_even (shr_m mrs1) (loc_of_shr_record mrs1)).
  assert (1 <= m2) as Hm2.
  { subst m2. destruct (round_nearest_even_cases (shr_m mrs1) (loc_of_shr_record mrs1)) as [->| ->]; lia. }
  destruct (shr_fexp prec emax m2 e1 loc_Exact) as [mrs2 e2] eqn:H2.
  apply shr_fexp_digits in H2 as [Hm3 Hd3]; [|lia..].
  pose proof (Zdigits2_ge1 m2 Hm2) as Hdm2.
  assert (1 <= shr_m mrs2) as Hp2 by (apply Zdigits2_pos; lia).
  destruct (shr_m mrs2) as [|p|p]; [lia| |lia].
  exists p, e2. destruct (e2 <=? emax - prec); auto.
Qed.

Lemma iter_xO_digits (d : positive) p :
  Zdigits2 (Zpos (Pos.iter xO p d)) = Zdigits2 (Zpos p) + Zpos d.
Proof.
  rewrite Pos2Nat.inj_iter, <- (positive_nat_Z d).
  induction (Pos.to_nat d) as [|k IH]; [simpl; lia|].
  cbn [nat_rect]. cbn [Zdigits2 digits2_pos] in *. lia.
Qed.

(** What [float] makes of a positive integer: a positive number or
    (beyond the range) an overflow. *)
Lemma binary_normalize_positive p :
  exists m e, binary_normalize prec emax (Zpos p) 0 false = S754_finite false m e \/
              binary_normalize prec emax (Zpos p) 0 false = S754_infinity false.
Proof.
  unfold binary_normalize, binary_round, shl_align. rewrite fexp64.
  destruct (Z.max (Zpos (digits2_pos p) + 0 - 53) (-1074) - 0) as [|d|d] eqn:E;
    apply binary_round_aux_positive; lia.
Qed.

Lemma binary_normalize_no_overflow z s :
  - 2 ^ 1000 < z < 2 ^ 1000 ->
  binary_normalize prec emax z 0 false <> S754_infinity s.
Proof.
  intros Hz. unfold binary_normalize.
  assert (forall p sx, Zpos p < 2 ^ 1000 ->
            binary_round prec emax sx p 0 <> S754_infinity s) as H.
  { intros p sx Hp. unfold binary_round, shl_align. rewrite fexp64.
    assert (Zdigits2 (Zpos p) <= 1000) as Hd.
    { rewrite Zdigits2_log2 by lia.
      assert (Z.log2 (Zpos p) < 1000); [|lia]. apply Z.log2_lt_pow2; lia. }
    change (Zpos (digits2_pos p)) with (Zdigits2 (Zpos p)).
    destruct (Z.max (Zdigits2 (Zpos p) + 0 - 53) (-1074) - 0) as [|d|d] eqn:E;
      apply binary_round_aux_no_overflow; try lia.
    rewrite iter_xO_digits. lia. }
  destruct z as [|p|p]; [done|apply H; lia|apply H]. 
  change (Zpos p) with (- Zneg p). lia.
Qed.

Lemma float_of_int_total z :
  - 2 ^ 1000 < z < 2 ^ 1000 -> exists f, float_of_int z = Ok f.
Proof.
  intros Hz. unfold float_of_int.
  pose proof (binary_normalize_no_overflow z) as H.
  destruct (binary_normalize prec emax z 0 false) eqn:E; eauto.
  exfalso. by eapply H.
Qed.

(** On the integers of a machine word [float] is the primitive conversion. *)
Lemma float_of_int_spec z f :
  0 <= z < 2 ^ 63 -> float_of_int z = Ok f ->
  Prim2SF f = binary_normalize prec emax z 0 false.
Proof.
  intros Hz. unfold float_of_int.
  pose proof (of_uint63_spec (Uint63Axioms.of_Z z)) as H.
  rewrite <- Uint63.is_int in H by (change (Uint63Axioms.to_Z Uint63Axioms.digits) with 63; lia).
  rewrite <- H. set (x := of_uint63 (Uint63Axioms.of_Z z)).
  destruct (Prim2SF x) eqn:E; intros H'; try discriminate H';
    rewrite <- E, SF2Prim_Prim2SF in H'; congruence.
Qed.

Lemma float_of_int_nonzero z f :
  0 < z < 2 ^ 63 -> float_of_int z = Ok f -> (f =? 0)%float = false.
Proof.
  intros Hz H. apply float_of_int_spec in H; [|lia].
  rewrite FloatAxioms.eqb_spec, H, Prim2SF_zero.
  destruct z as [|p|p]; [lia| |lia].
  destruct (binary_normalize_positive p) as (m & e & [-> | ->]); reflexivity.
Qed.

Lemma float_of_int_zero : float_of_int 0 = Ok 0%float.
Proof. reflexivity. Qed.

Lemma mapM_const {X Y} (r : result Y) (y : Y) (xs : list X) :
  r = Ok y -> mapM (fun _ => r) xs = Ok (replicate (length xs) y).
Proof.
  intros ->. induction xs as [|x xs IH]; simpl; [done|]. by rewrite IH.
Qed.

Lemma mapM_ext {X Y} (f g : X -> result Y) xs :
  (forall x, x ∈ xs -> f x = g x) -> mapM f xs = mapM g xs.
Proof.
  induction xs as [|x xs IH]; simpl; intros H; [done|].
  rewrite H by left. rewrite IH; [done|]. intros. apply H. by right.
Qed.

Lemma mapM_ok {X Y} (f : X -> result Y) (g : X -> Y) xs :
  (forall x, x ∈ xs -> f x = Ok (g x)) -> mapM f xs = Ok (map g xs).
Proof.
  induction xs as [|x xs IH]; simpl; intros H; [done|].
  rewrite H by left. simpl. rewrite IH; [done|]. intros. apply H. by right.
Qed.

Lemma length_range n : length (range n) = Z.to_nat n.
Proof. unfold range. rewrite length_range2. f_equal. lia. Qed.

Lemma lookup_range_lt n (k : nat) :
  Z.of_nat k < n -> range n !! k = Some (Z.of_nat k).
Proof. intros H. unfold range. rewrite lookup_range2 by lia. done. Qed.

(** [[l[i] for i in range(len(l))]] is a copy of [l]. *)
Lemma mapM_getitem_range {A} (l : list A) :
  mapM (fun i => getitem l i) (range (Z.of_nat (length l))) = Ok l.
Proof.
  induction l as [|a l IH] using rev_ind; [reflexivity|].
  rewrite length_app. simpl. unfold range in *.
  rewrite range2_snoc by lia.
  replace (Z.of_nat (length l + 1) - 1) with (Z.of_nat (length l)) by lia.
  rewrite SamplingFacts.mapM_app. 
  rewrite (mapM_ext _ (fun i => getitem l i)).
  - rewrite IH. simpl. rewrite (getitem_ok _ _ a); [done|lia|].
    rewrite Nat2Z.id. by rewrite lookup_app_r, Nat.sub_diag.
  - intros i Hi. apply elem_of_range2 in Hi.
    unfold getitem. nonneg_index i.
    rewrite lookup_app_l by lia. done.
Qed.

(** The number of points [linspace] returns, when it does. *)
Lemma linspace_length start stop num xs :
  linspace start stop num = Ok xs -> length xs = Z.to_nat num.
Proof.
  unfold linspace. destruct (Z.eqb_spec num 1) as [->|Hne].
  - by intros [= <-].
  - intros H. apply bind_ok in H as (d & _ & H).
    apply bind_ok in H as (step & _ & H). apply mapM_length in H.
    by rewrite H, length_range.
Qed.

(** Neither the conversions nor the division of [linspace] can fail on a
    count that fits a machine word. *)
Lemma linspace_total start stop num :
  1 <= num < 2 ^ 63 -> exists xs, linspace start stop num = Ok xs.
Proof.
  intros Hnum. unfold linspace.
  destruct (Z.eqb_spec num 1) as [->|Hne]; [eauto|].
  destruct (float_of_int_total (num - 1)) as [d Hd]; [lia|].
  pose proof (float_of_int_nonzero (num - 1) d) as Hnz.
  rewrite Hd. simpl. unfold truediv. rewrite Hnz by (done || lia). simpl.
  apply mapM_total. intros i Hi. apply elem_of_range2 in Hi.
  destruct (float_of_int_total i) as [fi ->]; [lia|]. simpl. eauto.
Qed.

Section Linspace.
Variables (start stop : float) (num : Z).

(** X1: for a count between 1 and the largest machine integer [linspace]
    returns, without an error, exactly [num] points: [start] alone for one
    point, and otherwise [start + step * i] for [i] below [num], with
    [step = (stop - start) / (num - 1)]; the first point compares equal to
    [start] when [start] and the step are finite. *)
Theorem linspace_points :
  1 <= num < 2 ^ 63 ->
  exists xs,
    linspace start stop num = Ok xs /\
    Z.of_nat (length xs) = num /\
    (num = 1 -> xs = [start]) /\
    (2 <= num ->
     exists d step,
       float_of_int (num - 1) = Ok d /\
       truediv (stop - start) d = Ok step /\
       (forall i : nat, Z.of_nat i < num ->
          exists fi, float_of_int (Z.of_nat i) = Ok fi /\
                     xs !! i = Some (start + step * fi)%float) /\
       (isfinite start = true -> isfinite step = true ->
        exists x0, xs !! 0%nat = Some x0 /\ (x0 =? start)%float = true)).
Proof.
  intros Hnum. unfold linspace.
  destruct (Z.eqb_spec num 1) as [->|Hne].
  { exists [start]. repeat split; try done; lia. }
  destruct (float_of_int_total (num - 1)) as [d Hd]; [lia|].
  pose proof (float_of_int_nonzero (num - 1) d) as Hnz.
  rewrite Hd. simpl. unfold truediv at 1. rewrite Hnz by (done || lia).
  simpl. set (step := ((stop - start) / d)%float).
  destruct (mapM_total (fun i => fi <- float_of_int i ;; Ok (start + step * fi)%float)
              (range num)) as [xs Hxs].
  { intros i Hi. apply elem_of_range2 in Hi.
    destruct (float_of_int_total i) as [fi ->]; [lia|]. simpl. eauto. }
  exists xs. split; [done|].
  pose proof (mapM_length _ _ _ Hxs) as Hlen. rewrite length_range in Hlen.
  split; [lia|]. split; [done|]. intros _.
  exists d, step. split; [done|]. split.
  { unfold truediv. rewrite Hnz by (done || lia). done. }
  assert (forall i : nat, Z.of_nat i < num ->
            exists fi, float_of_int (Z.of_nat i) = Ok fi /\
                       xs !! i = Some (start + step * fi)%float) as Hall.
  { intros i Hi.
    destruct (mapM_lookup _ _ _ i (Z.of_nat i) Hxs) as (x & Hx & Hf).
    { by apply lookup_range_lt. }
    apply bind_ok in Hf as (fi & Hfi & [= <-]). eauto. }
  split; [done|]. intros Hs Hstep.
  destruct (Hall 0%nat) as (fi & Hfi & H0); [lia|].
  change (Z.of_nat 0) with 0 in Hfi. rewrite float_of_int_zero in Hfi.
  injection Hfi as <-.
  eexists. split; [done|].
  destruct (mul_zero_r step Hstep) as [sg Hz]. by eapply add_zero_r_eqb.
Qed.

End Linspace.

Lemma linspace_points_witness :
  exists xs, linspace (-4) 4 3 = Ok xs /\ xs = [-4; 0; 4]%float.
Proof.
  destruct (linspace_points (-4) 4 3) as (xs & H & _); [lia|].
  exists xs. split; [done|]. vm_compute in H. by injection H as <-.
Defined.

Lemma mapM_rows {X Y C} (f : X -> result Y) (cols : list C) rows ys :
  mapM f rows = Ok ys ->
  mapM (fun row => mapM (fun _ => f row) cols) rows
  = Ok (map (fun y => replicate (length cols) y) ys).
Proof.
  revert ys. induction rows as [|r rows IH]; simpl; intros ys H.
  - by injection H as <-.
  - apply bind_ok in H as (y & Hy & H). apply bind_ok in H as (ys' & Hys & H).
    injection H as <-. rewrite (mapM_const _ y) by done. simpl.
    by rewrite (IH ys').
Qed.

(** X2: for a resolution between 1 and the largest machine integer
    [create_grid] returns; one axis, that of [linspace], serves both
    directions; [grid_x] repeats it in every row and [grid_y] repeats its
    [row]-th value along row [row]. *)
Theorem create_grid_mesh (spec : GridSpec.t) :
  1 <= GridSpec.resolution spec < 2 ^ 63 ->
  exists axis,
    linspace (GridSpec.minimum spec) (GridSpec.maximum spec)
      (GridSpec.resolution spec) = Ok axis /\
    Z.of_nat (length axis) = GridSpec.resolution spec /\
    create_grid spec
    = Ok (replicate (length axis) axis,
          map (fun y => replicate (length axis) y) axis, axis, axis) /\
    (forall row col : nat,
       (row < length axis)%nat -> (col < length axis)%nat ->
       exists x y, axis !! col = Some x /\ axis !! row = Some y /\
         getitem2 (replicate (length axis) axis) (Z.of_nat row) (Z.of_nat col) = Ok x /\
         getitem2 (map (fun y => replicate (length axis) y) axis)
           (Z.of_nat row) (Z.of_nat col) = Ok y).
Proof.
  intros Hres.
  destruct (linspace_total (GridSpec.minimum spec) (GridSpec.maximum spec)
              (GridSpec.resolution spec) Hres) as [axis Hax].
  assert (Z.of_nat (length axis) = GridSpec.resolution spec) as Hlen.
  { rewrite (linspace_length _ _ _ _ Hax). lia. }
  exists axis. split; [done|]. split; [done|]. split.
  - unfold create_grid. cbv zeta. rewrite Hax. simpl.
    rewrite <- Hlen.
    rewrite (mapM_const _ axis) by apply mapM_getitem_range. simpl.
    rewrite (mapM_rows _ _ _ axis) by apply mapM_getitem_range. simpl.
    by rewrite length_range, Nat2Z.id.
  - intros row col Hrow Hcol.
    destruct (lookup_lt_is_Some_2 axis col Hcol) as [x Hx].
    destruct (lookup_lt_is_Some_2 axis row Hrow) as [y Hy].
    exists x, y. split; [done|]. split; [done|]. unfold getitem2. split.
    + rewrite (getitem_ok _ _ axis); [|lia|].
      * simpl. apply getitem_ok; [lia|]. by rewrite Nat2Z.id.
      * rewrite Nat2Z.id. by apply lookup_replicate_2.
    + rewrite (getitem_ok _ _ (replicate (length axis) y)); [|lia|].
      * simpl. apply getitem_ok; [lia|]. rewrite Nat2Z.id.
        by apply lookup_replicate_2.
      * rewrite Nat2Z.id, list_lookup_fmap, Hy. done.
Qed.

Lemma create_grid_mesh_witness :
  exists axis,
    create_grid {| GridSpec.minimum := -4; GridSpec.maximum := 4;
                   GridSpec.resolution := 3 |}
    = Ok (replicate 3 axis, map (fun y => replicate 3 y) axis, axis, axis) /\
    axis = [-4; 0; 4]%float.
Proof.
  destruct (create_grid_mesh {| GridSpec.minimum := -4; GridSpec.maximum := 4;
                                GridSpec.resolution := 3 |})
    as (axis & Hax & Hlen & Hg & _); [simpl; lia|].
  exists axis. vm_compute in Hax. injection Hax as <-. split; [exact Hg|done].
Defined.

Lemma fold_left_concat {A B} (f : A -> B -> A) (ls : list (list B)) a :
  fold_left (fun a r => fold_left f r a) ls a = fold_left f (concat ls) a.
Proof.
  revert a. induction ls as [|l ls IH]; simpl; intros a; [done|].
  by rewrite fold_left_app, IH.
Qed.

(** One value through the two tests of [grid_min_max]. *)
Definition min_max_step (mm : float * float) (value : float) : float * float :=
  (if (value <? mm.1)%float then value else mm.1,
   if (mm.2 <? value)%float then value else mm.2).

Lemma ltb_false_trans_r x y z :
  (y <? x)%float = false -> (y <? z)%float = true -> (z <? x)%float = false.
Proof.
  intros H1 H2. destruct (z <? x)%float eqn:E; [|done].
  by rewrite (ltb_trans _ _ _ H2 E) in H1.
Qed.

(** The running minimum: still [+inf] with no value below it seen, or the
    least value seen. *)
Definition is_min (seen : list float) (mn : float) : Prop :=
  (mn = infinity /\ forall v, v ∈ seen -> (v <? infinity)%float = false) \/
  (mn ∈ seen /\ (mn <? infinity)%float = true /\
   forall v, v ∈ seen -> (v <? mn)%float = false).

Definition is_max (seen : list float) (mx : float) : Prop :=
  (mx = neg_infinity /\ forall v, v ∈ seen -> (neg_infinity <? v)%float = false) \/
  (mx ∈ seen /\ (neg_infinity <? mx)%float = true /\
   forall v, v ∈ seen -> (mx <? v)%float = false).

Lemma min_max_fold vs :
  is_min vs (fold_left min_max_step vs (infinity, neg_infinity)).1 /\
  is_max vs (fold_left min_max_step vs (infinity, neg_infinity)).2.
Proof.
  induction vs as [|x vs [IHmin IHmax]] using rev_ind.
  - split; left; (split; [done|]); intros v Hv; by apply elem_of_nil in Hv.
  - rewrite fold_left_app. simpl.
    set (mm := fold_left min_max_step vs (infinity, neg_infinity)) in *.
    split.
    + destruct (x <? mm.1)%float eqn:E.
      * right. split; [apply elem_of_app; right; by left|].
        destruct IHmin as [[Hmn Hall]|(Hin & Hlt & Hall)].
        -- rewrite Hmn in E. split; [done|]. intros v Hv.
           apply elem_of_app in Hv as [Hv|Hv].
           ++ eapply ltb_false_trans; eauto.
           ++ apply list_elem_of_singleton in Hv as ->. apply ltb_irrefl.
        -- split; [by eapply ltb_trans|]. intros v Hv.
           apply elem_of_app in Hv as [Hv|Hv].
           ++ eapply ltb_false_trans; eauto.
           ++ apply list_elem_of_singleton in Hv as ->. apply ltb_irrefl.
      * destruct IHmin as [[Hmn Hall]|(Hin & Hlt & Hall)].
        -- left. split; [done|]. intros v Hv.
           apply elem_of_app in Hv as [Hv|Hv]; [eauto|].
           apply list_elem_of_singleton in Hv as ->. by rewrite <- Hmn.
        -- right. split; [apply elem_of_app; by left|]. split; [done|].
           intros v Hv. apply elem_of_app in Hv as [Hv|Hv]; [eauto|].
           by apply list_elem_of_singleton in Hv as ->.
    + destruct (mm.2 <? x)%float eqn:E.
      * right. split; [apply elem_of_app; right; by left|].
        destruct IHmax as [[Hmx Hall]|(Hin & Hlt & Hall)].
        -- rewrite Hmx in E. split; [done|]. intros v Hv.
           apply elem_of_app in Hv as [Hv|Hv].
           ++ eapply ltb_false_trans_r; eauto.
           ++ apply list_elem_of_singleton in Hv as ->. apply ltb_irrefl.
        -- split; [by eapply ltb_trans|]. intros v Hv.
           apply elem_of_app in Hv as [Hv|Hv].
           ++ eapply ltb_false_trans_r; eauto.
           ++ apply list_elem_of_singleton in Hv as ->. apply ltb_irrefl.
      * destruct IHmax as [[Hmx Hall]|(Hin & Hlt & Hall)].
        -- left. split; [done|]. intros v Hv.
           apply elem_of_app in Hv as [Hv|Hv]; [eauto|].
           apply list_elem_of_singleton in Hv as ->. by rewrite <- Hmx.
        -- right. split; [apply elem_of_app; by left|]. split; [done|].
           intros v Hv. apply elem_of_app in Hv as [Hv|Hv]; [eauto|].
           by apply list_elem_of_singleton in Hv as ->.
Qed.

Lemma grid_min_max_fold values :
  grid_min_max values
  = let mm := fold_left min_max_step (concat values) (infinity, neg_infinity) in
    if (mm.1 =? infinity)%float then (0, 0)%float else mm.
Proof.
  unfold grid_min_max. rewrite <- fold_left_concat.
  change (fun (mm : float * float) (row : list float) =>
            fold_left (fun (mm0 : float * float) (value : float) =>
              let min_val := if (value <? mm0.1)%float then value else mm0.1 in
              let max_val := if (mm0.2 <? value)%float then value else mm0.2 in
              (min_val, max_val)) row mm)
    with (fun (mm : float * float) (row : list float) => fold_left min_max_step row mm).
  by destruct (fold_left _ values _).
Qed.

(** Nothing but [-inf] is not above [-inf]. *)
Lemma not_above_neg_infinity v :
  (neg_infinity <? v)%float = false -> is_nan v = false -> v = neg_infinity.
Proof.
  intros H Hn. apply ltb_false in H as [H|[H|H]]; [done|congruence|].
  apply Prim2SF_inj. unfold key in H.
  change (Prim2SF neg_infinity) with (S754_infinity true) in *.
  rewrite is_nan_spec in Hn.
  destruct (Prim2SF v) as [s|[]| |[] m e]; try done;
    destruct H as [H|H]; unfold lt3 in H; simpl in H; try lia; try done.
  all: try (destruct s; simpl in H; try lia; done).
Qed.

(** X6: [grid_min_max] falls back to [(0.0, 0.0)] when no value is below
    [+inf] (an empty surface, or one of NaN and [+inf] only); otherwise both
    bounds are values of the surface, the lower does not exceed the upper,
    no value is below the lower and none above the upper (NaN values are
    passed over). *)
Theorem grid_min_max_bounds values lo hi :
  grid_min_max values = (lo, hi) ->
  ((forall v, v ∈ concat values -> (v <? infinity)%float = false) ->
   lo = 0%float /\ hi = 0%float) /\
  ((exists v, v ∈ concat values /\ (v <? infinity)%float = true) ->
   lo ∈ concat values /\ hi ∈ concat values /\ (lo <=? hi)%float = true /\
   forall v, v ∈ concat values ->
     (v <? lo)%float = false /\ (hi <? v)%float = false).
Proof.
  rewrite grid_min_max_fold. cbv zeta.
  destruct (min_max_fold (concat values)) as [Hmin Hmax].
  set (mm := fold_left min_max_step (concat values) (infinity, neg_infinity)) in *.
  intros H. split.
  - intros Hnone. destruct Hmin as [[Hmn _]|(Hin & Hlt & _)].
    + rewrite Hmn in H. change (infinity =? infinity)%float with true in H.
      by injection H as <- <-.
    + by rewrite (Hnone _ Hin) in Hlt.
  - intros (v0 & Hv0 & Hlt0).
    destruct Hmin as [[_ Hall]|(Hin & Hlt & Hall)].
    { by rewrite (Hall _ Hv0) in Hlt0. }
    assert ((mm.1 =? infinity)%float = false) as Hne.
    { destruct (mm.1 =? infinity)%float eqn:E; [|done]. exfalso.
      apply eqb_true in E as (_ & _ & Hk). pose proof Hlt as Hlt'.
      apply ltb_true in Hlt' as (_ & _ & Hl). rewrite Hk in Hl.
      by apply lt3_irrefl in Hl. }
    rewrite Hne in H. destruct mm as [mn mx]. injection H as <- <-. simpl in *.
    assert (is_nan v0 = false) as Hv0n by (by apply ltb_true in Hlt0 as (? & _)).
    assert (is_nan mn = false) as Hmnn by (by apply ltb_true in Hlt as (? & _)).
    assert (mx ∈ concat values /\ is_nan mx = false /\
            forall v, v ∈ concat values -> (mx <? v)%float = false)
      as (Hmx & Hmxn & Habove).
    { destruct Hmax as [[-> Hallx]|(Hinx & Hltx & Hallx)].
      - assert (v0 = neg_infinity) as -> by (apply not_above_neg_infinity; auto).
        done.
      - split; [done|]. split; [|done]. by apply ltb_true in Hltx as (_ & ? & _). }
    split; [done|]. split; [done|]. split.
    + apply not_ltb_leb; auto.
    + intros v Hv. split; auto.
Qed.

Lemma grid_min_max_bounds_witness :
  grid_min_max [[3; 1]; [nan; 2]]%float = (1, 3)%float /\
  (forall v, v ∈ concat [[3; 1]; [nan; 2]]%float ->
     (v <? 1)%float = false /\ (3 <? v)%float = false).
Proof.
  split; [reflexivity|].
  apply (grid_min_max_bounds [[3; 1]; [nan; 2]]%float 1 3 eq_refl).
  exists 3%float. split; [left | reflexivity].
Defined.

(** An all-infinite surface has no finite range: the fallback [(0, 0)]. *)
Lemma grid_min_max_infinite_surface :
  grid_min_max [[infinity; infinity]] = (0, 0)%float.
Proof. reflexivity. Qed.

Section Boundary.
Variables grid_x grid_y potential : grid.
Variables transition_energy tolerance : float.

Local Notation all_cells := (cells (rows_of grid_x) (cols_of grid_x)).

(** The cell [rc] lies on the contour and [p] are its coordinates. *)
Definition on_boundary (rc : Z * Z) (p : point) : Prop :=
  exists v, getitem2 potential rc.1 rc.2 = Ok v /\
            (abs (v - transition_energy) <=? tolerance)%float = true /\
            getitem2 grid_x rc.1 rc.2 = Ok p.1 /\
            getitem2 grid_y rc.1 rc.2 = Ok p.2.

Lemma boundary_fold cs points0 points :
  foldM (fun points (rc : Z * Z) =>
           v <- getitem2 potential rc.1 rc.2 ;;
           if (abs (v - transition_energy) <=? tolerance)%float
           then x <- getitem2 grid_x rc.1 rc.2 ;;
                y <- getitem2 grid_y rc.1 rc.2 ;;
                Ok (points ++ [(x, y)])
           else Ok points) points0 cs = Ok points ->
  exists new, points = points0 ++ new /\
    forall p, p ∈ new <-> exists rc, rc ∈ cs /\ on_boundary rc p.
Proof.
  revert points0. induction cs as [|c cs IH]; simpl; intros points0 H.
  - injection H as <-. exists []. rewrite app_nil_r. split; [done|].
    intros p. split; [intros Hp; by apply elem_of_nil in Hp|].
    intros (rc & Hrc & _). by apply elem_of_nil in Hrc.
  - apply bind_ok in H as (p1 & H1 & H).
    apply bind_ok in H1 as (v & Hv & H1).
    destruct (IH _ H) as (new & -> & Hnew). clear IH.
    destruct (abs (v - transition_energy) <=? tolerance)%float eqn:E.
    + apply bind_ok in H1 as (x & Hx & H1). apply bind_ok in H1 as (y & Hy & H1).
      injection H1 as <-. exists ((x, y) :: new).
      split; [by rewrite <- app_assoc|]. intros p. rewrite elem_of_cons, Hnew.
      split.
      * intros [->|(rc & Hrc & Hb)].
        -- exists c. split; [left|]. exists v. done.
        -- exists rc. split; [by right | done].
      * intros (rc & Hrc & Hb). apply elem_of_cons in Hrc as [->|Hrc]; [|eauto].
        left. destruct Hb as (v' & Hv' & _ & Hx' & Hy'). destruct p. simpl in *.
        congruence.
    + injection H1 as <-. exists new. split; [done|]. intros p. rewrite Hnew.
      split.
      * intros (rc & Hrc & Hb). exists rc. split; [by right | done].
      * intros (rc & Hrc & Hb). apply elem_of_cons in Hrc as [->|Hrc]; [|eauto].
        destruct Hb as (v' & Hv' & Hle & _). congruence.
Qed.

Lemma abs_not_below_zero x t :
  (abs x <=? t)%float = true -> (t <? 0)%float = false.
Proof.
  intros H. apply ltb_false. apply leb_true in H as (Hx & Ht & Hle).
  do 2 right. unfold key in *. rewrite abs_spec in Hle.
  change (Prim2SF 0) with (S754_zero false). 
  destruct (Prim2SF x) as [s|s| |s m e], (Prim2SF t) as [s'|[]| |[] m' e'];
    simpl in *; unfold le3, lt3 in *; simpl in *;
    try (left; lia); try (right; reflexivity); try (exfalso; destruct Hle as [Hle|Hle]; [lia|discriminate]).
Qed.

(** X5: the contour of [transition_state_boundary] holds exactly the
    coordinates of the cells whose potential lies within [tolerance] of
    [transition_energy]; a negative or NaN tolerance gives an empty
    contour, and a grid that can be read makes the function return. *)
Theorem transition_state_boundary_cells :
  (forall points,
     transition_state_boundary grid_x grid_y potential transition_energy
       tolerance = Ok points ->
     (forall p, p ∈ points <-> exists rc, rc ∈ all_cells /\ on_boundary rc p) /\
     ((tolerance <? 0)%float = true \/ is_nan tolerance = true -> points = [])) /\
  ((forall rc, rc ∈ all_cells -> exists v x y,
      getitem2 potential rc.1 rc.2 = Ok v /\
      getitem2 grid_x rc.1 rc.2 = Ok x /\ getitem2 grid_y rc.1 rc.2 = Ok y) ->
   exists points,
     transition_state_boundary grid_x grid_y potential transition_energy
       tolerance = Ok points).
Proof.
  unfold transition_state_boundary. rewrite grid_loop_cells. split.
  - intros points H. apply boundary_fold in H as (new & -> & Hnew). simpl.
    split; [done|]. intros Htol.
    destruct new as [|p new]; [done|]. exfalso.
    destruct (proj1 (Hnew p)) as (rc & _ & v & _ & Hle & _); [left|].
    destruct Htol as [Hneg|Hnan].
    + by rewrite (abs_not_below_zero _ _ Hle) in Hneg.
    + apply leb_true in Hle as (_ & Ht & _). congruence.
  - intros Hread.
    destruct (foldM_total (fun _ => True)
                (fun points (rc : Z * Z) =>
                   v <- getitem2 potential rc.1 rc.2 ;;
                   if (abs (v - transition_energy) <=? tolerance)%float
                   then x <- getitem2 grid_x rc.1 rc.2 ;;
                        y <- getitem2 grid_y rc.1 rc.2 ;;
                        Ok (points ++ [(x, y)])
                   else Ok points) all_cells []) as (points & H & _); [done| |eauto].
    intros s rc Hrc _. destruct (Hread rc Hrc) as (v & x & y & -> & -> & ->).
    simpl. destruct (_ <=? _)%float; eauto.
Qed.

End Boundary.

Lemma getmask_setmask (m m' : mask) r c v :
  0 <= r -> 0 <= c -> setmask m r c v = Ok m' ->
  getmask m' r c = Ok v /\
  forall r' c', 0 <= r' -> 0 <= c' -> (r', c') <> (r, c) ->
                getmask m' r' c' = getmask m r' c'.
Proof.
  intros Hr Hc H. unfold setmask in H.
  apply bind_ok in H as (row & Hrow & H). apply bind_ok in H as (row' & Hrow' & H).
  apply getitem_inv in Hrow; [|done].
  apply setitem_inv in Hrow' as [Hlc ->]; [|done].
  apply setitem_inv in H as [Hlr ->]; [|done].
  unfold getmask. split.
  - rewrite getitem_lookup, list_lookup_insert_eq by lia. simpl.
    rewrite getitem_lookup, list_lookup_insert_eq by lia. done.
  - intros r' c' Hr' Hc' Hne. rewrite !(getitem_lookup _ r') by done.
    destruct (decide (r' = r)) as [->|Hr'r].
    + rewrite list_lookup_insert_eq, Hrow by lia. simpl.
      rewrite !getitem_lookup by done.
      rewrite list_lookup_insert_ne; [done|]. intros Heq.
      apply Hne. f_equal. lia.
    + rewrite list_lookup_insert_ne by lia. done.
Qed.

Section MaskFacts.
Context (rt : Runtime).
Variables grid_x grid_y : grid.
Variables state_a state_b : CircularState.t.

Definition maskcell (m : mask * mask) (rc : Z * Z) : option (bool * bool) :=
  match getmask m.1 rc.1 rc.2, getmask m.2 rc.1 rc.2 with
  | Ok a, Ok b => Some (a, b)
  | _, _ => None
  end.

(** X4: each mask of [state_masks] holds, cell by cell, the membership
    test of its state at the coordinates of the cell; that test is the one
    [_state_entry_point] applies. *)
Theorem state_masks_cells mask_a mask_b :
  state_masks rt grid_x grid_y state_a state_b = Ok (mask_a, mask_b) ->
  (forall row col, 0 <= row < rows_of grid_x -> 0 <= col < cols_of grid_x ->
     exists x y in_a in_b,
       getitem2 grid_x row col = Ok x /\ getitem2 grid_y row col = Ok y /\
       within rt state_a x y = Ok in_a /\ getmask mask_a row col = Ok in_a /\
       within rt state_b x y = Ok in_b /\ getmask mask_b row col = Ok in_b) /\
  (forall state x y, within rt state x y = App.in_state rt state x y).
Proof.
  unfold state_masks. cbv zeta. rewrite grid_loop_cells. intros H. split; [|done].
  eapply (foldM_cellwise nonneg maskcell
            (fun rc (_ : bool * bool) =>
               x <- getitem2 grid_x rc.1 rc.2 ;;
               y <- getitem2 grid_y rc.1 rc.2 ;;
               in_a <- within rt state_a x y ;;
               in_b <- within rt state_b x y ;;
               Ok (in_a, in_b))) in H as [Hin _].
  - intros row col Hrow Hcol.
    destruct (Hin (row, col)) as (w & [ia ib] & _ & Hu & Hw').
    { by apply elem_of_cells. }
    simpl in Hu. apply bind_ok in Hu as (x & Hx & Hu).
    apply bind_ok in Hu as (y & Hy & Hu).
    apply bind_ok in Hu as (ia' & Hia & Hu).
    apply bind_ok in Hu as (ib' & Hib & Hu). injection Hu as -> ->.
    unfold maskcell in Hw'. simpl in Hw'.
    destruct (getmask mask_a row col) as [a|] eqn:Ea; [|done].
    destruct (getmask mask_b row col) as [b|] eqn:Eb; [|done].
    injection Hw' as -> ->. exists x, y, ia, ib. done.
  - intros s [r c] s' [Hr Hc] Hbody. simpl in *.
    apply bind_ok in Hbody as (x & Hx & Hbody).
    apply bind_ok in Hbody as (y & Hy & Hbody).
    apply bind_ok in Hbody as (ia & Hia & Hbody).
    apply bind_ok in Hbody as (ma & Hma & Hbody).
    apply bind_ok in Hbody as (ib & Hib & Hbody).
    apply bind_ok in Hbody as (mb & Hmb & Hbody). injection Hbody as <-.
    pose proof Hma as Hma0. pose proof Hmb as Hmb0.
    apply getmask_setmask in Hma as [Hnewa Hframea]; [|done..].
    apply getmask_setmask in Hmb as [Hnewb Hframeb]; [|done..].
    assert (exists w, maskcell s (r, c) = Some w) as [w Hw].
    { unfold maskcell, getmask, setmask in *. simpl.
      apply bind_ok in Hma0 as (ra & Hra & Hma0).
      apply bind_ok in Hma0 as (ra' & Hra' & _).
      apply bind_ok in Hmb0 as (rb & Hrb & Hmb0).
      apply bind_ok in Hmb0 as (rb' & Hrb' & _).
      rewrite Hra, Hrb. simpl.
      apply setitem_inv in Hra' as [Hla _]; [|done].
      apply setitem_inv in Hrb' as [Hlb _]; [|done].
      destruct (getitem_total ra c) as [va ->]; [lia|].
      destruct (getitem_total rb c) as [vb ->]; [lia|]. eauto. }
    exists w, (ia, ib). split; [done|]. split.
    { rewrite Hx, Hy. simpl. rewrite Hia, Hib. done. }
    split.
    { unfold maskcell. simpl. by rewrite Hnewa, Hnewb. }
    intros [r' c'] [Hr' Hc'] Hne. unfold maskcell. simpl in *.
    by rewrite Hframea, Hframeb.
  - apply NoDup_cells.
  - intros [r c] Hrc. apply elem_of_cells in Hrc. split; simpl; lia.
Qed.

End MaskFacts.

Lemma state_masks_cells_witness :
  state_masks Table.table_rt [[0; 1; 4]]%float [[0; 0; 0]]%float
    Examples.state_half Examples.state_one
  = Ok ([[true; true; false]], [[true; true; false]]) /\
  exists x y in_a in_b,
    getitem2 [[0; 1; 4]]%float 0 2 = Ok x /\ getitem2 [[0; 0; 0]]%float 0 2 = Ok y /\
    within Table.table_rt Examples.state_half x y = Ok in_a /\
    getmask [[true; true; false]] 0 2 = Ok in_a /\
    within Table.table_rt Examples.state_one x y = Ok in_b /\
    getmask [[true; true; false]] 0 2 = Ok in_b.
Proof.
  split; [vm_compute; reflexivity|].
  apply (proj1 (state_masks_cells Table.table_rt [[0; 1; 4]]%float [[0; 0; 0]]%float
                  Examples.state_half Examples.state_one
                  [[true; true; false]] [[true; true; false]]
                  ltac:(vm_compute; reflexivity)) 0 2);
    [unfold rows_of; simpl; lia | unfold cols_of; simpl; lia].
Defined.

(** The shape of a grid: its number of rows and the length of each. *)
Definition shaped (rows cols : nat) (m : grid) : Prop :=
  length m = rows /\ Forall (fun r => length r = cols) m.

Lemma shaped_zeros rows cols :
  shaped (Z.to_nat rows) (Z.to_nat cols) (zeros rows cols).
Proof.
  unfold shaped, zeros, range. rewrite length_map, length_range2. split; [f_equal; lia|].
  apply Forall_forall. intros r Hr. apply list_elem_of_fmap in Hr as (? & -> & _).
  rewrite length_map, length_range2. f_equal. lia.
Qed.

Lemma shaped_setitem2 rows cols m m' r c v :
  0 <= r -> 0 <= c -> shaped rows cols m -> setitem2 m r c v = Ok m' ->
  shaped rows cols m'.
Proof.
  intros Hr Hc [Hlen Hrows] H. unfold setitem2 in H.
  apply bind_ok in H as (row & Hrow & H). apply bind_ok in H as (row' & Hrow' & H).
  apply getitem_inv in Hrow; [|done].
  apply setitem_inv in Hrow' as [_ ->]; [|done].
  apply setitem_inv in H as [_ ->]; [|done].
  split; [by rewrite length_insert|].
  apply Forall_insert; [done|]. rewrite length_insert.
  by apply (proj1 (Forall_lookup _ _) Hrows (Z.to_nat r)).
Qed.

Section Shape.
Context (rt : Runtime).
Variables grid_x grid_y : grid.

Local Notation rows := (Z.to_nat (rows_of grid_x)).
Local Notation cols := (Z.to_nat (cols_of grid_x)).

Lemma potential_pass_shaped potential gaussian potential' :
  shaped rows cols potential ->
  potential_pass rt grid_x grid_y potential gaussian = Ok potential' ->
  shaped rows cols potential'.
Proof.
  intros Hs. unfold potential_pass. rewrite grid_loop_cells.
  apply (foldM_inv (shaped rows cols)); [done|].
  intros s [r c] s' Hrc Hsh Hbody. apply elem_of_cells in Hrc as [Hr Hc].
  simpl in Hbody. inv_bind. eapply shaped_setitem2; [| | |exact Hbody]; done || lia.
Qed.

Lemma gradient_pass_shaped (g : grid * grid) gaussian g' :
  shaped rows cols g.1 /\ shaped rows cols g.2 ->
  gradient_pass rt grid_x grid_y g gaussian = Ok g' ->
  shaped rows cols g'.1 /\ shaped rows cols g'.2.
Proof.
  intros Hs. unfold gradient_pass. rewrite grid_loop_cells.
  apply (foldM_inv (fun g : grid * grid =>
                      shaped rows cols g.1 /\ shaped rows cols g.2)); [done|].
  intros s [r c] s' Hrc [Hs1 Hs2] Hbody. apply elem_of_cells in Hrc as [Hr Hc].
  simpl in Hbody.
  apply bind_ok in Hbody as (x & _ & Hbody).
  apply bind_ok in Hbody as (y & _ & Hbody).
  apply bind_ok in Hbody as (term & _ & Hbody).
  apply bind_ok in Hbody as (coeff & _ & Hbody).
  apply bind_ok in Hbody as (oldx & _ & Hbody).
  apply bind_ok in Hbody as (gx & Hgx & Hbody).
  apply bind_ok in Hbody as (oldy & _ & Hbody).
  apply bind_ok in Hbody as (gy & Hgy & Hbody). injection Hbody as <-. simpl.
  split; (eapply shaped_setitem2; [| | |eassumption]; done || lia).
Qed.

(** X3: the grids the two grid-wide evaluators return have the shape read
    off [grid_x]: as many rows, each as long as the first row of [grid_x]. *)
Theorem evaluators_keep_shape gaussians :
  (forall potential,
     evaluate_potential rt grid_x grid_y gaussians = Ok potential ->
     length potential = length grid_x /\
     forall row, row ∈ potential -> Z.of_nat (length row) = cols_of grid_x) /\
  (forall gx gy,
     gradient_potential rt grid_x grid_y gaussians = Ok (gx, gy) ->
     length gx = length grid_x /\ length gy = length grid_x /\
     forall row, row ∈ gx \/ row ∈ gy -> Z.of_nat (length row) = cols_of grid_x).
Proof.
  assert (0 <= cols_of grid_x) as Hc0 by (unfold cols_of; destruct grid_x; lia).
  split.
  - intros potential H. unfold evaluate_potential in H. cbv zeta in H.
    apply (foldM_inv (shaped rows cols)) in H as [Hlen Hrows].
    + split; [unfold rows_of in Hlen; lia|]. intros row Hrow.
      rewrite (proj1 (Forall_forall _ _) Hrows row Hrow). lia.
    + apply shaped_zeros.
    + intros s g s' _ Hs Hp. by eapply potential_pass_shaped.
  - intros gx gy H. unfold gradient_potential in H. cbv zeta in H.
    apply (foldM_inv (fun g : grid * grid =>
                        shaped rows cols g.1 /\ shaped rows cols g.2)) in H
      as [[Hlx Hrx] [Hly Hry]]; simpl in *.
    + split; [unfold rows_of in Hlx; lia|]. split; [unfold rows_of in Hly; lia|].
      intros row [Hrow|Hrow].
      * rewrite (proj1 (Forall_forall _ _) Hrx row Hrow). lia.
      * rewrite (proj1 (Forall_forall _ _) Hry row Hrow). lia.
    + split; apply shaped_zeros.
    + intros s g s' _ Hs Hp. by eapply gradient_pass_shaped.
Qed.

End Shape.


(** The three features of [default_configuration], parsed. *)
Definition default_features : list Gaussian.t :=
  [ {| Gaussian.amplitude := 4; Gaussian.sigma := 1.2;
       Gaussian.x0 := -1.5; Gaussian.y0 := 0 |};
    {| Gaussian.amplitude := -6.5; Gaussian.sigma := 0.8;
       Gaussian.x0 := 0; Gaussian.y0 := 0 |};
    {| Gaussian.amplitude := 5; Gaussian.sigma := 1;
       Gaussian.x0 := 1.8; Gaussian.y0 := 0.6 |} ]%float.

Section Features.
Context (rt : Runtime).

Lemma default_features_parsed :
  (d <- subscript default_configuration "gaussians" ;; _to_gaussians rt d)
  = Ok default_features.
Proof. reflexivity. Qed.

(** X7: the parser never hands back an empty feature list: where the
    payload gives none (the key is absent, or its value has no element) the
    three default features stand in; otherwise there is one feature per
    element of the payload's list, in order. *)
Theorem parse_configuration_features payload spec gaussians state_a state_b :
  parse_configuration rt payload = Ok (spec, gaussians, state_a, state_b) ->
  gaussians <> [] /\
  exists items,
    iterate (get payload "gaussians" (VList [])) = Ok items /\
    match items with
    | [] => gaussians = default_features
    | _ => mapM (Gaussian.from_mapping rt) items = Ok gaussians
    end.
Proof.
  unfold parse_configuration. intros H.
  apply bind_ok in H as (spec' & _ & H).
  apply bind_ok in H as (gs0 & Hgs0 & H).
  apply bind_ok in H as (gs & Hgs & H).
  apply bind_ok in H as (a & _ & H).
  apply bind_ok in H as (b & _ & H).
  injection H as _ -> _ _.
  unfold _to_gaussians in Hgs0 at 1. apply bind_ok in Hgs0 as (items & Hit & Hmap).
  destruct gs0 as [|g0 gs0].
  - rewrite default_features_parsed in Hgs. injection Hgs as <-.
    split; [done|]. exists items. split; [done|].
    apply mapM_length in Hmap. by destruct items.
  - injection Hgs as <-. split; [done|]. exists items. split; [done|].
    destruct items; [discriminate Hmap | exact Hmap].
Qed.

End Features.

Lemma parse_configuration_features_witness :
  exists spec gaussians state_a state_b,
    parse_configuration Table.table_rt [("gaussians"%string, VList [])]
    = Ok (spec, gaussians, state_a, state_b) /\
    gaussians = default_features.
Proof.
  destruct (parse_configuration Table.table_rt [("gaussians"%string, VList [])])
    as [[[[spec gaussians] a] b]|] eqn:E; [|vm_compute in E; discriminate E].
  destruct (parse_configuration_features Table.table_rt _ _ _ _ _ E)
    as (_ & items & Hit & Hg).
  exists spec, gaussians, a, b. split; [reflexivity|].
  vm_compute in Hit. injection Hit as <-. exact Hg.
Defined.

(** What [create_grid] returns, when it does. *)
Lemma create_grid_inv spec grid_x grid_y x_axis y_axis :
  create_grid spec = Ok (grid_x, grid_y, x_axis, y_axis) ->
  linspace (GridSpec.minimum spec) (GridSpec.maximum spec)
    (GridSpec.resolution spec) = Ok x_axis /\
  y_axis = x_axis /\
  length x_axis = Z.to_nat (GridSpec.resolution spec) /\
  grid_x = replicate (length x_axis) x_axis /\
  grid_y = map (fun y => replicate (length x_axis) y) x_axis.
Proof.
  unfold create_grid. cbv zeta. intros H.
  apply bind_ok in H as (xa & Hxa & H). rewrite Hxa in H. simpl in H.
  pose proof (linspace_length _ _ _ _ Hxa) as Hlen.
  assert (range (GridSpec.resolution spec) = range (Z.of_nat (length xa))) as Hr.
  { unfold range, range2. do 2 f_equal. lia. }
  rewrite Hr in H.
  rewrite (mapM_const _ xa) in H by apply mapM_getitem_range. simpl in H.
  rewrite (mapM_rows _ _ _ xa) in H by apply mapM_getitem_range. simpl in H.
  rewrite length_range, Nat2Z.id in H. injection H as <- <- <- <-. done.
Qed.

Lemma getitem2_replicate_rows (axis : list float) (n row col : nat) x :
  (row < n)%nat -> axis !! col = Some x ->
  getitem2 (replicate n axis) (Z.of_nat row) (Z.of_nat col) = Ok x.
Proof.
  intros Hrow Hx. unfold getitem2.
  rewrite (getitem_ok _ _ axis); [|lia|].
  - simpl. apply getitem_ok; [lia|]. by rewrite Nat2Z.id.
  - rewrite Nat2Z.id. by apply lookup_replicate_2.
Qed.

Lemma getitem2_replicate_cols (axis : list float) (n row col : nat) y :
  (col < n)%nat -> axis !! row = Some y ->
  getitem2 (map (fun y => replicate n y) axis) (Z.of_nat row) (Z.of_nat col) = Ok y.
Proof.
  intros Hcol Hy. unfold getitem2.
  rewrite (getitem_ok _ _ (replicate n y)); [|lia|].
  - simpl. apply getitem_ok; [lia|]. rewrite Nat2Z.id. by apply lookup_replicate_2.
  - by rewrite Nat2Z.id, list_lookup_fmap, Hy.
Qed.

Lemma evaluate_potential_rows rt grid_x grid_y gaussians potential :
  evaluate_potential rt grid_x grid_y gaussians = Ok potential ->
  length potential = length grid_x.
Proof.
  unfold evaluate_potential. cbv zeta. intros H.
  apply (foldM_inv (shaped (Z.to_nat (rows_of grid_x)) (Z.to_nat (cols_of grid_x))))
    in H as [Hlen _].
  - unfold rows_of in Hlen. lia.
  - apply shaped_zeros.
  - intros s g s' _ Hs Hp. by eapply potential_pass_shaped.
Qed.

Lemma getitem2_replicate_rows_inv (axis : list float) (n : nat) r c x :
  0 <= r < Z.of_nat n -> 0 <= c < Z.of_nat (length axis) ->
  getitem2 (replicate n axis) r c = Ok x -> axis !! Z.to_nat c = Some x.
Proof.
  intros Hr Hc H.
  destruct (lookup_lt_is_Some_2 axis (Z.to_nat c)) as [x' Hx']; [lia|].
  pose proof (getitem2_replicate_rows axis n (Z.to_nat r) (Z.to_nat c) x') as H'.
  rewrite !Z2Nat.id in H' by lia. rewrite H' in H by (done || lia). congruence.
Qed.

Lemma getitem2_replicate_cols_inv (axis : list float) (n : nat) r c y :
  0 <= r < Z.of_nat (length axis) -> 0 <= c < Z.of_nat n ->
  getitem2 (map (fun y => replicate n y) axis) r c = Ok y ->
  axis !! Z.to_nat r = Some y.
Proof.
  intros Hr Hc H.
  destruct (lookup_lt_is_Some_2 axis (Z.to_nat r)) as [y' Hy']; [lia|].
  pose proof (getitem2_replicate_cols axis n (Z.to_nat r) (Z.to_nat c) y') as H'.
  rewrite !Z2Nat.id in H' by lia. rewrite H' in H by (done || lia). congruence.
Qed.

Lemma rows_of_replicate (axis : list float) n :
  rows_of (replicate n axis) = Z.of_nat n.
Proof. unfold rows_of. by rewrite length_replicate. Qed.

Lemma cols_of_replicate (axis : list float) n :
  (0 < n)%nat -> cols_of (replicate n axis) = Z.of_nat (length axis).
Proof. intros Hn. destruct n; [lia|]. reflexivity. Qed.

End GridFacts.

(** ** [run_neb]: forces, passes and degenerate bands *)

Module BandFacts.
Import Neb NebFacts.

Lemma ltb_leb x y : (x <? y)%float = true -> (x <=? y)%float = true.
Proof.
  intros H. float_order. apply leb_true. repeat split; try done. by left.
Qed.

(** [max] never lets a NaN in: it keeps its first argument unless the
    second compares greater. *)
Lemma max_nonneg a b : (0 <=? a)%float = true -> (0 <=? Py.max a b)%float = true.
Proof.
  intros Ha. unfold Py.max. destruct (a <? b)%float eqn:E; [|done].
  apply ltb_leb. by eapply leb_ltb_trans.
Qed.

Section Band.
Context (rt : Runtime).
Variable potential : point -> result float.
Variable gradient : point -> result point.
Variables (start end_ : point) (n_images : Z).
Variables (k_spring step_size : float) (max_iter : Z).
Variable force_tolerance : float.

Local Notation force_pass := (force_pass rt gradient n_images k_spring).
Local Notation update_pass := (update_pass n_images step_size).
Local Notation neb_loop :=
  (neb_loop rt gradient n_images k_spring step_size force_tolerance).
Local Notation run_neb :=
  (run_neb rt potential gradient start end_ n_images k_spring step_size
     max_iter force_tolerance).
Local Notation initial_images := (initial_images start end_ n_images).

Lemma force_pass_nonneg im forces fm :
  force_pass im forces = Ok fm -> (0 <=? fm.2)%float = true.
Proof.
  unfold Neb.force_pass.
  apply (foldM_inv (fun s : list point * float => (0 <=? s.2)%float = true));
    [reflexivity|].
  intros s idx s' _ Hs Hstep. unfold force_step in Hstep.
  apply bind_ok in Hstep as (f & _ & Hstep).
  apply bind_ok in Hstep as (fs & _ & Hstep). injection Hstep as <-.
  simpl. by apply max_nonneg.
Qed.

Lemma neb_loop_nonneg its im forces last l :
  neb_loop its im forces last = Ok l ->
  (forall it mf, last = Some (it, mf) -> (0 <=? mf)%float = true) ->
  forall it mf, l_last l = Some (it, mf) -> (0 <=? mf)%float = true.
Proof.
  revert im forces last l.
  induction its as [|it0 its IH]; simpl; intros im forces last l H Hlast.
  - injection H as <-. exact Hlast.
  - apply bind_ok in H as (fm & Hfm & H).
    apply force_pass_nonneg in Hfm.
    destruct (fm.2 <? force_tolerance)%float.
    + injection H as <-. simpl. intros it mf [= _ <-]. done.
    + apply bind_ok in H as (im' & _ & H). eapply IH; [exact H|].
      intros it mf [= _ <-]. done.
Qed.

(** X8: the [max_force] that [run_neb] reports is a number and not
    negative ([max] passes over a NaN norm); a tolerance that is not
    positive is never met, so the whole budget is used. *)
Theorem run_neb_max_force_nonneg r :
  run_neb = Ok r ->
  (0 <=? max_force r)%float = true /\
  ((0 <? force_tolerance)%float = false -> iterations r = max_iter).
Proof.
  unfold Neb.run_neb. intros H.
  apply bind_ok in H as (im0 & Him0 & H).
  apply bind_ok in H as (l & Hl & H).
  apply bind_ok in H as (en & _ & H).
  apply bind_ok in H as (gr & _ & H).
  destruct (l_last l) as [[it mf]|] eqn:Hlast; [|discriminate].
  injection H as <-. simpl.
  assert ((0 <=? mf)%float = true) as Hmf.
  { eapply neb_loop_nonneg; [exact Hl | discriminate | exact Hlast]. }
  split; [done|]. intros Htol.
  apply neb_loop_spec in Hl
    as [(j & it' & f' & fm & Hj & _ & Hf & Ht & Hlast') | (_ & Hlast')].
  - apply force_pass_nonneg in Hf.
    by rewrite (leb_ltb_trans _ _ _ Hf Ht) in Htol.
  - destruct Hlast' as [[_ Hnone] | (it' & mf' & Hit & Hlast' & _)]; [congruence|].
    rewrite Hlast in Hlast'. injection Hlast' as <- <-.
    destruct (Z.ltb_spec 0 max_iter) as [Hpos|Hneg].
    + rewrite last_range in Hit by done. injection Hit as <-. lia.
    + unfold range in Hit. rewrite range2_empty in Hit by lia. done.
Qed.

(** With at most two images there is no internal image. *)
Lemma force_pass_short im forces :
  n_images <= 2 -> force_pass im forces = Ok (forces, 0%float).
Proof. intros H. unfold Neb.force_pass. by rewrite range2_empty by lia. Qed.

Lemma update_pass_short im forces :
  n_images <= 2 -> update_pass im forces = Ok im.
Proof. intros H. unfold Neb.update_pass. by rewrite range2_empty by lia. Qed.

Lemma neb_loop_short its im forces last l :
  n_images <= 2 ->
  neb_loop its im forces last = Ok l ->
  l_images l = im /\
  l_last l = match its with
             | [] => last
             | it :: _ =>
                 if (0 <? force_tolerance)%float then Some (it, 0%float)
                 else option_map (fun it => (it, 0%float)) (list.last its)
             end.
Proof.
  intros HN. revert last l.
  induction its as [|it its IH]; simpl; intros last l H.
  - by injection H as <-.
  - rewrite force_pass_short in H by done. simpl in H.
    destruct (0 <? force_tolerance)%float.
    + by injection H as <-.
    + rewrite update_pass_short in H by done. simpl in H.
      apply IH in H as [Him Hlast]. split; [done|]. rewrite Hlast.
      destruct its; done.
Qed.

(** X9: one image makes the interpolation of [run_neb] divide by zero;
    with two images or none the band has no internal image: it is returned
    as initialised, with [max_force = 0.0], after one pass if the tolerance
    is positive and after the whole budget otherwise. *)
Theorem run_neb_short_band :
  (n_images = 1 -> run_neb = Raise ZeroDivisionError) /\
  (n_images <= 2 -> forall r, run_neb = Ok r ->
     initial_images = Ok (path r) /\
     max_force r = 0%float /\
     iterations r = (if (0 <? force_tolerance)%float then 1 else max_iter)).
Proof.
  split.
  - intros ->. reflexivity.
  - intros HN r H. unfold Neb.run_neb in H.
    apply bind_ok in H as (im0 & Him0 & H).
    apply bind_ok in H as (l & Hl & H).
    apply bind_ok in H as (en & _ & H).
    apply bind_ok in H as (gr & _ & H).
    apply neb_loop_short in Hl as [Him Hlast]; [|done].
    rewrite Hlast in H.
    destruct (Z.ltb_spec 0 max_iter) as [Hpos|Hneg].
    + unfold range in H. rewrite range2_cons in H by lia.
      destruct (0 <? force_tolerance)%float.
      * injection H as <-. simpl. by rewrite Him.
      * rewrite <- range2_cons in H by lia.
        change (range2 0 max_iter) with (range max_iter) in H.
        rewrite last_range in H by done. simpl in H.
        injection H as <-. simpl. rewrite Him. repeat split; [done|lia].
    + unfold range in H. rewrite range2_empty in H by lia. discriminate.
Qed.

Lemma force_pass_pointwise im forces fm :
  force_pass im forces = Ok fm ->
  (forall idx, 1 <= idx < n_images - 1 ->
     exists f, image_force rt gradient k_spring im idx = Ok f /\
               fm.1 !! Z.to_nat idx = Some f) /\
  (forall k : nat, ~ (1 <= Z.of_nat k < n_images - 1) -> fm.1 !! k = forces !! k).
Proof.
  unfold Neb.force_pass. intros H.
  eapply (PesFacts.foldM_cellwise (fun idx => 0 <= idx)
            (fun (s : list point * float) idx => s.1 !! Z.to_nat idx)
            (fun idx _ => image_force rt gradient k_spring im idx)) in H
    as [Hin Hout].
  - split.
    + intros idx Hidx. destruct (Hin idx) as (v & f & _ & Hf & Hfm).
      { by apply elem_of_range2. }
      eauto.
    + intros k Hk. rewrite <- (Nat2Z.id k). apply Hout; [lia|].
      rewrite elem_of_range2. lia.
  - intros s idx s' Hidx Hstep. unfold force_step in Hstep.
    apply bind_ok in Hstep as (f & Hf & Hstep).
    apply bind_ok in Hstep as (fs & Hfs & Hstep). injection Hstep as <-.
    apply setitem_inv in Hfs as [Hlt ->]; [|done]. simpl.
    destruct (lookup_lt_is_Some_2 s.1 (Z.to_nat idx)) as [v Hv]; [lia|].
    exists v, f. split; [done|]. split; [done|]. split.
    + apply list_lookup_insert_eq. lia.
    + intros idx' Hidx' Hne. apply list_lookup_insert_ne. lia.
  - apply PesFacts.NoDup_range2.
  - intros idx Hidx. apply elem_of_range2 in Hidx. lia.
Qed.

Lemma update_pass_pointwise im forces im' :
  update_pass im forces = Ok im' ->
  forall idx, 1 <= idx < n_images - 1 ->
    exists p f, im !! Z.to_nat idx = Some p /\ forces !! Z.to_nat idx = Some f /\
      im' !! Z.to_nat idx
      = Some (p.1 + step_size * f.1, p.2 + step_size * f.2)%float.
Proof.
  unfold Neb.update_pass. intros H.
  eapply (PesFacts.foldM_cellwise (fun idx => 0 <= idx)
            (fun (s : list point) idx => s !! Z.to_nat idx)
            (fun idx (p : point) =>
               f <- getitem forces idx ;;
               Ok (p.1 + step_size * f.1, p.2 + step_size * f.2)%float)) in H
    as [Hin _].
  - intros idx Hidx. destruct (Hin idx) as (p & p' & Hp & Hf & Hp').
    { by apply elem_of_range2. }
    apply bind_ok in Hf as (f & Hf & [= <-]).
    apply getitem_inv in Hf; [|lia]. eauto.
  - intros s idx s' Hidx Hstep. unfold update_step in Hstep.
    apply bind_ok in Hstep as (p & Hp & Hstep).
    apply bind_ok in Hstep as (f & Hf & Hstep).
    apply getitem_inv in Hp; [|done].
    apply setitem_inv in Hstep as [Hlt ->]; [|done].
    eexists p, _. split; [done|]. rewrite Hf. simpl. split; [done|]. split.
    + apply list_lookup_insert_eq. lia.
    + intros idx' Hidx' Hne. apply list_lookup_insert_ne. lia.
  - apply PesFacts.NoDup_range2.
  - intros idx Hidx. apply elem_of_range2 in Hidx. lia.
Qed.

(** X10: one pass of the main loop of [run_neb], image by image: every
    internal image moves by [step_size] times its force, every force is
    computed from the images as they were before the pass, and the two end
    images stay. *)
Theorem band_pass_pointwise im forces fm im' :
  force_pass im forces = Ok fm -> update_pass im fm.1 = Ok im' ->
  length im' = length im /\
  (forall idx, 1 <= idx < n_images - 1 ->
     exists p f,
       im !! Z.to_nat idx = Some p /\
       image_force rt gradient k_spring im idx = Ok f /\
       im' !! Z.to_nat idx
       = Some (p.1 + step_size * f.1, p.2 + step_size * f.2)%float) /\
  (forall k : nat, ~ (1 <= Z.of_nat k < n_images - 1) -> im' !! k = im !! k).
Proof.
  intros Hf Hu. pose proof (update_pass_spec _ _ _ _ _ Hu) as [Hlen Hframe].
  split; [done|]. split; [|done]. intros idx Hidx.
  destruct (proj1 (force_pass_pointwise _ _ _ Hf) idx Hidx) as (f & Himf & Hfm).
  destruct (update_pass_pointwise _ _ _ Hu idx Hidx) as (p & f' & Hp & Hf' & Hp').
  assert (Some f' = Some f) as [= ->] by (rewrite <- Hfm; symmetry; exact Hf').
  eauto.
Qed.

End Band.

(** The middle of three images in the valley moves down the slope. *)
Lemma band_pass_pointwise_witness :
  exists p f,
    [(-1, 1); (0, 1); (1, 1)]%float !! Z.to_nat 1 = Some p /\
    image_force Table.table_rt Examples.valley_gradient 2
      [(-1, 1); (0, 1); (1, 1)]%float 1 = Ok f /\
    [(-1, 1); (0, 0.5); (1, 1)]%float !! Z.to_nat 1
    = Some (p.1 + 0.5 * f.1, p.2 + 0.5 * f.2)%float.
Proof.
  apply (proj1 (proj2 (band_pass_pointwise Table.table_rt
           Examples.valley_gradient 3 2 0.5
           [(-1, 1); (0, 1); (1, 1)]%float [(0, 0); (0, 0); (0, 0)]%float
           ([(0, 0); (0, -1); (0, 0)]%float, 1%float)
           [(-1, 1); (0, 0.5); (1, 1)]%float eq_refl eq_refl)) 1).
  lia.
Defined.

Lemma run_neb_max_force_nonneg_witness :
  exists r,
    run_neb Table.table_rt Examples.valley Examples.valley_gradient
      (-1, 1)%float (1, 1)%float 3 2 0.5 10 0 = Ok r /\
    (0 <=? max_force r)%float = true /\ iterations r = 10.
Proof.
  eexists. split; [vm_compute; reflexivity|].
  destruct (run_neb_max_force_nonneg Table.table_rt Examples.valley
              Examples.valley_gradient (-1, 1)%float (1, 1)%float 3 2 0.5 10 0 _
              ltac:(vm_compute; reflexivity)) as [H1 H2].
  split; [exact H1 | exact (H2 eq_refl)].
Defined.

Section Inv.
Context (rt : Runtime).
Variable potential : point -> result float.
Variable gradient : point -> result point.
Variables (start end_ : point) (n_images : Z).
Variables (k_spring step_size : float) (max_iter : Z).
Variable force_tolerance : float.

(** What a returning run reports. *)
Lemma run_neb_inv r :
  run_neb rt potential gradient start end_ n_images k_spring step_size
    max_iter force_tolerance = Ok r ->
  length (path r) = Z.to_nat n_images /\
  mapM potential (path r) = Ok (energies r) /\
  mapM gradient (path r) = Ok (gradients r) /\
  1 <= iterations r <= max_iter /\
  (0 <=? max_force r)%float = true /\
  (iterations r < max_iter -> (max_force r <? force_tolerance)%float = true).
Proof.
  unfold Neb.run_neb. intros H.
  apply bind_ok in H as (im0 & Him0 & H).
  apply bind_ok in H as (l & Hl & H).
  apply bind_ok in H as (en & Hen & H).
  apply bind_ok in H as (gr & Hgr & H).
  destruct (l_last l) as [[it mf]|] eqn:Hlast; [|discriminate].
  injection H as <-. simpl.
  pose proof (neb_loop_endpoints _ _ _ _ _ _ _ _ _ _ _ Hl) as [Hlen _].
  apply mapM_length in Him0. rewrite Him0 in Hlen.
  unfold range in Hlen. rewrite length_range2 in Hlen.
  split; [rewrite Hlen; f_equal; lia|]. do 2 (split; [done|]).
  assert ((0 <=? mf)%float = true) as Hmf.
  { eapply neb_loop_nonneg; [exact Hl | discriminate | exact Hlast]. }
  apply neb_loop_spec in Hl
    as [(j & it' & f' & fm & Hj & _ & _ & Ht & Hlast') | (_ & Hlast')].
  - rewrite Hlast in Hlast'. injection Hlast' as -> ->.
    apply lookup_range in Hj as [-> Hlt]. repeat split; try done; lia.
  - destruct Hlast' as [[_ Hnone] | (it' & mf' & Hit & Hlast' & _)]; [congruence|].
    rewrite Hlast in Hlast'. injection Hlast' as <- <-.
    destruct (Z.ltb_spec 0 max_iter) as [Hpos|Hneg].
    + rewrite last_range in Hit by done. injection Hit as <-.
      repeat split; try done; lia.
    + unfold range in Hit. rewrite range2_empty in Hit by lia. done.
Qed.

(** X11: the three lists of an [NEBResult] run along the returned path:
    [n_images] points, with one energy and one gradient per image, the
    values of the two callables at that image. *)
Theorem run_neb_result_aligned r :
  run_neb rt potential gradient start end_ n_images k_spring step_size
    max_iter force_tolerance = Ok r ->
  length (path r) = Z.to_nat n_images /\
  length (energies r) = length (path r) /\
  length (gradients r) = length (path r) /\
  forall (i : nat) p, path r !! i = Some p ->
    exists e g, energies r !! i = Some e /\ potential p = Ok e /\
                gradients r !! i = Some g /\ gradient p = Ok g.
Proof.
  intros H. apply run_neb_inv in H as (Hlen & Hen & Hgr & _).
  split; [done|]. split; [by eapply mapM_length|].
  split; [by eapply mapM_length|]. intros i p Hp.
  destruct (mapM_lookup _ _ _ _ _ Hen Hp) as (e & He & Hpe).
  destruct (mapM_lookup _ _ _ _ _ Hgr Hp) as (g & Hg & Hpg).
  exists e, g. done.
Qed.

End Inv.

Lemma run_neb_result_aligned_witness :
  exists r,
    run_neb Table.table_rt Examples.valley Examples.valley_gradient
      (-1, 1)%float (1, 1)%float 3 2 0.5 10 0.2 = Ok r /\
    length (path r) = 3%nat /\
    length (energies r) = length (path r) /\
    length (gradients r) = length (path r).
Proof.
  eexists. split; [vm_compute; reflexivity|].
  destruct (run_neb_result_aligned Table.table_rt Examples.valley
              Examples.valley_gradient (-1, 1)%float (1, 1)%float 3 2 0.5 10 0.2 _
              ltac:(vm_compute; reflexivity)) as (H1 & H2 & H3 & _).
  split; [exact H1|]. split; [exact H2 | exact H3].
Defined.

End BandFacts.

(** ** [umbrella_sampling]: tangents, windows and samples *)

Module WindowFacts.
Import Sampling SamplingFacts.

Lemma getitem_neg {A} (l : list A) (i : Z) (a : A) :
  i < 0 -> 0 <= i + Z.of_nat (length l) ->
  l !! Z.to_nat (i + Z.of_nat (length l)) = Some a -> getitem l i = Ok a.
Proof.
  intros Hi Hj Hl. unfold getitem. cbv zeta.
  destruct (Z.ltb_spec i 0) as [_|?]; [|lia].
  destruct (Z.ltb_spec (i + Z.of_nat (length l)) 0) as [?|_]; [lia|].
  by rewrite Hl.
Qed.

Section Tangent.
Context (rt : Runtime).

(** The two images whose difference gives the direction at [idx]. *)
Definition neighbours (path : list point) (idx : Z) : Z * Z :=
  if idx =? 0 then (0, 1)
  else if idx =? Z.of_nat (length path) - 1
       then (Z.of_nat (length path) - 2, Z.of_nat (length path) - 1)
       else (idx - 1, idx + 1).

(** X12: on a path of at least two images [_estimate_tangent] returns at
    every index of the path: the normalised difference of the two neighbours
    (forward at the first image, backward at the last, central between),
    or [(1.0, 0.0)] where that difference has norm zero.  On a shorter
    path it raises at index 0. *)
Theorem estimate_tangent_cases (path : list point) (idx : Z) :
  (2 <= Z.of_nat (length path) -> 0 <= idx < Z.of_nat (length path) ->
   exists a b,
     path !! Z.to_nat (neighbours path idx).1 = Some a /\
     path !! Z.to_nat (neighbours path idx).2 = Some b /\
     _estimate_tangent rt path idx
     = Ok (let d := (b.1 - a.1, b.2 - a.2)%float in
           let norm := hypot rt d.1 d.2 in
           if (norm =? 0)%float then (1, 0)%float
           else (d.1 / norm, d.2 / norm)%float)) /\
  (Z.of_nat (length path) < 2 -> _estimate_tangent rt path 0 = Raise IndexError).
Proof.
  split.
  - intros Hlen Hidx. unfold neighbours, _estimate_tangent.
    destruct (Z.eqb_spec idx 0) as [->|Hne0].
    + destruct (lookup_lt_is_Some_2 path 0%nat) as [a Ha]; [lia|].
      destruct (lookup_lt_is_Some_2 path 1%nat) as [b Hb]; [lia|].
      exists a, b. split; [done|]. split; [done|].
      rewrite (getitem_ok path 1 b), (getitem_ok path 0 a) by (done || lia).
      simpl. unfold truediv. destruct (_ =? 0)%float; done.
    + destruct (Z.eqb_spec idx (Z.of_nat (length path) - 1)) as [->|Hnel].
      * destruct (lookup_lt_is_Some_2 path (Z.to_nat (Z.of_nat (length path) - 2)))
          as [a Ha]; [lia|].
        destruct (lookup_lt_is_Some_2 path (Z.to_nat (Z.of_nat (length path) - 1)))
          as [b Hb]; [lia|].
        exists a, b. split; [done|]. split; [done|].
        rewrite (getitem_neg path (-1) b), (getitem_neg path (-2) a);
          [| lia | lia | by replace (-2 + Z.of_nat (length path)) with (Z.of_nat (length path) - 2) by lia
           | lia | lia | by replace (-1 + Z.of_nat (length path)) with (Z.of_nat (length path) - 1) by lia].
        simpl. unfold truediv. destruct (_ =? 0)%float; done.
      * destruct (lookup_lt_is_Some_2 path (Z.to_nat (idx - 1))) as [a Ha]; [lia|].
        destruct (lookup_lt_is_Some_2 path (Z.to_nat (idx + 1))) as [b Hb]; [lia|].
        exists a, b. split; [done|]. split; [done|].
        rewrite (getitem_ok path (idx + 1) b), (getitem_ok path (idx - 1) a)
          by (done || lia).
        simpl. unfold truediv. destruct (_ =? 0)%float; done.
  - intros Hlen. destruct path as [|p [|q path]]; [done..|]. simpl in Hlen. lia.
Qed.

End Tangent.

Lemma estimate_tangent_cases_witness :
  exists a b,
    [(0, 0); (3, 4); (6, 8)]%float !! Z.to_nat (neighbours [(0, 0); (3, 4); (6, 8)]%float 2).1 = Some a /\
    [(0, 0); (3, 4); (6, 8)]%float !! Z.to_nat (neighbours [(0, 0); (3, 4); (6, 8)]%float 2).2 = Some b /\
    a = (3, 4)%float /\ b = (6, 8)%float /\
    _estimate_tangent Table.table_rt [(0, 0); (3, 4); (6, 8)]%float 2
    = Ok (0.6, 0.8)%float.
Proof.
  destruct (proj1 (estimate_tangent_cases Table.table_rt
                     [(0, 0); (3, 4); (6, 8)]%float 2))
    as (a & b & Ha & Hb & Ht); [simpl; lia..|].
  exists a, b. split; [exact Ha|]. split; [exact Hb|].
  vm_compute in Ha, Hb. injection Ha as <-. injection Hb as <-.
  split; [done|]. split; [done|]. rewrite Ht. vm_compute. reflexivity.
Defined.

Section Samples.
Context (rt : Runtime).
Variable potential_fn : point -> result float.
Variables (beta spring_constant window_half_width : float).
Variable samples_per_window : Z.

Local Notation draw :=
  (draw rt potential_fn beta spring_constant window_half_width).
Local Notation window_step :=
  (window_step rt potential_fn beta spring_constant window_half_width
     samples_per_window).
Local Notation umbrella_sampling :=
  (umbrella_sampling rt potential_fn beta spring_constant window_half_width
     samples_per_window).

(** A sample of the window centred at [point]: its potential is the
    potential at its coordinates, its bias the harmonic restraint towards
    the centre. *)
Definition sample_of (point : point) (s : Sample) : Prop :=
  potential_fn (x s, y s) = Ok (potential s) /\
  bias s = (0.5 * spring_constant *
            ((x s - point.1) * (x s - point.1) +
             (y s - point.2) * (y s - point.2)))%float.

Lemma draw_appends rng point tangent perp s s' :
  draw rng point tangent perp s = Ok s' ->
  exists a, d_samples s'.1 = d_samples s.1 ++ [a] /\ sample_of point a.
Proof.
  unfold Sampling.draw. intros H.
  apply bind_ok in H as (half & _ & H).
  destruct (gauss rt rng 0 half s.2) as [da h1].
  destruct (gauss rt rng 0 window_half_width h1) as [dp h2].
  apply bind_ok in H as (pe & Hpe & H). apply bind_ok in H as (w & _ & H).
  injection H as <-. eexists. split; [reflexivity|]. split; simpl; done.
Qed.

Lemma draws_append rng point tangent perp {X} (xs : list X) s s' :
  foldM (fun s _ => draw rng point tangent perp s) s xs = Ok s' ->
  exists new, d_samples s'.1 = d_samples s.1 ++ new /\
              length new = length xs /\ Forall (sample_of point) new.
Proof.
  revert s. induction xs as [|x0 xs IH]; simpl; intros s H.
  - injection H as <-. exists []. by rewrite app_nil_r.
  - apply bind_ok in H as (s1 & H1 & H).
    apply draw_appends in H1 as (a & Ha & Hs).
    destruct (IH _ H) as (new & Hnew & Hlen & HF).
    exists (a :: new). rewrite Hnew, Ha, <- app_assoc. simpl.
    split; [done|]. split; [by rewrite Hlen | by constructor].
Qed.

(** What the window loop records for the image [ip], sample by sample. *)
Definition window_samples (ip : Z * point) (w : UmbrellaWindow) : Prop :=
  center_index w = ip.1 /\
  length (samples w) = Z.to_nat samples_per_window /\
  Forall (sample_of ip.2) (samples w).

Lemma window_step_samples rng path s ip s' :
  window_step rng path s ip = Ok s' ->
  exists w, s'.1 = s.1 ++ [w] /\ window_samples ip w.
Proof.
  unfold Sampling.window_step. destruct ip as [idx point]. intros H.
  apply bind_ok in H as (tangent & _ & H).
  apply bind_ok in H as (perp & _ & H).
  apply bind_ok in H as (d & Hd & H).
  apply bind_ok in H as (fe & _ & H).
  apply bind_ok in H as (rc & _ & H). injection H as <-.
  eexists. split; [reflexivity|]. split; [reflexivity|]. simpl.
  apply draws_append in Hd as (new & Hnew & Hlen & HF). simpl in Hnew.
  rewrite Hnew. split; [|done]. rewrite Hlen. unfold range.
  rewrite length_range2. f_equal. lia.
Qed.

Lemma umbrella_sampling_samples_all path h windows h' :
  umbrella_sampling path h = Ok (windows, h') ->
  Forall2 window_samples (enumerate path) windows.
Proof.
  unfold Sampling.umbrella_sampling. simpl. intros H.
  eapply foldM_appends in H as (new & Hnew & HF);
    [|apply window_step_samples].
  simpl in Hnew. by subst new.
Qed.

(** X14: every window of [umbrella_sampling] holds [samples_per_window]
    samples (none if that is not positive, and then its free energy is
    NaN); each sample reports the potential at its own coordinates and the
    harmonic bias towards the image of its window. *)
Theorem umbrella_sampling_samples path h windows h' :
  umbrella_sampling path h = Ok (windows, h') ->
  forall (i : nat) w, windows !! i = Some w ->
    exists p, path !! i = Some p /\
      Z.of_nat (length (samples w)) = Z.max samples_per_window 0 /\
      (forall s, s ∈ samples w ->
         potential_fn (x s, y s) = Ok (potential s) /\
         bias s = (0.5 * spring_constant *
                   ((x s - p.1) * (x s - p.1) + (y s - p.2) * (y s - p.2)))%float) /\
      (samples_per_window <= 0 -> is_nan (free_energy w) = true).
Proof.
  intros H i w Hi.
  pose proof (umbrella_sampling_windows _ _ _ _ _ _ _ _ _ _ H) as Hrun.
  apply umbrella_sampling_samples_all in H as HF.
  destruct (Forall2_lookup_r _ _ _ _ _ HF Hi) as (ip & Hip & _ & Hlen & Hs).
  destruct (Forall2_lookup_r _ _ _ _ _ Hrun Hi) as (ip' & Hip' & _ & _ & ws & Hws & Hfe).
  assert (ip' = ip) as -> by congruence.
  unfold enumerate in Hip. rewrite list_lookup_imap in Hip.
  destruct (path !! i) as [p|] eqn:Hp; [|discriminate]. injection Hip as <-.
  simpl in *. exists p. split; [done|]. split; [lia|]. split.
  - intros s Hin. by apply (proj1 (Forall_forall _ _) Hs).
  - intros Hn. destruct (samples w) as [|s ss]; [|simpl in Hlen; lia].
    simpl in Hws. injection Hws as <-. simpl in Hfe. by injection Hfe as <-.
Qed.

End Samples.

(** Three windows of three samples each in a flat potential. *)
Lemma umbrella_sampling_samples_witness :
  exists windows h' w p,
    umbrella_sampling Table.table_rt (fun _ => Ok 0%float) 1 0 0.5 3
      [(0, 0); (1, 0); (2, 0)]%float ∅ = Ok (windows, h') /\
    windows !! 1%nat = Some w /\
    [(0, 0); (1, 0); (2, 0)]%float !! 1%nat = Some p /\
    Z.of_nat (length (samples w)) = Z.max 3 0 /\
    (forall s, s ∈ samples w ->
       (fun _ : point => Ok 0%float) (x s, y s) = Ok (potential s) /\
       bias s = (0.5 * 0 * ((x s - p.1) * (x s - p.1) +
                            (y s - p.2) * (y s - p.2)))%float).
Proof.
  pose proof (umbrella_sampling_samples Table.table_rt (fun _ => Ok 0%float)
                1 0 0.5 3 [(0, 0); (1, 0); (2, 0)]%float ∅) as H.
  destruct (umbrella_sampling Table.table_rt (fun _ => Ok 0%float) 1 0 0.5 3
              [(0, 0); (1, 0); (2, 0)]%float ∅) as [[windows h']|] eqn:E;
    [|vm_compute in E; discriminate E].
  destruct (windows !! 1%nat) as [w|] eqn:Ew;
    [|vm_compute in E; injection E as <- _; discriminate Ew].
  destruct (H windows h' eq_refl 1%nat w Ew) as (p & Hp & Hlen & Hs & _).
  exists windows, h', w, p.
  split; [reflexivity|]. split; [exact Ew|]. split; [exact Hp|].
  split; [exact Hlen | exact Hs].
Defined.

(** The coordinates of three windows: 0, 1/2 and 1. *)
Lemma umbrella_sampling_coordinates_witness :
  exists windows h',
    umbrella_sampling Table.table_rt (fun _ => Ok 0%float) 1 0 0.5 3
      [(0, 0); (1, 0); (2, 0)]%float ∅ = Ok (windows, h') /\
    length windows = 3%nat /\
    map reaction_coordinate windows = [0; 0.5; 1]%float /\
    map center_index windows = [0; 1; 2].
Proof.
  pose proof (umbrella_sampling_coordinates Table.table_rt (fun _ => Ok 0%float)
                1 0 0.5 3 [(0, 0); (1, 0); (2, 0)]%float ∅) as H.
  destruct (umbrella_sampling Table.table_rt (fun _ => Ok 0%float) 1 0 0.5 3
              [(0, 0); (1, 0); (2, 0)]%float ∅) as [[windows h']|] eqn:E;
    [|vm_compute in E; discriminate E].
  destruct (H windows h' eq_refl) as [Hlen _].
  exists windows, h'. split; [reflexivity|]. split; [exact Hlen|].
  vm_compute in E. injection E as <- _. split; reflexivity.
Defined.

End WindowFacts.

(** ** [compute_visualisation]: what a response holds *)

Module ResponseFacts.
Import Pes PesFacts App AppFacts GridFacts BandFacts.
Import Sampling SamplingFacts WindowFacts.

Lemma leb_false_trans_r x y z :
  (y <? x)%float = false -> (y <? z)%float = true -> (z <=? x)%float = false.
Proof.
  intros H1 H2. destruct (z <=? x)%float eqn:E; [|done].
  assert ((y <? x)%float = true); [|congruence].
  float_order. apply ltb_true. repeat split; try done.
  by eapply lt3_le3_trans.
Qed.

Definition argmax_step (b ie : Z * float) : Z * float :=
  if (b.2 <? ie.2)%float then ie else b.

Lemma argmax_fold ies b0 :
  let b := fold_left argmax_step ies b0 in
  (forall ie, ie ∈ ies -> (b.2 <? ie.2)%float = false) /\
  (b = b0 \/
   exists k : nat, ies !! k = Some b /\ (b0.2 <? b.2)%float = true /\
     forall (j : nat) ie, (j < k)%nat -> ies !! j = Some ie ->
       (b.2 <=? ie.2)%float = false).
Proof.
  cbv zeta. revert b0. induction ies as [|c cs IH]; simpl; intros b0.
  - split; [|by left]. intros ie Hie. by apply elem_of_nil in Hie.
  - destruct (b0.2 <? c.2)%float eqn:E.
    + replace (argmax_step b0 c) with c by (unfold argmax_step; by rewrite E).
      destruct (IH c) as [IHall IHbest]. split.
      * intros ie Hie. apply elem_of_cons in Hie as [->|Hie]; [|eauto].
        destruct IHbest as [->|(k & _ & Hlt & _)]; [apply ltb_irrefl|].
        by apply ltb_asym.
      * right. destruct IHbest as [->|(k & Hk & Hlt & Hfirst)].
        -- exists 0%nat. split; [done|]. split; [done|]. intros; lia.
        -- exists (S k). split; [done|]. split; [by eapply ltb_trans|].
           intros [|j] ie Hj Hie; simpl in Hie.
           ++ injection Hie as <-. by apply ltb_not_leb.
           ++ eapply Hfirst; eauto. lia.
    + replace (argmax_step b0 c) with b0 by (unfold argmax_step; by rewrite E).
      destruct (IH b0) as [IHall IHbest]. split.
      * intros ie Hie. apply elem_of_cons in Hie as [->|Hie]; [|eauto].
        destruct IHbest as [->|(k & _ & Hlt & _)]; [done|].
        eapply ltb_false_trans_r; eauto.
      * destruct IHbest as [->|(k & Hk & Hlt & Hfirst)]; [by left|].
        right. exists (S k). split; [done|]. split; [done|].
        intros [|j] ie Hj Hie; simpl in Hie.
        -- injection Hie as <-. eapply leb_false_trans_r; eauto.
        -- eapply Hfirst; eauto. lia.
Qed.

Lemma leb_false_ltb e e' :
  (e <=? e')%float = false -> is_nan e = false ->
  (e' <? e)%float = true \/ is_nan e' = true.
Proof.
  intros H He. destruct (is_nan e') eqn:E; [by right|]. left.
  by apply not_leb_ltb.
Qed.

(** The index [k] holds the first maximum of [energies]: no energy
    exceeds the one at [k]; every earlier energy is smaller, or NaN; and
    an index other than 0 is chosen only over a first energy that is a
    number, and holds a number itself (a NaN in front is never replaced,
    a NaN behind never chosen). *)
Definition first_maximum (energies : list float) (k : nat) (e : float) : Prop :=
  energies !! k = Some e /\
  (forall (j : nat) e', energies !! j = Some e' -> (e <? e')%float = false) /\
  (forall (j : nat) e', (j < k)%nat -> energies !! j = Some e' ->
     (e' <? e)%float = true \/ is_nan e' = true) /\
  ((0 < k)%nat ->
   is_nan e = false /\
   forall e0, energies !! 0%nat = Some e0 -> is_nan e0 = false).

(** There is at most one such index. *)
Lemma first_maximum_unique energies k1 e1 k2 e2 :
  first_maximum energies k1 e1 -> first_maximum energies k2 e2 ->
  k1 = k2 /\ e1 = e2.
Proof.
  assert (forall k1 e1 k2 e2, first_maximum energies k1 e1 ->
            first_maximum energies k2 e2 -> ~ (k1 < k2)%nat) as Hlt.
  { clear. intros k1 e1 k2 e2 (Hk1 & Hmax1 & _ & Hnan1)
      (Hk2 & _ & Hfirst2 & Hnan2) Hlt.
    destruct Hnan2 as [_ H0]; [lia|].
    pose proof (Hmax1 k2 e2 Hk2) as Hle.
    destruct (Hfirst2 k1 e1 Hlt Hk1) as [Hgt|He1]; [congruence|].
    destruct k1 as [|k1].
    - by rewrite (H0 e1 Hk1) in He1.
    - destruct Hnan1 as [He1' _]; [lia|]. congruence. }
  intros H1 H2.
  assert (k1 = k2) as ->.
  { pose proof (Hlt _ _ _ _ H1 H2). pose proof (Hlt _ _ _ _ H2 H1). lia. }
  split; [done|]. destruct H1 as [H1 _], H2 as [H2 _]. congruence.
Qed.

Lemma argmax_inv energies i :
  argmax energies = Ok i ->
  exists (k : nat) e, i = Z.of_nat k /\ first_maximum energies k e.
Proof.
  destruct energies as [|e0 rest]; simpl; [done|]. intros [= <-].
  change (fun (b ie : Z * float) => if (b.2 <? ie.2)%float then ie else b)
    with argmax_step.
  set (ies := imap (fun i e => (Z.of_nat (S i), e)) rest).
  destruct (argmax_fold ies (0, e0)) as [Hall Hbest]. cbv zeta in *.
  set (b := fold_left argmax_step ies (0, e0)) in *.
  assert (forall (j : nat) e', rest !! j = Some e' -> (b.2 <? e')%float = false)
    as Hrest.
  { intros j e' Hj. apply (Hall (Z.of_nat (S j), e')).
    apply list_elem_of_lookup. exists j. subst ies.
    by rewrite list_lookup_imap, Hj. }
  destruct Hbest as [Hb|(k & Hk & Hlt & Hfirst)].
  - exists 0%nat, e0. rewrite Hb. simpl. split; [done|].
    unfold first_maximum. split; [done|]. split; [|split; intros; lia].
    intros [|j] e' Hj; simpl in Hj.
    + injection Hj as <-. apply ltb_irrefl.
    + rewrite Hb in Hrest. eauto.
  - subst ies. rewrite list_lookup_imap in Hk.
    destruct (rest !! k) as [e|] eqn:Ek; [|done]. simpl in Hk.
    injection Hk as Hk. rewrite <- Hk in *. simpl in *.
    assert (is_nan e0 = false /\ is_nan e = false) as [He0 He].
    { by apply ltb_true in Hlt as (? & ? & _). }
    exists (S k), e. split; [done|]. unfold first_maximum.
    split; [done|]. split; [|split].
    + intros [|j] e' Hj; simpl in Hj.
      * injection Hj as <-. by apply ltb_asym.
      * eauto.
    + intros [|j] e' Hj Hj'; simpl in Hj'.
      * injection Hj' as <-. by left.
      * apply leb_false_ltb; [|done].
        apply (Hfirst j (Z.of_nat (S j), e')); [lia|].
        by rewrite list_lookup_imap, Hj'.
    + intros _. split; [done|]. intros e0' [= <-]. done.
Qed.


(** X15: [max(range(len(energies)), key=...)], which picks the transition
    state: no index on an empty list ([ValueError]), and otherwise the
    first maximum: a valid index [k] such that no energy compares greater
    than the one at [k], every earlier energy is strictly smaller or NaN,
    and [k] is not 0 only if the first energy and the chosen one are
    numbers (a NaN in front is kept, a NaN behind is never chosen).  These
    conditions hold of no other index. *)
Theorem argmax_first_maximum energies :
  match argmax energies with
  | Raise e => e = ValueError /\ energies = []
  | Ok i =>
      exists (k : nat) e,
        i = Z.of_nat k /\ energies !! k = Some e /\
        (forall (j : nat) e', energies !! j = Some e' -> (e <? e')%float = false) /\
        (forall (j : nat) e', (j < k)%nat -> energies !! j = Some e' ->
           (e' <? e)%float = true \/ is_nan e' = true) /\
        ((0 < k)%nat ->
         is_nan e = false /\
         forall e0, energies !! 0%nat = Some e0 -> is_nan e0 = false) /\
        (forall k' e', first_maximum energies k' e' -> k' = k /\ e' = e)
  end.
Proof.
  destruct (argmax energies) as [i|e] eqn:E.
  - apply argmax_inv in E as (k & e & -> & Hk).
    exists k, e. split; [done|]. pose proof Hk as (He & Hmax & Hfirst & Hnan).
    do 4 (split; [done|]). intros k' e' Hk'.
    by apply (first_maximum_unique _ _ _ _ _ Hk' Hk).
  - destruct energies; [by injection E as <- | discriminate E].
Qed.

(** A NaN among the energies: in front it is kept, behind it is passed
    over. *)
Lemma argmax_nan_cases :
  argmax [nan; 1; 2]%float = Ok 0 /\ argmax [1; nan]%float = Ok 0 /\
  argmax [1; nan; 2; 2]%float = Ok 2.
Proof. repeat split. Qed.

Section Response.
Context (rt : Runtime).
Variable payload : dict.
Variable h : gmap nat (rng_state rt).

Local Notation potential_of gaussians :=
  (fun point => evaluate_potential_at_point rt point gaussians).
Local Notation gradient_of gaussians :=
  (fun point => evaluate_gradient_at_point rt point gaussians).

(** The steps of a call that returns. *)
Lemma compute_visualisation_inv resp h' :
  compute_visualisation rt payload h = Ok (resp, h') ->
  exists spec gaussians state_a state_b grid_x grid_y x_axis y_axis
         potential_values start end_ neb idx tp te bp u,
    parse_configuration rt payload = Ok (spec, gaussians, state_a, state_b) /\
    create_grid spec = Ok (grid_x, grid_y, x_axis, y_axis) /\
    evaluate_potential rt grid_x grid_y gaussians = Ok potential_values /\
    _state_entry_point rt grid_x grid_y potential_values state_a = Ok start /\
    _state_entry_point rt grid_x grid_y potential_values state_b = Ok end_ /\
    Neb.run_neb rt (potential_of gaussians) (gradient_of gaussians) start end_
      18 2.5 0.03 600 5e-4 = Ok neb /\
    argmax (Neb.energies neb) = Ok idx /\
    getitem (Neb.path neb) idx = Ok tp /\
    getitem (Neb.energies neb) idx = Ok te /\
    transition_state_boundary grid_x grid_y potential_values te 0.15 = Ok bp /\
    Sampling.umbrella_sampling rt (potential_of gaussians) 1 5 0.5 120
      (Neb.path neb) h = Ok (u, h') /\
    resp = {| grid_x_axis := x_axis;
              grid_y_axis := y_axis;
              grid_z := potential_values;
              grid_zMin := (grid_min_max potential_values).1;
              grid_zMax := (grid_min_max potential_values).2;
              state_A := state_a;
              state_B := state_b;
              path := map (fun pe : point * float => (pe.1.1, pe.1.2, pe.2))
                          (zip (Neb.path neb) (Neb.energies neb));
              transitionState :=
                {| ts_index := idx; ts_x := tp.1; ts_y := tp.2; ts_energy := te |};
              boundary := bp;
              umbrella := u;
              nebIterations := Neb.iterations neb;
              nebMaxForce := Neb.max_force neb |}.
Proof.
  unfold compute_visualisation. intros H.
  apply bind_ok in H as ([[[spec gaussians] state_a] state_b] & Hcfg & H).
  apply bind_ok in H as ([[[grid_x grid_y] x_axis] y_axis] & Hgrid & H).
  apply bind_ok in H as (pot & Hpot & H).
  apply bind_ok in H as (start & Hstart & H).
  apply bind_ok in H as (end_ & Hend & H).
  apply bind_ok in H as (neb & Hneb & H).
  apply bind_ok in H as (idx & Hidx & H).
  apply bind_ok in H as (tp & Htp & H).
  apply bind_ok in H as (te & Hte & H).
  apply bind_ok in H as (bp & Hbp & H).
  apply bind_ok in H as ([u hu] & Hu & H).
  destruct (grid_min_max pot) as [zmin zmax] eqn:Hmm.
  cbn [fst snd] in H. injection H as <- <-.
  exists spec, gaussians, state_a, state_b, grid_x, grid_y, x_axis, y_axis,
         pot, start, end_, neb, idx, tp, te, bp, u.
  rewrite Hmm. cbn [fst snd].
  do 11 (split; [assumption|]). reflexivity.
Qed.

Lemma lookup_path_entries (points : list point) (energies : list float)
    (j : nat) x y z :
  map (fun pe : point * float => (pe.1.1, pe.1.2, pe.2)) (zip points energies) !! j
  = Some (x, y, z) <->
  points !! j = Some (x, y) /\ energies !! j = Some z.
Proof.
  rewrite list_lookup_fmap, lookup_zip_with.
  destruct (points !! j) as [[px py]|], (energies !! j) as [e|]; simpl;
    split; try (intros [? ?]); try intros ?; try done; try congruence; naive_solver.
Qed.

(** X16: the grid of a response.  The two axes are one and the same
    [linspace] of the parsed grid, [z] has one row per axis value and holds
    at [(row, col)] what the point evaluator returns at
    [(x[col], y[row])], [zMin] and [zMax] are [grid_min_max] of [z], and
    the boundary holds exactly the grid points whose [z] lies within 0.15
    of the energy of the transition state. *)
Theorem response_grid resp h' :
  compute_visualisation rt payload h = Ok (resp, h') ->
  exists spec gaussians state_a state_b,
    parse_configuration rt payload = Ok (spec, gaussians, state_a, state_b) /\
    state_A resp = state_a /\ state_B resp = state_b /\
    linspace (GridSpec.minimum spec) (GridSpec.maximum spec)
      (GridSpec.resolution spec) = Ok (grid_x_axis resp) /\
    grid_y_axis resp = grid_x_axis resp /\
    Z.of_nat (length (grid_x_axis resp)) = GridSpec.resolution spec /\
    length (grid_z resp) = length (grid_x_axis resp) /\
    (forall (row col : nat) x y,
       grid_x_axis resp !! col = Some x -> grid_x_axis resp !! row = Some y ->
       exists v, getitem2 (grid_z resp) (Z.of_nat row) (Z.of_nat col) = Ok v /\
                 evaluate_potential_at_point rt (x, y) gaussians = Ok v) /\
    grid_min_max (grid_z resp) = (grid_zMin resp, grid_zMax resp) /\
    (forall p, p ∈ boundary resp <->
       exists (row col : nat) v,
         grid_x_axis resp !! col = Some p.1 /\ grid_x_axis resp !! row = Some p.2 /\
         getitem2 (grid_z resp) (Z.of_nat row) (Z.of_nat col) = Ok v /\
         (abs (v - ts_energy (transitionState resp)) <=? 0.15)%float = true).
Proof.
  intros H. apply compute_visualisation_inv in H
    as (spec & gaussians & state_a & state_b & grid_x & grid_y & x_axis & y_axis
        & pot & start & end_ & neb & idx & tp & te & bp & u
        & Hcfg & Hgrid & Hpot & _ & _ & _ & _ & _ & _ & Hbp & _ & ->).
  cbn [state_A state_B grid_x_axis grid_y_axis grid_z grid_zMin grid_zMax
       boundary transitionState ts_energy].
  exists spec, gaussians, state_a, state_b.
  apply create_grid_inv in Hgrid as (Hax & -> & Hlen & -> & ->).
  pose proof (ParseFacts.parse_accepts _ _ _ _ _ _ Hcfg) as (_ & Hres & _).
  set (n := length x_axis) in *.
  assert (0 < n)%nat as Hn by lia.
  pose proof (rows_of_replicate x_axis n) as Hrows.
  pose proof (cols_of_replicate x_axis n Hn) as Hcols. fold n in Hcols.
  do 4 (split; [done|]). split; [done|]. split; [lia|]. split.
  { apply evaluate_potential_rows in Hpot. by rewrite length_replicate in Hpot. }
  split.
  { intros row col x y Hx Hy.
    pose proof (lookup_lt_Some _ _ _ Hx) as Hcol.
    pose proof (lookup_lt_Some _ _ _ Hy) as Hrow. fold n in Hcol, Hrow.
    destruct (evaluators_agree_at_cell rt (replicate n x_axis)
                (map (fun y => replicate n y) x_axis)
                (Z.of_nat row) (Z.of_nat col) x y) with (gaussians := gaussians)
      as (Hp & _); [lia | lia | by apply getitem2_replicate_rows
                   | by apply getitem2_replicate_cols |].
    by apply Hp. }
  split; [by destruct (grid_min_max pot)|].
  unfold transition_state_boundary in Hbp. rewrite grid_loop_cells in Hbp.
  apply boundary_fold in Hbp as (new & -> & Hnew). cbn [app].
  intros p. rewrite Hnew, Hrows, Hcols. split.
  - intros ([r c] & Hrc & v & Hv & Hle & Hx & Hy).
    apply elem_of_cells in Hrc as [Hr Hc]. cbn [fst snd] in *.
    exists (Z.to_nat r), (Z.to_nat c), v. rewrite !Z2Nat.id by lia.
    split; [eapply getitem2_replicate_rows_inv; [| |exact Hx]; lia|].
    split; [eapply getitem2_replicate_cols_inv; [| |exact Hy]; lia|]. done.
  - intros (row & col & v & Hx & Hy & Hv & Hle).
    pose proof (lookup_lt_Some _ _ _ Hx) as Hcol.
    pose proof (lookup_lt_Some _ _ _ Hy) as Hrow. fold n in Hcol, Hrow.
    exists (Z.of_nat row, Z.of_nat col). split; [apply elem_of_cells; lia|].
    exists v. cbn [fst snd]. split; [done|]. split; [done|].
    split; [by apply getitem2_replicate_rows | by apply getitem2_replicate_cols].
Qed.

(** X17: the path of a response.  It has 18 points, each with the
    potential at its coordinates; the transition state is the point of the
    path at the reported index [k], the first maximum of the path: no
    energy of the path compares greater than its energy, every earlier
    energy is strictly smaller or NaN, and [k] is not 0 only if the first
    energy and the reported one are numbers; no other index meets these
    conditions.  The iteration count lies between 1 and 600, the reported
    force is a number and not negative, and a count below 600 comes with a
    force below the tolerance 5e-4. *)
Theorem response_path resp h' :
  compute_visualisation rt payload h = Ok (resp, h') ->
  exists spec gaussians state_a state_b,
    parse_configuration rt payload = Ok (spec, gaussians, state_a, state_b) /\
    length (path resp) = 18%nat /\
    (forall x y z, (x, y, z) ∈ path resp ->
       evaluate_potential_at_point rt (x, y) gaussians = Ok z) /\
    (exists k : nat,
       ts_index (transitionState resp) = Z.of_nat k /\
       path resp !! k = Some (ts_x (transitionState resp),
                              ts_y (transitionState resp),
                              ts_energy (transitionState resp)) /\
       (forall (j : nat) x y z, path resp !! j = Some (x, y, z) ->
          (ts_energy (transitionState resp) <? z)%float = false) /\
       (forall (j : nat) x y z, (j < k)%nat -> path resp !! j = Some (x, y, z) ->
          (z <? ts_energy (transitionState resp))%float = true \/
          is_nan z = true) /\
       ((0 < k)%nat ->
        is_nan (ts_energy (transitionState resp)) = false /\
        forall x y z, path resp !! 0%nat = Some (x, y, z) -> is_nan z = false) /\
       (forall k' : nat,
          (exists x' y' z',
             path resp !! k' = Some (x', y', z') /\
             (forall (j : nat) x y z, path resp !! j = Some (x, y, z) ->
                (z' <? z)%float = false) /\
             (forall (j : nat) x y z, (j < k')%nat ->
                path resp !! j = Some (x, y, z) ->
                (z <? z')%float = true \/ is_nan z = true) /\
             ((0 < k')%nat ->
              is_nan z' = false /\
              forall x y z, path resp !! 0%nat = Some (x, y, z) ->
                is_nan z = false)) ->
          k' = k)) /\
    1 <= nebIterations resp <= 600 /\
    (0 <=? nebMaxForce resp)%float = true /\
    (nebIterations resp < 600 -> (nebMaxForce resp <? 5e-4)%float = true).
Proof.
  intros H. apply compute_visualisation_inv in H
    as (spec & gaussians & state_a & state_b & grid_x & grid_y & x_axis & y_axis
        & pot & start & end_ & neb & idx & tp & te & bp & u
        & Hcfg & _ & _ & _ & _ & Hneb & Hidx & Htp & Hte & _ & _ & ->).
  cbn [path transitionState ts_index ts_x ts_y ts_energy nebIterations nebMaxForce].
  exists spec, gaussians, state_a, state_b. split; [done|].
  apply run_neb_inv in Hneb as (Hlen & Hen & _ & Hit & Hmf & Hearly).
  pose proof (mapM_length _ _ _ Hen) as Hlen'.
  split.
  { rewrite length_map, length_zip_with. rewrite Hlen', Hlen. reflexivity. }
  split.
  { intros x y z Hin. apply list_elem_of_lookup in Hin as [j Hj].
    apply lookup_path_entries in Hj as [Hp He].
    destruct (mapM_lookup _ _ _ _ _ Hen Hp) as (z' & Hz' & Hpot). congruence. }
  split; [|done].
  apply argmax_inv in Hidx as (k & e & -> & He & Hmax & Hfirst & Hnan).
  apply getitem_inv in Htp, Hte; [|lia..]. rewrite Nat2Z.id in Htp, Hte.
  assert (te = e) as -> by congruence.
  exists k. split; [done|]. split.
  { apply lookup_path_entries. by destruct tp. }
  split; [|split; [|split]].
  - intros j x y z Hj. apply lookup_path_entries in Hj as [_ Hz]. eauto.
  - intros j x y z Hlt Hj. apply lookup_path_entries in Hj as [_ Hz]. eauto.
  - intros Hk. destruct (Hnan Hk) as [Hne H0]. split; [done|].
    intros x y z Hj. apply lookup_path_entries in Hj as [_ Hz]. eauto.
  - intros k' Hk'. destruct Hk' as (x' & y' & z' & Hj & Hmax' & Hfirst' & Hnan').
    apply lookup_path_entries in Hj as [_ Hz'].
    refine (proj1 (first_maximum_unique (Neb.energies neb) k' z' k e _ _)).
    + split; [done|]. split; [|split].
      * intros j e' Hj. destruct (lookup_lt_is_Some_2 (Neb.path neb) j)
          as [[x y] Hp]; [apply lookup_lt_Some in Hj; lia|].
        apply (Hmax' j x y e'). by apply lookup_path_entries.
      * intros j e' Hlt Hj. destruct (lookup_lt_is_Some_2 (Neb.path neb) j)
          as [[x y] Hp]; [apply lookup_lt_Some in Hj; lia|].
        apply (Hfirst' j x y e' Hlt). by apply lookup_path_entries.
      * intros Hk. destruct (Hnan' Hk) as [Hne H0]. split; [done|].
        intros e0 Hj. destruct (lookup_lt_is_Some_2 (Neb.path neb) 0)
          as [[x y] Hp]; [lia|].
        apply (H0 x y e0). by apply lookup_path_entries.
    + done.
Qed.

(** X18: the umbrella windows of a response.  There are 18, the [i]-th
    centred at the [i]-th point of the path, with index [i], reaction
    coordinate [i / 17] and 120 samples, each reporting the potential at
    its own coordinates and the bias [0.5 * 5 * distance^2] to that
    point. *)
Theorem response_umbrella resp h' :
  compute_visualisation rt payload h = Ok (resp, h') ->
  exists spec gaussians state_a state_b,
    parse_configuration rt payload = Ok (spec, gaussians, state_a, state_b) /\
    length (umbrella resp) = 18%nat /\
    forall (i : nat) w, umbrella resp !! i = Some w ->
      Sampling.center_index w = Z.of_nat i /\
      int_truediv (Z.of_nat i) 17 = Ok (Sampling.reaction_coordinate w) /\
      length (Sampling.samples w) = 120%nat /\
      exists px py pz,
        path resp !! i = Some (px, py, pz) /\
        forall s, s ∈ Sampling.samples w ->
          evaluate_potential_at_point rt (Sampling.x s, Sampling.y s) gaussians
          = Ok (Sampling.potential s) /\
          Sampling.bias s
          = (0.5 * 5 * ((Sampling.x s - px) * (Sampling.x s - px) +
                        (Sampling.y s - py) * (Sampling.y s - py)))%float.
Proof.
  intros H. apply compute_visualisation_inv in H
    as (spec & gaussians & state_a & state_b & grid_x & grid_y & x_axis & y_axis
        & pot & start & end_ & neb & idx & tp & te & bp & u
        & Hcfg & _ & _ & _ & _ & Hneb & _ & _ & _ & _ & Hu & ->).
  cbn [path umbrella].
  exists spec, gaussians, state_a, state_b. split; [done|].
  apply run_neb_inv in Hneb as (Hlen & Hen & _).
  pose proof (mapM_length _ _ _ Hen) as Hlen'.
  pose proof (umbrella_sampling_windows _ _ _ _ _ _ _ _ _ _ Hu) as Hw.
  pose proof (umbrella_sampling_samples_all _ _ _ _ _ _ _ _ _ _ Hu) as Hs.
  split.
  { apply Forall2_length in Hw. unfold enumerate in Hw.
    rewrite length_imap in Hw. rewrite <- Hw, Hlen. reflexivity. }
  intros i w Hi.
  destruct (Forall2_lookup_r _ _ _ _ _ Hw Hi) as (ip & Hip & Hc & Hrc & _).
  destruct (Forall2_lookup_r _ _ _ _ _ Hs Hi) as (ip' & Hip' & _ & Hn & Hsam).
  assert (ip' = ip) as -> by congruence.
  unfold enumerate in Hip. rewrite list_lookup_imap in Hip.
  destruct (Neb.path neb !! i) as [[px py]|] eqn:Hp; [|discriminate].
  injection Hip as <-. cbn [fst snd] in *.
  split; [done|]. split.
  { rewrite Hlen in Hrc. exact Hrc. }
  split; [exact Hn|].
  destruct (mapM_lookup _ _ _ _ _ Hen Hp) as (pz & Hz & _).
  exists px, py, pz. split; [apply lookup_path_entries; done|].
  intros s Hin. by apply (proj1 (Forall_forall _ _) Hsam).
Qed.

End Response.

Lemma response_grid_witness :
  exists resp h',
    compute_visualisation Table.table_rt Examples.nan_payload ∅ = Ok (resp, h') /\
    grid_y_axis resp = grid_x_axis resp /\
    length (grid_x_axis resp) = 10%nat /\
    length (grid_z resp) = 10%nat /\
    grid_min_max (grid_z resp) = (grid_zMin resp, grid_zMax resp).
Proof.
  destruct (compute_visualisation Table.table_rt Examples.nan_payload ∅)
    as [[resp h']|] eqn:E; [|vm_compute in E; discriminate E].
  destruct (response_grid Table.table_rt Examples.nan_payload ∅ resp h' E)
    as (spec & gaussians & a & b & Hcfg & _ & _ & _ & Hy & Hlen & Hz & _ & Hmm & _).
  exists resp, h'. split; [reflexivity|]. split; [exact Hy|].
  vm_compute in Hcfg. injection Hcfg as <- _ _ _. cbn [GridSpec.resolution] in Hlen.
  split; [lia|]. split; [lia | exact Hmm].
Defined.

(** The band of [peak_payload]: energies 0 along the band and [+inf] at
    its end, which is the transition state. *)
Lemma peak_transition_state :
  match compute_visualisation Table.table_rt Examples.peak_payload ∅ with
  | Ok (resp, _) =>
      ts_index (transitionState resp) = 17 /\
      ts_energy (transitionState resp) = infinity /\
      map (fun p : float * float * float => p.2) (path resp)
      = replicate 17 0%float ++ [infinity]
  | Raise _ => False
  end.
Proof. vm_compute. repeat split. Qed.

Lemma response_path_witness :
  exists resp h',
    compute_visualisation Table.table_rt Examples.peak_payload ∅ = Ok (resp, h') /\
    length (path resp) = 18%nat /\
    ts_index (transitionState resp) = 17 /\
    path resp !! 17%nat = Some (ts_x (transitionState resp),
                                ts_y (transitionState resp), infinity) /\
    (forall (j : nat) x y z, (j < 17)%nat -> path resp !! j = Some (x, y, z) ->
       (z <? infinity)%float = true \/ is_nan z = true) /\
    1 <= nebIterations resp <= 600 /\
    (0 <=? nebMaxForce resp)%float = true.
Proof.
  pose proof peak_transition_state as P.
  destruct (compute_visualisation Table.table_rt Examples.peak_payload ∅)
    as [[resp h']|] eqn:E; [|destruct P].
  destruct P as (Hidx & Hen & _).
  destruct (response_path Table.table_rt Examples.peak_payload ∅ resp h' E)
    as (spec & gaussians & a & b & _ & Hlen & _
        & (k & Hk & Hts & _ & Hfirst & _) & Hit & Hmf & _).
  assert (k = 17%nat) as -> by lia.
  rewrite Hen in Hts, Hfirst.
  exists resp, h'. split; [reflexivity|]. split; [exact Hlen|].
  split; [exact Hidx|]. split; [exact Hts|]. split; [exact Hfirst|].
  split; [exact Hit | exact Hmf].
Defined.

Lemma response_umbrella_witness :
  exists resp h',
    compute_visualisation Table.table_rt Examples.nan_payload ∅ = Ok (resp, h') /\
    length (umbrella resp) = 18%nat.
Proof.
  destruct (compute_visualisation Table.table_rt Examples.nan_payload ∅)
    as [[resp h']|] eqn:E; [|vm_compute in E; discriminate E].
  destruct (response_umbrella Table.table_rt Examples.nan_payload ∅ resp h' E)
    as (spec & gaussians & a & b & _ & Hlen & _).
  exists resp, h'. split; [reflexivity | exact Hlen].
Defined.

End ResponseFacts.
